(** * Cluster tomography: Hoshen-Kopelman labelling, bonds and gap statistics

    A shallow embedding of [cluster_functions.py] and of [analysis] from
    [spatial_tomography.py].

    - numpy integer arrays are [list Z]; indices are [Z] and follow Python's
      rule for negative indices (they count from the end);
    - n-dimensional arrays are nested lists ([ndarray]);
    - the code that reads and writes the [labels] array is written in a small
      monad [prog] whose only effects are reading an entry, writing an entry
      and raising; [run] executes a program on a label array;
    - Python's unbounded [while] of [find] takes a [fuel] bound; running out of
      it is the error [OutOfFuel];
    - the products and comparisons of [get_bonds_nd] are those of the
      array's element type ([Numeric]); for integer arrays the product wraps
      at 64 bits. Indices and counts are bounded by the number of sites and
      are plain [Z];
    - floating-point histograms and quotients are modelled by exact
      rationals. *)

From stdpp Require Import list strings relations.
From Stdlib Require Import ZArith QArith Qcanon Relations Ascii Sorted.

Local Open Scope Z_scope.

(** ** Errors and results *)

Inductive exn : Type :=
| IndexError
| ValueError
| KeyError
| ZeroDivisionError
| UnboundLocalError
| OverflowError
| OutOfFuel.

Inductive res (A : Type) : Type :=
| Ok (a : A)
| Err (e : exn).
Arguments Ok {A} a.
Arguments Err {A} e.

Definition of_option {A} (e : exn) (o : option A) : res A :=
  match o with Some a => Ok a | None => Err e end.

#[export] Instance res_mret : MRet res := @Ok.
#[export] Instance res_mbind : MBind res := λ A B f r,
  match r with Ok a => f a | Err e => Err e end.

(** ** Python and numpy primitives *)

(** [py_index len i]: the position an index [i] denotes in a sequence of
    length [len]; negative indices count from the end. *)
Definition py_index (len : nat) (i : Z) : option nat :=
  if (0 <=? i) && (i <? Z.of_nat len) then Some (Z.to_nat i)
  else if (- Z.of_nat len <=? i) && (i <? 0) then Some (Z.to_nat (Z.of_nat len + i))
  else None.

Definition getitem {A} (l : list A) (i : Z) : option A :=
  k ← py_index (length l) i; l !! k.

Definition setitem {A} (l : list A) (i : Z) (v : A) : option (list A) :=
  k ← py_index (length l) i; Some (<[k:=v]> l).

(** [range(n)] and [np.arange(n)] *)
Definition range (n : Z) : list Z := seqZ 0 n.
Definition arange (n : Z) : list Z := range n.

(** [np.prod] *)
Definition prod (l : list Z) : Z := foldr Z.mul 1 l.

(** [np.dot] of two one-dimensional sequences *)
Fixpoint np_dot (a b : list Z) : option Z :=
  match a, b with
  | [], [] => Some 0
  | x :: a', y :: b' => s ← np_dot a' b'; Some (x * y + s)
  | _, _ => None
  end.

(** [itertools.product]: the first sequence varies slowest *)
Fixpoint product {A} (ls : list (list A)) : list (list A) :=
  match ls with
  | [] => [[]]
  | l :: ls' => x ← l; (x ::.) <$> product ls'
  end.

(** Truth value of an array entry in an [if]. *)
Class Truthy (A : Type) := truthy : A → bool.
#[export] Instance truthy_Z : Truthy Z := λ z, negb (z =? 0).
#[export] Instance truthy_bool : Truthy bool := λ b, b.

(** n-dimensional arrays *)
#[local] Unset Elimination Schemes.
Inductive ndarray (A : Type) : Type :=
| Scalar (a : A)
| Arr (l : list (ndarray A)).
#[local] Set Elimination Schemes.
Arguments Scalar {A} a.
Arguments Arr {A} l.

(** [a[coords]] with a full tuple of indices *)
Fixpoint nd_get {A} (a : ndarray A) (coords : list Z) : option A :=
  match coords, a with
  | [], Scalar v => Some v
  | c :: cs, Arr l => sub ← getitem l c; nd_get sub cs
  | _, _ => None
  end.

Fixpoint has_shape {A} (shape : list Z) (a : ndarray A) : Prop :=
  match shape, a with
  | [], Scalar _ => True
  | s :: ss, Arr l => Z.of_nat (length l) = s ∧ Forall (has_shape ss) l
  | _, _ => False
  end.

Section zip_opt.
Context {A B C : Type} (f : A → B → option C).
Fixpoint zip_opt (l : list A) (l' : list B) : option (list C) :=
  match l, l' with
  | [], [] => Some []
  | x :: xs, y :: ys => z ← f x y; zs ← zip_opt xs ys; Some (z :: zs)
  | _, _ => None
  end.
End zip_opt.

(** Elementwise binary operation on arrays of one shape. *)
Fixpoint nd_map2 {A B C} (f : A → B → C) (a : ndarray A) (b : ndarray B)
  : option (ndarray C) :=
  match a, b with
  | Scalar x, Scalar y => Some (Scalar (f x y))
  | Arr l, Arr l' => Arr <$> zip_opt (nd_map2 f) l l'
  | _, _ => None
  end.

(** [np.roll(l, 1)] on one axis: the last entry comes first. *)
Definition roll1 {A} (l : list A) : list A :=
  match last l with
  | Some x => x :: take (length l - 1) l
  | None => []
  end.

(** [np.roll(a, 1, axis=n)] *)
Fixpoint np_roll {A} (n : nat) (a : ndarray A) : option (ndarray A) :=
  match a with
  | Scalar _ => None
  | Arr l =>
      match n with
      | O => Some (Arr (roll1 l))
      | S n' => Arr <$> mapM (np_roll n') l
      end
  end.

(** ** The label store *)

Inductive prog (A : Type) : Type :=
| Ret (a : A)
| Raise (e : exn)
| Load (i : Z) (k : Z → prog A)
| Store (i v : Z) (k : prog A).
Arguments Ret {A} a.
Arguments Raise {A} e.
Arguments Load {A} i k.
Arguments Store {A} i v k.

Fixpoint prog_bind {A B} (f : A → prog B) (p : prog A) : prog B :=
  match p with
  | Ret a => f a
  | Raise e => Raise e
  | Load i k => Load i (λ v, prog_bind f (k v))
  | Store i v k => Store i v (prog_bind f k)
  end.

#[export] Instance prog_mret : MRet prog := @Ret.
#[export] Instance prog_mbind : MBind prog := @prog_bind.

Fixpoint run {A} (p : prog A) (labels : list Z) : res (A * list Z) :=
  match p with
  | Ret a => Ok (a, labels)
  | Raise e => Err e
  | Load i k =>
      match getitem labels i with
      | Some v => run (k v) labels
      | None => Err IndexError
      end
  | Store i v k =>
      match setitem labels i v with
      | Some labels' => run k labels'
      | None => Err IndexError
      end
  end.

(** [v = labels[i]] and [labels[i] = v] *)
Definition load (i : Z) : prog Z := Load i Ret.
Definition store (i v : Z) : prog unit := Store i v (Ret ()).

(** Lookups outside the label array that may raise. *)
Definition item {A} (l : list A) (n : nat) : prog A :=
  match l !! n with Some x => Ret x | None => Raise IndexError end.
Definition lift {A} (e : exn) (o : option A) : prog A :=
  match o with Some x => Ret x | None => Raise e end.

(** [for x in xs: body] *)
Fixpoint for_each {A} (xs : list A) (body : A → prog unit) : prog unit :=
  match xs with
  | [] => Ret ()
  | x :: xs' => body x;; for_each xs' body
  end.

(** [for x in xs: body], where [body] returns [true] when it ends in [break] *)
Fixpoint for_break {A} (xs : list A) (body : A → prog bool) : prog unit :=
  match xs with
  | [] => Ret ()
  | x :: xs' => b ← body x; if b : bool then Ret () else for_break xs' body
  end.

(** ** [cluster_functions.find] *)

Fixpoint find (fuel : nat) (x : Z) : prog Z :=
  match fuel with
  | O => Raise OutOfFuel
  | S fuel' =>
      lx ← load x;
      if negb (lx =? x) then x' ← load x; find fuel' x'
      else Ret x
  end.

(** ** [cluster_functions.hoshen_kopelman_nd] *)

Section hoshen_kopelman.
Context {A : Type} `{Truthy A}.
Variables (fuel : nat) (bonds : list (ndarray A)) (sizes : list Z) (d : nat)
          (bc : string).

Definition convert_vec : list Z := (λ k, prod (drop (S k) sizes)) <$> seq 0 d.

(** [bonds[n][coords]] as a condition *)
Definition bond_at (n : nat) (coords : list Z) : prog bool :=
  v ← lift IndexError (b ← bonds !! n; nd_get b coords);
  Ret (truthy v).

Definition cross_terms (coords : list Z) (idx_site : Z) (n : nat) : prog unit :=
  for_each (seq (S n) (d - S n)) (λ m,
    cm ← item coords m;
    if negb (cm =? 0) then
      b ← bond_at m coords;
      if b : bool then
        cv ← item convert_vec m;
        let idx_neighbor := idx_site - cv in
        r ← find fuel idx_site;
        t ← find fuel idx_neighbor;
        store t r
      else Ret ()
    else Ret ()).

(** The statements under [if bonds[n][coords]:], up to the [break] *)
Definition union_at (coords : list Z) (n : nat) : prog unit :=
  idx_site ← lift ValueError (np_dot coords convert_vec);
  cv ← item convert_vec n;
  let idx_neighbor := idx_site - cv in
  r ← find fuel idx_neighbor;
  store idx_site r;;
  cross_terms coords idx_site n.

Definition visit_site (coords : list Z) : prog unit :=
  for_break (seq 0 d) (λ n,
    cn ← item coords n;
    if negb (cn =? 0) then
      b ← bond_at n coords;
      if b : bool then
        union_at coords n;;
        Ret true
      else Ret false
    else Ret false).

Definition main_sweep : prog unit :=
  for_each (product (range <$> sizes)) visit_site.

Definition wrap_site (n : nat) (coords : list Z) : prog unit :=
  b ← bond_at n coords;
  if b : bool then
    idx_site ← lift ValueError (np_dot coords convert_vec);
    cv ← item convert_vec n;
    sz ← item sizes n;
    let idx_neighbor := idx_site + cv * (sz - 1) in
    rs ← find fuel idx_site;
    v ← load rs;
    rn ← find fuel idx_neighbor;
    store rn v
  else Ret ().

Definition boundary_pass : prog unit :=
  for_each (seq 0 d) (λ n,
    ch ← lift IndexError (String.get n bc);
    if Ascii.eqb ch "p"%char then
      let positions :=
        (range <$> take n sizes) ++ [[0]] ++ (range <$> drop (S n) sizes) in
      for_each (product positions) (wrap_site n)
    else Ret ()).

Definition canonicalize (len : nat) : prog unit :=
  for_each (range (Z.of_nat len)) (λ idx, r ← find fuel idx; store idx r).

Definition hk_body (len : nat) : prog unit :=
  main_sweep;; boundary_pass;; canonicalize len.
End hoshen_kopelman.

(** [np.unique(labels, return_inverse=True)[1]]: every entry is replaced by
    its position in the sorted list of the distinct values. *)
Fixpoint insert_sorted (x : Z) (l : list Z) : list Z :=
  match l with
  | [] => [x]
  | y :: l' =>
      if x <? y then x :: l
      else if x =? y then l
      else y :: insert_sorted x l'
  end.
Definition np_unique (l : list Z) : list Z := foldr insert_sorted [] l.
Fixpoint index_of (x : Z) (l : list Z) : Z :=
  match l with
  | [] => 0
  | y :: l' => if x =? y then 0 else 1 + index_of x l'
  end.
Definition unique_inverse (l : list Z) : list Z :=
  (λ x, index_of x (np_unique l)) <$> l.

Definition hoshen_kopelman_nd {A} `{Truthy A} (fuel : nat)
    (bonds : list (ndarray A)) (sizes : list Z) (d : nat) (bc : string)
    (reduce : bool) : res (list Z) :=
  let labels := arange (prod sizes) in
  match run (hk_body fuel bonds sizes d bc (length labels)) labels with
  | Ok (_, labels) => Ok (if reduce then unique_inverse labels else labels)
  | Err e => Err e
  end.


(** The scan of the axes as the specification words it: the loop over the
    axes ends after the first axis whose coordinate is not 0, whether or not
    the bond entry there is active. *)
Definition visit_site_first_nonzero {A} `{Truthy A} (fuel : nat)
    (bonds : list (ndarray A)) (sizes : list Z) (d : nat) (coords : list Z)
  : prog unit :=
  for_break (seq 0 d) (λ n,
    cn ← item coords n;
    if negb (cn =? 0) then
      b ← bond_at bonds n coords;
      (if b : bool then union_at fuel bonds sizes d coords n else Ret ());;
      Ret true
    else Ret false).

(** [coords[n] != 0] and [bonds[n][coords]] both hold. *)
Definition bond_open {A} `{Truthy A} (bonds : list (ndarray A)) (coords : list Z)
    (n : nat) : bool :=
  match coords !! n, bonds !! n ≫= (λ b, nd_get b coords) with
  | Some cn, Some v => negb (cn =? 0) && truthy v
  | _, _ => false
  end.

(** The first of the axes at which [bond_open] holds. *)
Fixpoint first_open {A} `{Truthy A} (bonds : list (ndarray A)) (coords : list Z)
    (axes : list nat) : option nat :=
  match axes with
  | [] => None
  | n :: axes' =>
      if bond_open bonds coords n then Some n else first_open bonds coords axes'
  end.

(** ** [cluster_functions.get_bonds_nd] *)

(** The elementwise [*] and [==] of an array's element type. The product is
    the one of the type: it wraps for a fixed-width integer, it is the
    conjunction for booleans. *)
Class Numeric (A : Type) := {
  num_mul : A → A → A;
  num_eqb : A → A → bool;
  num_mul_comm : ∀ x y, num_mul x y = num_mul y x
}.

(** The 64-bit signed integer that is congruent to [z] modulo [2^64] *)
Definition wrap64 (z : Z) : Z := (z + 2 ^ 63) `mod` 2 ^ 64 - 2 ^ 63.

(** [x * y] of two [int64] entries *)
Definition mul64 (x y : Z) : Z := wrap64 (x * y).

(** Arrays of integers ([int64]), and the grids of 0 and 1 that
    [bin_positions] makes *)
#[export] Instance numeric_int64 : Numeric Z := {|
  num_mul := mul64;
  num_eqb := Z.eqb;
  num_mul_comm := λ x y, f_equal wrap64 (Z.mul_comm x y)
|}.

(** Arrays of booleans *)
#[export] Instance numeric_bool : Numeric bool := {|
  num_mul := andb;
  num_eqb := Bool.eqb;
  num_mul_comm := andb_comm
|}.

Inductive bond_arrays (A : Type) : Type :=
| BondsAll (bonds : list (ndarray bool))
| BondsOne (bonds : list (ndarray A)).
Arguments BondsAll {A} bonds.
Arguments BondsOne {A} bonds.

Definition get_bonds_nd {A} `{Numeric A} (state : ndarray A) (d : nat)
    (bond_type : string) : res (bond_arrays A) :=
  rolls ← of_option ValueError (mapM (λ n, np_roll n state) (seq 0 d));
  if String.eqb bond_type "all" then
    bonds ← of_option ValueError (mapM (λ roll, nd_map2 num_eqb roll state) rolls);
    Ok (BondsAll bonds)
  else if String.eqb bond_type "one" then
    bonds ← of_option ValueError (mapM (λ roll, nd_map2 num_mul roll state) rolls);
    Ok (BondsOne bonds)
  else Err UnboundLocalError.

(** ** [cluster_functions.get_gapstat_2d] *)

(** A Python [dict] with integer keys, in insertion order. *)
Abbreviation dict := (list (Z * Z)).
Fixpoint dict_get (dc : dict) (key : Z) : option Z :=
  match dc with
  | [] => None
  | (k, v) :: dc' => if k =? key then Some v else dict_get dc' key
  end.
Fixpoint dict_set (dc : dict) (key v : Z) : dict :=
  match dc with
  | [] => [(key, v)]
  | (k, w) :: dc' => if k =? key then (k, v) :: dc' else (k, w) :: dict_set dc' key v
  end.

(** [f[i] += 1] *)
Definition incr (f : list Z) (i : Z) : res (list Z) :=
  c ← of_option IndexError (getitem f i);
  of_option IndexError (setitem f i (c + 1)).

(** [lab != bad]; the default [bad = nan] differs from every label and is
    [None] here. *)
Definition not_bad (bad : option Z) (lab : Z) : bool :=
  match bad with Some b => negb (lab =? b) | None => true end.

(** The state of the scan of one line: histogram, [first_seen], [last_seen]. *)
Abbreviation scan_state := (list Z * dict * dict)%type.

(** One step of [for i, lab in enumerate(line_labels)] *)
Definition scan_entry (bad : option Z) (st : scan_state) (i lab : Z) : res scan_state :=
  let '(f, first_seen, last_seen) := st in
  if not_bad bad lab then
    match dict_get last_seen lab with
    | Some last =>
        let gap := i - last in
        f' ← incr f gap;
        Ok (f', first_seen, dict_set last_seen lab i)
    | None =>
        Ok (f, dict_set first_seen lab i, dict_set last_seen lab i)
    end
  else Ok st.

Fixpoint scan_entries (bad : option Z) (st : scan_state) (i : Z) (line : list Z)
  : res scan_state :=
  match line with
  | [] => Ok st
  | lab :: line' => st' ← scan_entry bad st i lab; scan_entries bad st' (i + 1) line'
  end.

(** [for lab in last_seen: gap = size + first_seen[lab] - last_seen[lab];
    f[gap % size] += 1] *)
Fixpoint wrap_events (size : Z) (first_seen : dict) (keys : dict) (f : list Z)
  : res (list Z) :=
  match keys with
  | [] => Ok f
  | (lab, last) :: keys' =>
      first ← of_option KeyError (dict_get first_seen lab);
      let gap := size + first - last in
      if size =? 0 then Err ZeroDivisionError
      else f' ← incr f (gap mod size); wrap_events size first_seen keys' f'
  end.

(** The body of [for row in range(size)] *)
Definition scan_row (labels : list Z) (size : Z) (bc : string) (bad : option Z)
    (f : list Z) (row : Z) : res (list Z) :=
  let line_labels :=
    take (Z.to_nat ((row + 1) * size) - Z.to_nat (row * size))
         (drop (Z.to_nat (row * size)) labels) in
  '(f', first_seen, last_seen) ← scan_entries bad (f, [], []) 0 line_labels;
  if String.eqb bc "p" then wrap_events size first_seen last_seen f'
  else Ok f'.

Fixpoint scan_rows (labels : list Z) (size : Z) (bc : string) (bad : option Z)
    (f : list Z) (rows : list Z) : res (list Z) :=
  match rows with
  | [] => Ok f
  | row :: rows' =>
      f' ← scan_row labels size bc bad f row;
      scan_rows labels size bc bad f' rows'
  end.

(** One turn of the [while] loop up to the test of [both_directions] *)
Definition scan_pass (labels : list Z) (size : Z) (bc : string) (bad : option Z)
    (f : list Z) : res (list Z) :=
  scan_rows labels size bc bad f (range size).

(** [labels.reshape([size, size])] *)
Fixpoint chunks {A} (rows : nat) (size : nat) (l : list A) : list (list A) :=
  match rows with
  | O => []
  | S rows' => take size l :: chunks rows' size (drop size l)
  end.
Definition reshape2 (labels : list Z) (size : Z) : res (list (list Z)) :=
  if (0 <=? size) && (Z.of_nat (length labels) =? size * size)
  then Ok (chunks (Z.to_nat size) (Z.to_nat size) labels)
  else Err ValueError.

(** [np.transpose] of a [size] by [size] matrix given as its rows *)
Fixpoint transpose {A} (size : nat) (m : list (list A)) : list (list A) :=
  match m with
  | [] => replicate size []
  | row :: m' => zip_with cons row (transpose size m')
  end.

Definition zeros (size : Z) : res (list Z) :=
  if size <? 0 then Err ValueError else Ok (replicate (Z.to_nat size) 0).

Definition Z2Qc (z : Z) : Qc := Q2Qc (inject_Z z).

(** The histogram [f] when the [while] loop ends, and [norm] *)
Definition gap_histogram (labels : list Z) (size : Z) (bc : string)
    (both_directions : bool) (bad : option Z) : res (list Z * Z) :=
  f ← zeros size;
  let norm := size in
  f ← scan_pass labels size bc bad f;
  if both_directions then
    m ← reshape2 labels size;
    let labels := concat (transpose (Z.to_nat size) m) in
    let norm := norm * 2 in
    f ← scan_pass labels size bc bad f;
    Ok (f, norm)
  else Ok (f, norm).

Definition get_gapstat_2d (labels : list Z) (size : Z) (bc : string)
    (both_directions : bool) (bad : option Z) : res (list Qc) :=
  '(f, norm) ← gap_histogram labels size bc both_directions bad;
  Ok ((λ c, Z2Qc c / Z2Qc norm)%Qc <$> (f : list Z)).

(** ** [spatial_tomography.analysis] *)

(** [Counter(labels)]: the counts, in order of first occurrence *)
Definition counter (labels : list Z) : dict :=
  foldl (λ cnt lab, dict_set cnt lab (default 0 (dict_get cnt lab) + 1)) [] labels.

(** [most_common(1)]: the first entry of largest count *)
Fixpoint first_max (best : Z * Z) (cnt : dict) : Z * Z :=
  match cnt with
  | [] => best
  | (lab, c) :: cnt' => first_max (if best.2 <? c then (lab, c) else best) cnt'
  end.
Definition most_common1 (cnt : dict) : res (Z * Z) :=
  match cnt with
  | [] => Err IndexError
  | e :: cnt' => Ok (first_max e cnt')
  end.

(** [np.where(cond, a, b)] on arrays of one length *)
Fixpoint np_where (cond : list bool) (a b : list Z) : res (list Z) :=
  match cond, a, b with
  | [], [], [] => Ok []
  | c :: cond', x :: a', y :: b' =>
      r ← np_where cond' a' b'; Ok ((if c then x else y) :: r)
  | _, _, _ => Err ValueError
  end.

(** [a + b] on one-dimensional arrays, with numpy's broadcasting of a
    length-one operand *)
Definition np_add (a b : list Qc) : res (list Qc) :=
  if (length a =? length b)%nat then Ok (zip_with Qcplus a b)
  else match a, b with
       | [x], _ => Ok (Qcplus x <$> b)
       | _, [y] => Ok ((λ x, Qcplus x y) <$> a)
       | _, _ => Err ValueError
       end.

Fixpoint np_dotQ (a b : list Qc) : res Qc :=
  match a, b with
  | [], [] => Ok 0%Qc
  | x :: a', y :: b' => s ← np_dotQ a' b'; Ok (x * y + s)%Qc
  | _, _ => Err ValueError
  end.

(** The last two statements of [analysis] *)
Definition corner_contribution (gap_stat : list Qc) (size : Z) : res Qc :=
  let h := Z.to_nat (size / 2) in
  folded ← np_add (take h gap_stat) (reverse (drop h gap_stat));
  s ← np_dotQ (Z2Qc <$> arange (size / 2)) folded;
  Ok (s / Z2Qc (2 * size))%Qc.

(** The labels handed to [get_gapstat_2d] *)
Definition analysis_labels (fuel : nat) (binned : ndarray Z) (size : Z)
    (LC : string) : res (list Z * Z) :=
  bonds ← get_bonds_nd binned 2 "one";
  match bonds with
  | BondsAll _ => Err ValueError
  | BondsOne bonds =>
      labels ← hoshen_kopelman_nd fuel bonds [size; size] 2 "pp" false;
      '(LC_label, LC_size) ← most_common1 (counter labels);
      labels ←
        (if String.eqb LC "exclude" then
           np_where ((λ l, l =? LC_label) <$> labels) (arange (size * size)) labels
         else Ok labels);
      Ok (labels, LC_size)
  end.

Definition analysis (fuel : nat) (binned : ndarray Z) (size : Z) (LC : string)
  : res (Qc * list Qc * Z) :=
  '(labels, LC_size) ← analysis_labels fuel binned size LC;
  gap_stat ← get_gapstat_2d labels size "p" true None;
  corner ← corner_contribution gap_stat size;
  Ok (corner, gap_stat, LC_size).

(** ** Binning the particle positions *)

(** [int(v)] of a finite float [v], which is a rational: truncation toward
    zero. *)
Definition py_int (v : Q) : Z := Z.quot (Qnum v) (Z.pos (Qden v)).

(** [a[coords] = v] with a full tuple of indices *)
Fixpoint nd_set {A} (a : ndarray A) (coords : list Z) (v : A) : option (ndarray A) :=
  match coords, a with
  | [], Scalar _ => Some (Scalar v)
  | c :: cs, Arr l =>
      sub ← getitem l c;
      sub' ← nd_set sub cs v;
      l' ← setitem l c sub';
      Some (Arr l')
  | _, _ => None
  end.

(** Whether the integer [c] fits the index type of an array, a signed 64-bit
    integer *)
Definition fits_index (c : Z) : bool := (- 2 ^ 63 <=? c) && (c <? 2 ^ 63).

(** [a[coords] = v] with its exception: an index that does not fit the
    index type raises OverflowError, one that fits and is out of range for
    its axis raises IndexError. No axis is as long as the index type is wide,
    so an assignment that succeeds has indices that fit. *)
Definition nd_assign {A} (a : ndarray A) (coords : list Z) (v : A) : res (ndarray A) :=
  match nd_set a coords v with
  | Some a' => Ok a'
  | None => if forallb fits_index coords then Err IndexError else Err OverflowError
  end.

(** [np.zeros([size, size])] *)
Definition zeros2 (size : Z) : res (ndarray Z) :=
  if size <? 0 then Err ValueError
  else Ok (Arr (replicate (Z.to_nat size) (Arr (replicate (Z.to_nat size) (Scalar 0))))).

(** *** [spatial_tomography.bin_positions] *)

Module spatial_tomography.

(** [for pos in positions] *)
Fixpoint bin_loop (occupied : ndarray Z) (positions : list (Q * Q)) : res (ndarray Z) :=
  match positions with
  | [] => Ok occupied
  | pos :: positions' =>
      let x := py_int pos.1 in
      let y := py_int pos.2 in
      occupied ← nd_assign occupied [x; y] 1;
      bin_loop occupied positions'
  end.

Definition bin_positions (positions : list (Q * Q)) (size : Z) : res (ndarray Z) :=
  occupied ← zeros2 size;
  bin_loop occupied positions.

End spatial_tomography.

(** *** [cluster_membership.py] *)

(** [np.max] of a one-dimensional array *)
Definition np_max (l : list Z) : res Z :=
  match l with
  | [] => Err ValueError
  | x :: l' => Ok (foldl Z.max x l')
  end.

(** [l.pop(n)], the list that is left *)
Definition list_pop {A} (l : list A) (n : Z) : res (list A) :=
  k ← of_option IndexError (py_index (length l) n);
  Ok (delete k l).

Module cluster_membership.

(** [for i, pos in enumerate(positions)] *)
Fixpoint bin_loop (size : Z) (occupied : ndarray Z) (particle_bin : list Z) (i : Z)
    (positions : list (Q * Q)) : res (ndarray Z * list Z) :=
  match positions with
  | [] => Ok (occupied, particle_bin)
  | pos :: positions' =>
      let x := py_int pos.1 in
      let y := py_int pos.2 in
      occupied ← nd_assign occupied [x; y] 1;
      particle_bin ← of_option IndexError (setitem particle_bin i (size * y + x));
      bin_loop size occupied particle_bin (i + 1) positions'
  end.

Definition bin_positions (positions : list (Q * Q)) (size : Z)
  : res (ndarray Z * list Z) :=
  occupied ← zeros2 size;
  let particle_bin := replicate (length positions) 0 in
  bin_loop size occupied particle_bin 0 positions.

(** [for i, lab in enumerate(particle_labels): clusters[lab].append(i)];
    the lists of [clusters] are distinct objects. *)
Fixpoint collect (clusters : list (list Z)) (i : Z) (particle_labels : list Z)
  : res (list (list Z)) :=
  match particle_labels with
  | [] => Ok clusters
  | lab :: particle_labels' =>
      c ← of_option IndexError (getitem clusters lab);
      clusters ← of_option IndexError (setitem clusters lab (c ++ [i]));
      collect clusters (i + 1) particle_labels'
  end.

(** [for n in ns: if len(clusters[n]) <= 1: to_pop.append(n)] *)
Fixpoint singles (clusters : list (list Z)) (to_pop : list Z) (ns : list Z)
  : res (list Z) :=
  match ns with
  | [] => Ok to_pop
  | n :: ns' =>
      c ← of_option IndexError (getitem clusters n);
      singles clusters (if (length c <=? 1)%nat then to_pop ++ [n] else to_pop) ns'
  end.

(** [for n in ns: clusters.pop(n)] *)
Fixpoint pop_all (clusters : list (list Z)) (ns : list Z) : res (list (list Z)) :=
  match ns with
  | [] => Ok clusters
  | n :: ns' => clusters ← list_pop clusters n; pop_all clusters ns'
  end.

Definition cluster_membership (fuel : nat) (binned : ndarray Z) (particle_bin : list Z)
    (size : Z) : res (list (list Z) * Z) :=
  bonds ← get_bonds_nd binned 2 "one";
  match bonds with
  | BondsAll _ => Err ValueError
  | BondsOne bonds =>
      labels ← hoshen_kopelman_nd fuel bonds [size; size] 2 "pp" false;
      '(_, LC_size) ← most_common1 (counter labels);
      particle_labels ← of_option IndexError (mapM (getitem labels) particle_bin);
      top ← np_max labels;
      let clusters := replicate (Z.to_nat (top + 1)) [] in
      clusters ← collect clusters 0 particle_labels;
      top ← np_max labels;
      to_pop ← singles clusters [] (range top);
      clusters ← pop_all clusters (reverse to_pop);
      Ok (clusters, LC_size)
  end.

(** The list written for one snapshot: the particles of each cluster, the
    clusters separated by [-1]. *)
Definition record_clusters (clusters : list (list Z)) : res (list Z) :=
  let out :=
    foldl (λ out cluster, foldl (λ out i, out ++ [i]) out cluster ++ [-1]) []
      (take (length clusters - 1) clusters) in
  last_cluster ← of_option IndexError (getitem clusters (-1));
  Ok (foldl (λ out i, out ++ [i]) out last_cluster).

End cluster_membership.

(** * Specification vocabulary *)

(** ** Parent chains of a label array *)

(** [root_at labels k x r]: following [x -> labels[x]] from [x] reaches after
    [k] steps the first index [r] with [labels[r] = r]. *)
Inductive root_at (labels : list Z) : nat → Z → Z → Prop :=
| root_at_here x :
    getitem labels x = Some x → root_at labels 0 x x
| root_at_step k x y r :
    getitem labels x = Some y → y ≠ x → root_at labels k y r →
    root_at labels (S k) x r.

Definition root_of (labels : list Z) (x r : Z) : Prop := ∃ k, root_at labels k x r.

Definition site (labels : list Z) (i : Z) : Prop := 0 ≤ i < Z.of_nat (length labels).

Definition in_range (labels : list Z) : Prop := Forall (site labels) labels.

(** Every entry is a site and every parent chain ends in a root. *)
Definition forest (labels : list Z) : Prop :=
  in_range labels ∧ ∀ i, site labels i → ∃ r, root_of labels i r.

Definition same_root (labels : list Z) (i j : Z) : Prop :=
  ∃ r, root_of labels i r ∧ root_of labels j r.

(** The assignments [hoshen_kopelman_nd] makes: the value written is a root,
    and it is written into the entry of a root or of an index of its own
    tree; the array is a forest afterwards. *)
Definition union_write (labels : list Z) (i v : Z) (labels' : list Z) : Prop :=
  site labels i ∧ getitem labels v = Some v ∧
  (getitem labels i = Some i ∨ root_of labels i v) ∧
  forest labels'.

(** ** Weakest preconditions for [prog]

    [wp W p Q labels]: running [p] on [labels] raises nothing (no index out
    of range, no exhausted fuel), every assignment it makes satisfies [W] and
    it ends with a result and an array that satisfy [Q]. *)
Fixpoint wp {A} (W : list Z → Z → Z → list Z → Prop) (p : prog A)
    (Q : A → list Z → Prop) (labels : list Z) : Prop :=
  match p with
  | Ret a => Q a labels
  | Raise _ => False
  | Load i k =>
      match getitem labels i with
      | Some v => wp W (k v) Q labels
      | None => False
      end
  | Store i v k =>
      match setitem labels i v with
      | Some labels' => W labels i v labels' ∧ wp W k Q labels'
      | None => False
      end
  end.

(** [p] runs safely from [labels] and all its assignments satisfy [W]. *)
Definition always {A} (W : list Z → Z → Z → list Z → Prop) (p : prog A)
    (labels : list Z) : Prop :=
  wp W p (λ _ _, True) labels.

(** The assignments [(i, v)] that [p] makes when run on [labels], in
    order, up to its end or its first exception. *)
Fixpoint writes {A} (p : prog A) (labels : list Z) : list (Z * Z) :=
  match p with
  | Ret _ | Raise _ => []
  | Load i k =>
      match getitem labels i with
      | Some v => writes (k v) labels
      | None => []
      end
  | Store i v k =>
      match setitem labels i v with
      | Some labels' => (i, v) :: writes k labels'
      | None => []
      end
  end.

(** A union assignment as the specification words it: the root written is
    another index than the entry it is written into. *)
Definition union_write_other (labels : list Z) (i v : Z) (labels' : list Z) : Prop :=
  union_write labels i v labels' ∧ v ≠ i.

(** ** The lattice *)

(** The flat index of a coordinate tuple: [idx = sum c_k * stride_k] with
    [stride_k] the product of the sizes after [k]. *)
Fixpoint site_index (sizes coords : list Z) : Z :=
  match sizes, coords with
  | _ :: sizes', c :: coords' => c * prod sizes' + site_index sizes' coords'
  | _, _ => 0
  end.

(** The coordinate tuples of the lattice. *)
Definition lattice (sizes coords : list Z) : Prop :=
  Forall2 (λ c s, 0 ≤ c < s) coords sizes.

Section bonds.
Context {A : Type} `{Truthy A}.
Variables (bonds : list (ndarray A)) (sizes : list Z) (bc : string).

(** The entry of the axis-[n] bond array at [coords] is active. *)
Definition active (n : nat) (coords : list Z) : Prop :=
  ∃ b v, bonds !! n = Some b ∧ nd_get b coords = Some v ∧ truthy v = true.

(** Two sites joined by one active bond: the entry at a coordinate other
    than 0 joins the site to its predecessor along the axis, the entry at
    coordinate 0 joins it to the other end of the axis when the axis is
    periodic. *)
Inductive bond_link : list Z → list Z → Prop :=
| link_inner (n : nat) (coords : list Z) (c : Z) :
    lattice sizes coords → coords !! n = Some c → c ≠ 0 →
    active n coords →
    bond_link coords (<[n := c - 1]> coords)
| link_wrap (n : nat) (coords : list Z) (sz : Z) :
    lattice sizes coords → coords !! n = Some 0 →
    String.get n bc = Some "p"%char → sizes !! n = Some sz →
    active n coords →
    bond_link coords (<[n := sz - 1]> coords).

(** Connected by a path of active bonds, walked in either direction. *)
Definition connected : list Z → list Z → Prop := rtsc bond_link.
End bonds.

(** Well-formed input of [hoshen_kopelman_nd]: [d] sizes, [d] bond arrays of
    that shape, one boundary character per axis (['p'] is periodic, every
    other character open). *)
Definition well_formed {A} (bonds : list (ndarray A)) (sizes : list Z) (d : nat)
    (bc : string) : Prop :=
  length sizes = d ∧ length bonds = d ∧ Forall (has_shape sizes) bonds ∧
  String.length bc = d.

(** Every axis has at least one site. *)
Definition inhabited (sizes : list Z) : Prop := Forall (λ s, 1 ≤ s) sizes.

(** The predecessor of [coords] along axis [n], wrapping at the boundary. *)
Definition pred_coords (shape coords : list Z) (n : nat) : list Z :=
  match coords !! n, shape !! n with
  | Some c, Some s => <[n := (c - 1) `mod` s]> coords
  | _, _ => coords
  end.

(** ** Vocabulary of the proofs *)

(** The classes of [labels] are those generated by the pairs in [R]. *)
Definition tracks (l : list Z) (R : relation Z) : Prop :=
  forest l ∧ (∀ x y, R x y → site l x ∧ site l y) ∧
  ∀ i j, site l i → site l j → same_root l i j ↔ rtsc R i j.


(** Entries at or after [s] are untouched, and no entry points at or
    after [s] except at itself. *)
Definition swept (s : Z) (l : list Z) : Prop :=
  ∀ i, site l i →
    (s ≤ i → getitem l i = Some i) ∧
    (∀ v, getitem l i = Some v → v ≠ i → v < s).


(** The pairs of flat indices joined by an active bond entry at a
    coordinate other than 0, for the entries selected by [P]. *)
Definition inner_edge {A} `{Truthy A} (bonds : list (ndarray A)) (sizes : list Z)
    (P : Z → nat → Prop) (u v : Z) : Prop :=
  ∃ coords n c,
    lattice sizes coords ∧ coords !! n = Some c ∧ c ≠ 0 ∧ active bonds n coords ∧
    P (site_index sizes coords) n ∧
    u = site_index sizes coords ∧ v = u - prod (drop (S n) sizes).

(** The pairs joined across a periodic boundary, for the entries selected
    by [P]. *)
Definition wrap_edge {A} `{Truthy A} (bonds : list (ndarray A)) (sizes : list Z)
    (bc : string) (P : nat → list Z → Prop) (u v : Z) : Prop :=
  ∃ coords n sz,
    lattice sizes coords ∧ coords !! n = Some 0 ∧
    String.get n bc = Some "p"%char ∧ sizes !! n = Some sz ∧
    active bonds n coords ∧ P n coords ∧
    u = site_index sizes coords ∧ v = u + prod (drop (S n) sizes) * (sz - 1).

(** The pairs joined by the bonds of the main sweep and by the boundary
    entries selected by [P]. *)
Definition bond_rel {A} `{Truthy A} (bonds : list (ndarray A)) (sizes : list Z)
    (bc : string) (P : nat → list Z → Prop) : relation Z :=
  λ x y, inner_edge bonds sizes (λ _ _, True) x y ∨ wrap_edge bonds sizes bc P x y.

(** Entries of sites before [s], and of [s] along axes before [n]. *)
Definition upto (s : Z) (n : nat) : Z → nat → Prop :=
  λ s' n', s' < s ∨ (s' = s ∧ (n' < n)%nat).


(** The state between two site visits of the main sweep. *)
Definition sweep_inv {A} `{Truthy A} (bonds : list (ndarray A)) (sizes : list Z)
    (s : Z) (n : nat) (t : Z) (l : list Z) : Prop :=
  length l = Z.to_nat (prod sizes) ∧
  tracks l (inner_edge bonds sizes (upto s n)) ∧
  swept t l.

(** The state between two steps of the boundary pass. *)
Definition boundary_inv {A} `{Truthy A} (bonds : list (ndarray A)) (sizes : list Z)
    (bc : string) (P : nat → list Z → Prop) (l : list Z) : Prop :=
  length l = Z.to_nat (prod sizes) ∧ tracks l (bond_rel bonds sizes bc P).

Definition all_bonds {A} `{Truthy A} (bonds : list (ndarray A)) (sizes : list Z)
    (bc : string) : relation Z :=
  bond_rel bonds sizes bc (λ _ _, True).

(** ** Gap statistics and the corner contribution *)

Definition sumZ (l : list Z) : Z := foldr Z.add 0 l.

(** The labels of a line that take part in the scan. *)
Definition kept (bad : option Z) (line : list Z) : list Z :=
  filter (λ lab, not_bad bad lab) line.

(** Row [r] of the flat [size] by [size] array. *)
Definition row (labels : list Z) (size r : Z) : list Z :=
  take (Z.to_nat size) (drop (Z.to_nat (r * size)) labels).

(** Occurrences of a label after its first in the line. *)
Definition repeats (bad : option Z) (line : list Z) : Z :=
  Z.of_nat (length (kept bad line)) - Z.of_nat (length (remove_dups (kept bad line))).

(** One wrap event for every label of the line when the boundary is periodic. *)
Definition wraps (bc : string) (bad : option Z) (line : list Z) : Z :=
  if String.eqb bc "p" then Z.of_nat (length (remove_dups (kept bad line))) else 0.

Definition pass_events (labels : list Z) (size : Z) (bc : string) (bad : option Z) : Z :=
  sumZ ((λ r, repeats bad (row labels size r) + wraps bc bad (row labels size r))
          <$> range size).

Definition scan_inv (bad : option Z) (f0 pre : list Z) (i : Z) (st : scan_state) : Prop :=
  let '(f, fs, ls) := st in
  fs.*1 = ls.*1 ∧ NoDup ls.*1 ∧ (∀ k, k ∈ ls.*1 ↔ k ∈ kept bad pre) ∧
  (∀ k a b, dict_get fs k = Some a → dict_get ls k = Some b → 0 ≤ a ≤ b ∧ b < i) ∧
  length f = length f0 ∧
  sumZ f = sumZ f0 + Z.of_nat (length (kept bad pre)) - Z.of_nat (length ls).

(** [labels] read column by column *)
Definition transposed (labels : list Z) (size : Z) : list Z :=
  concat (transpose (Z.to_nat size) (chunks (Z.to_nat size) (Z.to_nat size) labels)).


(** What [np.where(labels == LC_label, np.arange(size*size), labels)] holds. *)
Definition excluded (labels : list Z) (LC_label : Z) (labels' : list Z) : Prop :=
  length labels' = length labels ∧
  ∀ i l, site labels i → getitem labels i = Some l →
    getitem labels' i = Some (if l =? LC_label then i else l).


(** [g(s)], and the weighted sum of the corner contribution *)
Definition g_at (g : list Qc) (s : Z) : Qc := default 0%Qc (getitem g s).

Definition corner_sum (g : list Qc) (size : Z) : Qc :=
  foldr Qcplus 0%Qc
    ((λ ell, Z2Qc ell * (g_at g ell + g_at g (size - 1 - ell)))%Qc <$> range (size / 2)).

(** The fully occupied grid *)
Definition uniform_grid (size : Z) : ndarray Z :=
  Arr (replicate (Z.to_nat size) (Arr (replicate (Z.to_nat size) (Scalar 1)))).

(** Labels occurring at least twice in the line. *)
Definition twice_seen (bad : option Z) (line : list Z) : Z :=
  Z.of_nat (length (filter (λ lab, (2 ≤ length (filter (lab =.) line))%nat)
                      (remove_dups (kept bad line)))).

(** The sum of the histogram as the specification words it. *)
Definition claimed_events (labels : list Z) (size : Z) (bc : string) (bad : option Z) : Z :=
  sumZ ((λ r, twice_seen bad (row labels size r) + wraps bc bad (row labels size r))
          <$> range size).

(** ** Particles, bins and their labels *)

(** The position is inside the grid, as Python indices go. *)
Definition in_grid (size : Z) (pos : Q * Q) : Prop :=
  (- size ≤ py_int pos.1 < size) ∧ (- size ≤ py_int pos.2 < size).

(** The truncated coordinates of [pos] lie strictly between [-2^63] and
    [2^63]: they fit the index type of an array. *)
Definition index_sized (pos : Q * Q) : Prop :=
  (- 2 ^ 63 < py_int pos.1 < 2 ^ 63) ∧ (- 2 ^ 63 < py_int pos.2 < 2 ^ 63).

(** The bin a position falls in; a negative index counts from the end. *)
Definition bin_of (size : Z) (pos : Q * Q) : list Z :=
  [py_int pos.1 `mod` size; py_int pos.2 `mod` size].

(** The particles, numbered from [i], whose label is [lab]. *)
Fixpoint members (i : Z) (particle_labels : list Z) (lab : Z) : list Z :=
  match particle_labels with
  | [] => []
  | l :: particle_labels' =>
      if l =? lab then i :: members (i + 1) particle_labels' lab
      else members (i + 1) particle_labels' lab
  end.

(** The label of particle [i], [labels[particle_bin[i]]]. *)
Definition particle_label (labels particle_bin : list Z) (i : Z) : option Z :=
  if i <? 0 then None else b ← particle_bin !! Z.to_nat i; getitem labels b.

(** ** Labels and boundaries *)

(** The dictionary with its keys renamed by [phi]. *)
Definition relabel_keys (phi : Z → Z) (dc : dict) : dict :=
  (λ kv, (phi kv.1, kv.2)) <$> dc.

(** The number of entries equal to [lab]. *)
Definition occurrences (lab : Z) (labels : list Z) : Z :=
  Z.of_nat (length (filter (lab =.) labels)).

(** For each axis, whether its boundary character is ['p']. *)
Definition periodic_axes (bc : string) (d : nat) : list (option bool) :=
  (λ n, (λ ch, Ascii.eqb ch "p"%char) <$> String.get n bc) <$> seq 0 d.

(** ** Concrete inputs *)

(** The bonds of the 2 by 2 lattice on which every bond is active. *)
Definition all_active_2x2 : list (ndarray Z) :=
  [Arr [Arr [Scalar 1; Scalar 1]; Arr [Scalar 1; Scalar 1]];
   Arr [Arr [Scalar 1; Scalar 1]; Arr [Scalar 1; Scalar 1]]].

(** A 4 by 4 grid with a cluster of three bins, a cluster of two bins and
    empty bins. *)
Definition two_clusters_grid : ndarray Z :=
  Arr [Arr [Scalar 1; Scalar 1; Scalar 1; Scalar 0];
       Arr [Scalar 0; Scalar 0; Scalar 0; Scalar 0];
       Arr [Scalar 1; Scalar 1; Scalar 0; Scalar 0];
       Arr [Scalar 0; Scalar 0; Scalar 0; Scalar 0]].

(** A 2 by 2 lattice whose only active entry is that of axis 1 at site (1, 1). *)
Definition bonds_2x2_last_only : list (ndarray Z) :=
  [Arr [Arr [Scalar 0; Scalar 0]; Arr [Scalar 0; Scalar 0]];
   Arr [Arr [Scalar 0; Scalar 0]; Arr [Scalar 0; Scalar 1]]].


(** Four sites in a row: interior entries 1, 0, 1 and the wrap entry [w]. *)
Definition chain4 (w : Z) : list (ndarray Z) :=
  [Arr [Scalar w; Scalar 1; Scalar 0; Scalar 1]].


(** * Proofs *)

(** ** Indexing *)

Lemma py_index_site len i :
  0 ≤ i < Z.of_nat len → py_index len i = Some (Z.to_nat i).
Proof.
  intros Hi. unfold py_index.
  destruct (Z.leb_spec 0 i), (Z.ltb_spec i (Z.of_nat len)); simpl; (done || lia).
Qed.

Lemma getitem_site {A} (l : list A) i :
  0 ≤ i < Z.of_nat (length l) → getitem l i = l !! Z.to_nat i.
Proof. intros Hi. unfold getitem. by rewrite py_index_site. Qed.

Lemma setitem_site {A} (l : list A) i v :
  0 ≤ i < Z.of_nat (length l) → setitem l i v = Some (<[Z.to_nat i := v]> l).
Proof. intros Hi. unfold setitem. by rewrite py_index_site. Qed.

Lemma py_index_lt len i k : py_index len i = Some k → (k < len)%nat.
Proof.
  unfold py_index. intros Hk.
  destruct (Z.leb_spec 0 i), (Z.ltb_spec i (Z.of_nat len)); simpl in Hk;
    try (inversion Hk; subst; lia);
  destruct (Z.leb_spec (- Z.of_nat len) i), (Z.ltb_spec i 0); simpl in Hk;
    inversion Hk; subst; lia.
Qed.

Lemma setitem_length {A} (l l' : list A) i v :
  setitem l i v = Some l' → length l' = length l.
Proof.
  unfold setitem. destruct (py_index _ _); simpl; [|done].
  intros [= <-]. by rewrite length_insert.
Qed.

Lemma getitem_setitem_eq (l : list Z) i v :
  0 ≤ i < Z.of_nat (length l) →
  getitem (<[Z.to_nat i := v]> l) i = Some v.
Proof.
  intros Hi. rewrite getitem_site by (by rewrite length_insert).
  apply list_lookup_insert_eq. lia.
Qed.

Lemma getitem_setitem_ne (l : list Z) i j v :
  0 ≤ i < Z.of_nat (length l) → 0 ≤ j < Z.of_nat (length l) → i ≠ j →
  getitem (<[Z.to_nat i := v]> l) j = getitem l j.
Proof.
  intros Hi Hj Hne. rewrite !getitem_site by (by rewrite ?length_insert).
  apply list_lookup_insert_ne. lia.
Qed.

(** ** The program logic *)

Section wp_rules.
Context (W : list Z → Z → Z → list Z → Prop).

Lemma wp_mono {A} (p : prog A) (Q Q' : A → list Z → Prop) l :
  (∀ a l', Q a l' → Q' a l') → wp W p Q l → wp W p Q' l.
Proof.
  intros HQ. revert l. induction p as [a|e|i k IH|i v k IH]; intros l; simpl.
  - apply HQ.
  - done.
  - destruct (getitem l i); [apply IH|done].
  - destruct (setitem l i v); [|done]. intros [? ?]. split; [done|by apply IH].
Qed.

Lemma wp_bind {A B} (p : prog A) (f : A → prog B) (Q : B → list Z → Prop) l :
  wp W p (λ a l', wp W (f a) Q l') l → wp W (p ≫= f) Q l.
Proof.
  revert l. induction p as [a|e|i k IH|i v k IH]; intros l; simpl.
  - done.
  - done.
  - destruct (getitem l i); [apply IH|done].
  - destruct (setitem l i v); [|done]. intros [? ?]. split; [done|by apply IH].
Qed.

Lemma wp_run {A} (p : prog A) (Q : A → list Z → Prop) l :
  wp W p Q l → ∃ a l', run p l = Ok (a, l') ∧ Q a l'.
Proof.
  revert l. induction p as [a|e|i k IH|i v k IH]; intros l; simpl.
  - eauto.
  - done.
  - destruct (getitem l i); [apply IH|done].
  - destruct (setitem l i v); [|done]. intros [? ?]. by apply IH.
Qed.

Lemma wp_always {A} (p : prog A) (Q : A → list Z → Prop) l :
  wp W p Q l → always W p l.
Proof. apply wp_mono. done. Qed.

Lemma wp_lift {A} e (o : option A) x (Q : A → list Z → Prop) l :
  o = Some x → Q x l → wp W (lift e o) Q l.
Proof. by intros ->. Qed.

Lemma wp_item {A} (xs : list A) n x (Q : A → list Z → Prop) l :
  xs !! n = Some x → Q x l → wp W (item xs n) Q l.
Proof. unfold item. by intros ->. Qed.

Lemma wp_load i v (Q : Z → list Z → Prop) l :
  getitem l i = Some v → Q v l → wp W (load i) Q l.
Proof. simpl. by intros ->. Qed.

Lemma wp_store i v (Q : unit → list Z → Prop) l :
  site l i → W l i v (<[Z.to_nat i := v]> l) → Q () (<[Z.to_nat i := v]> l) →
  wp W (store i v) Q l.
Proof. intros Hi HW HQ. simpl. by rewrite setitem_site. Qed.

Lemma wp_for_each_from {A} (I : list A → list Z → Prop) (body : A → prog unit)
    (done todo : list A) l :
  I done l →
  (∀ pre x post l, done ++ todo = pre ++ x :: post → (length done ≤ length pre)%nat →
     I pre l → wp W (body x) (λ _ l', I (pre ++ [x]) l') l) →
  wp W (for_each todo body) (λ _ l', I (done ++ todo) l') l.
Proof.
  revert done l. induction todo as [|x todo IH]; intros done l HI Hbody; simpl.
  - by rewrite app_nil_r.
  - apply wp_bind. eapply wp_mono; [|by eapply (Hbody done x todo)].
    intros [] l' HI'. simpl. replace (done ++ x :: todo) with ((done ++ [x]) ++ todo)
      by (by rewrite <- app_assoc).
    apply IH; [done|]. intros pre y post l'' Heq Hlen.
    apply (Hbody pre y post); [by rewrite <- Heq, <- app_assoc|].
    rewrite length_app in Hlen. simpl in Hlen. lia.
Qed.

Lemma wp_for_each {A} (I : list A → list Z → Prop) (body : A → prog unit)
    (xs : list A) l :
  I [] l →
  (∀ pre x post l, xs = pre ++ x :: post →
     I pre l → wp W (body x) (λ _ l', I (pre ++ [x]) l') l) →
  wp W (for_each xs body) (λ _ l', I xs l') l.
Proof.
  intros HI Hbody. apply (wp_for_each_from I body [] xs); [done|].
  intros pre x post l' Heq _. by apply (Hbody pre x post).
Qed.

Lemma wp_for_break_from {A} (I : list A → list Z → Prop) (Q : list Z → Prop)
    (body : A → prog bool) (done todo : list A) l :
  I done l →
  (∀ pre x post l, done ++ todo = pre ++ x :: post →
     I pre l →
     wp W (body x) (λ b l', if b : bool then Q l' else I (pre ++ [x]) l') l) →
  (∀ l, I (done ++ todo) l → Q l) →
  wp W (for_break todo body) (λ _ l', Q l') l.
Proof.
  revert done l. induction todo as [|x todo IH]; intros done l HI Hbody HQ; simpl.
  - apply HQ. by rewrite app_nil_r.
  - apply wp_bind. eapply wp_mono; [|by eapply (Hbody done x todo)].
    intros [] l' HI'; simpl; [done|].
    apply (IH (done ++ [x])); [done| |].
    + intros pre y post l'' Heq. apply (Hbody pre y post).
      by rewrite <- Heq, <- app_assoc.
    + intros l''. rewrite <- app_assoc. apply HQ.
Qed.
End wp_rules.

(** ** Parent chains *)

Lemma root_at_det l k k' x r r' :
  root_at l k x r → root_at l k' x r' → k = k' ∧ r = r'.
Proof.
  intros H. revert k' r'. induction H as [x Hx|k x y r Hx Hne Hy IH]; intros k' r' H'.
  - inversion H' as [? Hx'|? ? y' ? Hx' Hne' Hy']; subst; [done|]. congruence.
  - inversion H' as [? Hx'|k'' ? y' ? Hx' Hne' Hy']; subst; [congruence|].
    assert (y' = y) as -> by congruence.
    destruct (IH _ _ Hy') as [-> ->]. done.
Qed.

Lemma root_of_det l x r r' : root_of l x r → root_of l x r' → r = r'.
Proof. intros [k H] [k' H']. by destruct (root_at_det _ _ _ _ _ _ H H'). Qed.

Lemma root_at_root l k x r : root_at l k x r → getitem l r = Some r.
Proof. induction 1; done. Qed.

Lemma root_of_get l x r : root_of l x r → getitem l r = Some r.
Proof. intros [k H]. by eapply root_at_root. Qed.

Lemma root_of_root l x r : root_of l x r → root_of l r r.
Proof. intros [k H]. exists 0%nat. constructor. by eapply root_at_root. Qed.

Lemma root_of_here l x : getitem l x = Some x → root_of l x x.
Proof. intros. exists 0%nat. by constructor. Qed.

Lemma root_of_step l x y r :
  getitem l x = Some y → y ≠ x → root_of l y r → root_of l x r.
Proof. intros Hx Hne [k H]. exists (S k). by econstructor. Qed.

Lemma root_of_self l x r : getitem l x = Some x → root_of l x r → r = x.
Proof. intros Hx Hr. eapply root_of_det; [done|]. by apply root_of_here. Qed.

Lemma in_range_get l i v : in_range l → site l i → getitem l i = Some v → site l v.
Proof.
  intros Hl Hi. rewrite getitem_site by done. intros Hv.
  unfold in_range in Hl. rewrite Forall_lookup in Hl. by eapply Hl.
Qed.

Lemma site_get l i : site l i → ∃ v, getitem l i = Some v.
Proof.
  intros Hi. rewrite getitem_site by done. apply lookup_lt_is_Some_2.
  unfold site in Hi. lia.
Qed.

Lemma root_at_site l k x r : in_range l → site l x → root_at l k x r → site l r.
Proof.
  intros Hl Hx H. induction H as [|k x y r Hg Hne Hy IH]; [done|].
  apply IH. by eapply in_range_get.
Qed.

Lemma root_of_site l x r : in_range l → site l x → root_of l x r → site l r.
Proof. intros Hl Hx [k H]. by eapply root_at_site. Qed.

(** The indices on a parent chain are pairwise distinct sites, so a chain
    has fewer steps than the array has entries. *)
Lemma root_at_nodes l k x r :
  in_range l → site l x → root_at l k x r →
  ∃ nodes : list Z, length nodes = S k ∧ NoDup nodes ∧
    ∀ y, y ∈ nodes → site l y ∧ ∃ j, (j ≤ k)%nat ∧ root_at l j y r.
Proof.
  intros Hl Hx H. induction H as [x Hg|k x y r Hg Hne Hy IH].
  - exists [x]. split_and!; [done|apply NoDup_singleton|].
    intros y ->%list_elem_of_singleton. split; [done|]. exists 0%nat. split; [lia|by constructor].
  - destruct IH as (nodes & Hlen & Hnd & Hin); [by eapply in_range_get|].
    exists (x :: nodes). split_and!.
    + simpl. by rewrite Hlen.
    + apply NoDup_cons. split; [|done]. intros Hxin.
      destruct (Hin _ Hxin) as (_ & j & Hj & Hr).
      assert (root_at l (S k) x r) as Hr' by (by econstructor).
      destruct (root_at_det _ _ _ _ _ _ Hr Hr'). lia.
    + intros z [->|Hz]%elem_of_cons.
      * split; [done|]. exists (S k). split; [lia|by econstructor].
      * destruct (Hin _ Hz) as (? & j & ? & ?). split; [done|]. exists j. split; [lia|done].
Qed.

Lemma root_at_bound l k x r :
  in_range l → site l x → root_at l k x r → (k < length l)%nat.
Proof.
  intros Hl Hx H. destruct (root_at_nodes _ _ _ _ Hl Hx H) as (nodes & Hlen & Hnd & Hin).
  assert (nodes ⊆+ range (Z.of_nat (length l))) as Hsub.
  { apply NoDup_submseteq; [done|]. intros y Hy. destruct (Hin _ Hy) as [[? ?] _].
    unfold range. apply elem_of_seqZ. lia. }
  apply submseteq_length in Hsub. unfold range in Hsub.
  rewrite length_seqZ in Hsub. lia.
Qed.

(** ** [find] *)

Lemma find_wp W l k x r fuel (Q : Z → list Z → Prop) :
  root_at l k x r → (k < fuel)%nat → Q r l → wp W (find fuel x) Q l.
Proof.
  intros H. revert fuel. induction H as [x Hg|k x y r Hg Hne Hy IH]; intros fuel Hk HQ.
  - destruct fuel as [|fuel]; [lia|]. simpl. rewrite Hg. rewrite Z.eqb_refl. done.
  - destruct fuel as [|fuel]; [lia|]. simpl. rewrite Hg.
    destruct (Z.eqb_spec y x) as [|_]; [done|]. simpl. rewrite Hg.
    apply IH; [lia|done].
Qed.

Lemma find_forest W l x fuel (Q : Z → list Z → Prop) :
  forest l → site l x → (length l < fuel)%nat →
  (∀ r, root_of l x r → site l r → Q r l) →
  wp W (find fuel x) Q l.
Proof.
  intros [Hl Hroots] Hx Hfuel HQ. destruct (Hroots x Hx) as (r & k & Hr).
  eapply find_wp; [done| |].
  - pose proof (root_at_bound _ _ _ _ Hl Hx Hr). lia.
  - apply HQ; [by exists k|by eapply root_at_site].
Qed.

Lemma site_insert l k v i : site l i → site (<[k := v]> l) i.
Proof. unfold site. by rewrite length_insert. Qed.

Lemma site_insert_inv l k v i : site (<[k := v]> l) i → site l i.
Proof. unfold site. by rewrite length_insert. Qed.

Lemma in_range_insert l i v :
  in_range l → site l v → in_range (<[i := v]> l).
Proof.
  intros Hl Hv. unfold in_range. apply Forall_insert; [|by apply site_insert].
  eapply Forall_impl; [done|]. intros x Hx. by apply site_insert.
Qed.

(** Pointing a root [a] at a root [b] merges the tree of [a] into that of [b]. *)
Lemma union_root_at l a b k i r :
  in_range l → site l a → site l b →
  getitem l a = Some a → getitem l b = Some b →
  site l i → root_at l k i r →
  root_of (<[Z.to_nat a := b]> l) i (if decide (r = a) then b else r).
Proof.
  intros Hl Ha Hb Hga Hgb Hi H.
  induction H as [x Hx|k x y r Hx Hne Hy IH].
  - destruct (decide (x = a)) as [->|Hxa].
    + destruct (decide (b = a)) as [->|Hba].
      * apply root_of_here. by apply getitem_setitem_eq.
      * eapply root_of_step; [by apply getitem_setitem_eq|done|].
        apply root_of_here. by rewrite getitem_setitem_ne.
    + apply root_of_here. by rewrite getitem_setitem_ne.
  - assert (x ≠ a) by congruence.
    eapply root_of_step; [by rewrite getitem_setitem_ne|done|].
    apply IH. by eapply in_range_get.
Qed.

Lemma union_root l a b i r :
  in_range l → site l a → site l b →
  getitem l a = Some a → getitem l b = Some b →
  site l i → root_of l i r →
  root_of (<[Z.to_nat a := b]> l) i (if decide (r = a) then b else r).
Proof. intros ????? Hi [k H]. by eapply union_root_at. Qed.

Lemma union_forest l a b :
  forest l → site l a → site l b →
  getitem l a = Some a → getitem l b = Some b →
  forest (<[Z.to_nat a := b]> l).
Proof.
  intros [Hl Hroots] Ha Hb Hga Hgb. split; [by apply in_range_insert|].
  intros i Hi%site_insert_inv. destruct (Hroots i Hi) as [r Hr].
  eexists. by eapply union_root.
Qed.

(** Pointing an index at the root of its own tree changes no root. *)
Lemma compress_root_at l i r k x r' :
  in_range l → site l i → root_of l i r →
  site l x → root_at l k x r' →
  root_of (<[Z.to_nat i := r]> l) x r'.
Proof.
  intros Hl Hi Hir Hx H.
  induction H as [x Hg|k x y r' Hg Hne Hy IH].
  - destruct (decide (x = i)) as [->|Hxi].
    + assert (r = i) as -> by (by eapply root_of_self).
      apply root_of_here. by apply getitem_setitem_eq.
    + apply root_of_here. by rewrite getitem_setitem_ne.
  - assert (site l y) as Hsy by (by eapply in_range_get).
    destruct (decide (x = i)) as [->|Hxi].
    + assert (root_of l i r') as Hir' by (eapply root_of_step; [done..|by exists k]).
      assert (r' = r) as -> by (by apply (root_of_det l i)).
      assert (getitem l r = Some r) as Hgr by (by eapply root_at_root).
      assert (r ≠ i) by congruence.
      eapply root_of_step; [by apply getitem_setitem_eq|done|].
      apply root_of_here. rewrite getitem_setitem_ne; [done..| |done].
      by apply (root_of_site l i r).
    + eapply root_of_step; [by rewrite getitem_setitem_ne|done|by apply IH].
Qed.

Lemma compress_root l i r x r' :
  in_range l → site l i → root_of l i r → site l x → root_of l x r' →
  root_of (<[Z.to_nat i := r]> l) x r'.
Proof. intros ??? Hx [k H]. by eapply compress_root_at. Qed.

Lemma compress_forest l i r :
  forest l → site l i → root_of l i r → forest (<[Z.to_nat i := r]> l).
Proof.
  intros [Hl Hroots] Hi Hr. split.
  - apply in_range_insert; [done|]. by apply (root_of_site l i).
  - intros x Hx%site_insert_inv. destruct (Hroots x Hx) as [r' Hr'].
    exists r'. by eapply compress_root.
Qed.

(** ** Equivalence classes *)

Lemma same_root_refl l i : forest l → site l i → same_root l i i.
Proof. intros [_ Hroots] Hi. destruct (Hroots i Hi) as [r Hr]. by exists r. Qed.

Lemma same_root_sym l i j : same_root l i j → same_root l j i.
Proof. intros (r & ? & ?). by exists r. Qed.

Lemma same_root_trans l i j k : same_root l i j → same_root l j k → same_root l i k.
Proof.
  intros (r & Hi & Hj) (r' & Hj' & Hk).
  assert (r' = r) as -> by (by apply (root_of_det l j)). by exists r.
Qed.

Lemma rtsc_site (R : relation Z) (P : Z → Prop) x y :
  (∀ x y, R x y → P x ∧ P y) → P x → rtsc R x y → P y.
Proof.
  intros HR Hx H. induction H as [|x y z [Hxy|Hxy] _ IH]; [done|..];
    apply IH; by destruct (HR _ _ Hxy).
Qed.

Lemma rtsc_mono (R R' : relation Z) x y :
  (∀ x y, R x y → R' x y) → rtsc R x y → rtsc R' x y.
Proof.
  intros HR H. induction H as [|x y z Hxy _ IH]; [done|].
  eapply rtc_l; [|done]. destruct Hxy; [left|right]; by apply HR.
Qed.

Lemma tracks_equiv l (R R' : relation Z) :
  tracks l R → (∀ x y, R x y ↔ R' x y) → tracks l R'.
Proof.
  intros (Hf & Hs & Heq) HR. split_and!; [done|..].
  - intros x y ?%HR. by apply Hs.
  - intros i j Hi Hj. rewrite Heq by done.
    split; apply rtsc_mono; intros x y; by rewrite HR.
Qed.

Lemma tracks_union l (R R' : relation Z) u v a b :
  tracks l R → site l u → site l v → root_of l u a → root_of l v b →
  (∀ x y, R x y → R' x y) →
  R' u v ∨ R' v u →
  (∀ x y, R' x y → R x y ∨ (x = u ∧ y = v) ∨ (x = v ∧ y = u)) →
  tracks (<[Z.to_nat a := b]> l) R'.
Proof.
  intros (Hf & Hs & Heq) Hu Hv Hua Hvb Hinc Huv Hcases.
  assert (in_range l) as Hl by apply Hf.
  assert (site l a) as Ha by (by apply (root_of_site l u)).
  assert (site l b) as Hb by (by apply (root_of_site l v)).
  assert (getitem l a = Some a) as Hga by (destruct Hua; by eapply root_at_root).
  assert (getitem l b = Some b) as Hgb by (destruct Hvb; by eapply root_at_root).
  set (l' := <[Z.to_nat a := b]> l).
  assert (∀ i r, site l i → root_of l i r →
            root_of l' i (if decide (r = a) then b else r)) as Hroot.
  { intros i r Hi Hr. by apply union_root. }
  assert (forest l') as Hf' by (by apply union_forest).
  assert (∀ x y, R' x y → site l x ∧ site l y) as Hs'.
  { intros x y [HR|[[-> ->]|[-> ->]]]%Hcases; [by apply Hs|done..]. }
  assert (∀ i j, site l i → site l j → same_root l i j → same_root l' i j) as Hsame.
  { intros i j Hi Hj (r & Hri & Hrj). eexists. split; by apply Hroot. }
  assert (same_root l' u v) as Huv'.
  { exists b. split.
    - specialize (Hroot u a Hu Hua). by rewrite decide_True in Hroot.
    - specialize (Hroot v b Hv Hvb). by destruct (decide (b = a)). }
  split_and!; [done|..].
  - intros x y Hxy. destruct (Hs' _ _ Hxy). split; by apply site_insert.
  - intros i j Hi%site_insert_inv Hj%site_insert_inv. split.
    + intros (r' & Hi' & Hj').
      destruct Hf as [_ Hroots].
      destruct (Hroots i Hi) as [ri Hri], (Hroots j Hj) as [rj Hrj].
      pose proof (root_of_det _ _ _ _ Hi' (Hroot i ri Hi Hri)) as Ei.
      pose proof (root_of_det _ _ _ _ Hj' (Hroot j rj Hj Hrj)) as Ej.
      assert (rtsc R' u v) as Huv''.
      { destruct Huv; [by apply rtsc_lr|by apply rtsc_rl]. }
      assert (∀ x y, site l x → site l y → same_root l x y → rtsc R' x y) as Hold.
      { intros x y Hx Hy Hxy. eapply rtsc_mono; [done|]. by apply Heq. }
      destruct (decide (ri = a)) as [Eia|Hia], (decide (rj = a)) as [Eja|Hja].
      * apply Hold; [done..|]. exists a. split; congruence.
      * assert (rj = b) as Erj by congruence.
        transitivity u; [apply Hold; [done..|exists a; split; congruence]|].
        transitivity v; [done|]. apply Hold; [done..|]. exists b. split; congruence.
      * assert (ri = b) as Eri by congruence.
        transitivity v; [apply Hold; [done..|exists b; split; congruence]|].
        transitivity u; [by symmetry|]. apply Hold; [done..|]. exists a. split; congruence.
      * apply Hold; [done..|]. exists ri. split; congruence.
    + intros H. induction H as [x|x y z Hxy Hyz IH].
      * by apply same_root_refl, site_insert.
      * assert (site l y) as Hy.
        { destruct Hxy as [Hxy|Hxy]; by destruct (Hs' _ _ Hxy). }
        eapply same_root_trans; [|by apply IH].
        assert (∀ x y, R' x y → same_root l' x y) as Hstep.
        { intros x' y' HR'. destruct (Hcases _ _ HR') as [HR|[[-> ->]|[-> ->]]].
          - destruct (Hs _ _ HR). apply Hsame; [done..|]. apply Heq; [done..|].
            by apply rtsc_lr.
          - done.
          - by apply same_root_sym. }
        destruct Hxy as [Hxy|Hxy]; [by apply Hstep|by apply same_root_sym, Hstep].
Qed.

(** ** The lattice and its flat indices *)

Lemma convert_vec_cons s ss d :
  convert_vec (s :: ss) (S d) = prod ss :: convert_vec ss d.
Proof.
  unfold convert_vec. simpl. f_equal.
  rewrite <- fmap_S_seq, <- list_fmap_compose. done.
Qed.

Lemma convert_vec_lookup sizes d n :
  (n < d)%nat → convert_vec sizes d !! n = Some (prod (drop (S n) sizes)).
Proof.
  intros Hn. unfold convert_vec. rewrite list_lookup_fmap, lookup_seq_lt by done. done.
Qed.

Lemma np_dot_site_index sizes coords :
  length coords = length sizes →
  np_dot coords (convert_vec sizes (length sizes)) = Some (site_index sizes coords).
Proof.
  revert coords. induction sizes as [|s ss IH]; intros [|c cs] Hlen; try done.
  simpl length. rewrite convert_vec_cons. simpl. rewrite IH by (simpl in Hlen; lia). done.
Qed.

Lemma lattice_length sizes coords : lattice sizes coords → length coords = length sizes.
Proof. apply Forall2_length. Qed.

Lemma elem_of_product {A} (ls : list (list A)) (c : list A) :
  c ∈ product ls ↔ Forall2 (λ x l, x ∈ l) c ls.
Proof.
  revert c. induction ls as [|l ls IH]; intros c; simpl.
  - rewrite list_elem_of_singleton. split; [intros ->; constructor|by inversion 1].
  - rewrite list_elem_of_bind. split.
    + intros (x & (c' & -> & Hc')%list_elem_of_fmap & Hx).
      constructor; [done|by apply IH].
    + inversion 1 as [|x ? c' ? Hx Hc']; subst. exists x. split; [|done].
      apply list_elem_of_fmap. exists c'. split; [done|by apply IH].
Qed.

Lemma elem_of_lattice sizes coords :
  coords ∈ product (range <$> sizes) ↔ lattice sizes coords.
Proof.
  rewrite elem_of_product. unfold lattice. rewrite Forall2_fmap_r.
  split; intros Hc; (eapply Forall2_impl; [exact Hc|]); intros c s; simpl;
    unfold range; rewrite elem_of_seqZ; lia.
Qed.

Lemma prod_pos sizes : Forall (λ s, 1 ≤ s) sizes → 1 ≤ prod sizes.
Proof. induction 1; simpl; nia. Qed.

Lemma prod_nonneg sizes : Forall (λ s, 0 ≤ s) sizes → 0 ≤ prod sizes.
Proof. induction 1; simpl; nia. Qed.

Lemma site_index_bound sizes coords :
  lattice sizes coords → 0 ≤ site_index sizes coords < prod sizes.
Proof.
  induction 1 as [|c s cs ss Hc _ IH]; simpl; [lia|]. nia.
Qed.

Lemma site_index_inj sizes c c' :
  lattice sizes c → lattice sizes c' →
  site_index sizes c = site_index sizes c' → c = c'.
Proof.
  intros H. revert c'. induction H as [|x s c ss Hx Hc IH]; intros c' H' Heq.
  - by inversion H'.
  - inversion H' as [|x' ? c'' ? Hx' Hc']; subst. simpl in Heq.
    pose proof (site_index_bound _ _ Hc). pose proof (site_index_bound _ _ Hc').
    assert (x = x') as -> by nia. f_equal. apply IH; [done|lia].
Qed.

Lemma range_block (n P : Z) :
  0 ≤ n → 0 ≤ P →
  (x ← seqZ 0 n; (λ j, x * P + j) <$> seqZ 0 P) = seqZ 0 (n * P).
Proof.
  intros Hn HP. revert n Hn. apply natlike_ind.
  - done.
  - intros n Hn IH. rewrite <- Z.add_1_r, seqZ_app by lia.
    rewrite bind_app, IH. simpl. rewrite app_nil_r.
    replace ((n + 1) * P) with (n * P + P) by lia.
    rewrite seqZ_app by nia. f_equal.
    replace (0 + n * P) with (n * P + 0) by lia.
    rewrite <- (fmap_add_seqZ (n * P) 0 P).
    apply list_fmap_ext. intros; lia.
Qed.

Lemma fmap_bind_list {A B C} (g : B → C) (f : A → list B) (l : list A) :
  g <$> (l ≫= f) = l ≫= (λ x, g <$> f x).
Proof. induction l as [|x l IH]; [done|]. csimpl. by rewrite fmap_app, IH. Qed.

(** The tuples are enumerated in the order of their flat indices. *)
Lemma site_index_product sizes :
  Forall (λ s, 0 ≤ s) sizes →
  site_index sizes <$> product (range <$> sizes) = range (prod sizes).
Proof.
  induction 1 as [|s ss Hs Hss IH]; [done|].
  change (prod (s :: ss)) with (s * prod ss).
  change (product (range <$> s :: ss))
    with (x ← range s; (x ::.) <$> product (range <$> ss)).
  rewrite fmap_bind_list. unfold range in *.
  rewrite <- (range_block s (prod ss)) by (by try apply prod_nonneg).
  apply list_bind_ext; [|done]. intros x.
  rewrite <- list_fmap_compose, <- IH, <- list_fmap_compose. done.
Qed.

Lemma product_lookup_index sizes k c :
  Forall (λ s, 0 ≤ s) sizes →
  product (range <$> sizes) !! k = Some c → site_index sizes c = Z.of_nat k.
Proof.
  intros Hs Hk.
  assert ((site_index sizes <$> product (range <$> sizes)) !! k
          = Some (site_index sizes c)) as Hk' by (by rewrite list_lookup_fmap, Hk).
  rewrite site_index_product in Hk' by done. unfold range in Hk'.
  apply lookup_seqZ in Hk'. lia.
Qed.

Lemma product_length sizes :
  Forall (λ s, 0 ≤ s) sizes →
  length (product (range <$> sizes)) = Z.to_nat (prod sizes).
Proof.
  intros Hs. rewrite <- (length_fmap (site_index sizes)), site_index_product by done.
  unfold range. by rewrite length_seqZ.
Qed.

Lemma lattice_of_site sizes i :
  Forall (λ s, 0 ≤ s) sizes → 0 ≤ i < prod sizes →
  ∃ c, lattice sizes c ∧ site_index sizes c = i.
Proof.
  intros Hs Hi.
  assert (i ∈ site_index sizes <$> product (range <$> sizes)) as Hin.
  { rewrite site_index_product by done. unfold range. apply elem_of_seqZ. lia. }
  apply list_elem_of_fmap in Hin as (c & -> & Hc). exists c.
  split; [by apply elem_of_lattice|done].
Qed.

Lemma site_index_insert sizes coords n c v :
  length coords = length sizes → coords !! n = Some c →
  site_index sizes (<[n := v]> coords)
  = site_index sizes coords + (v - c) * prod (drop (S n) sizes).
Proof.
  revert coords n. induction sizes as [|s ss IH]; intros [|x cs] n Hlen Hn; try done.
  destruct n as [|n]; simpl in *.
  - injection Hn as ->. rewrite drop_0. ring.
  - rewrite (IH cs n) by (done || lia). ring.
Qed.

Lemma lattice_insert sizes coords n sz v :
  lattice sizes coords → sizes !! n = Some sz → 0 ≤ v < sz →
  lattice sizes (<[n := v]> coords).
Proof.
  intros Hc Hn Hv. unfold lattice.
  rewrite <- (list_insert_id sizes n sz) by done.
  by apply Forall2_insert.
Qed.

Lemma lattice_lookup sizes coords n c :
  lattice sizes coords → coords !! n = Some c →
  ∃ sz, sizes !! n = Some sz ∧ 0 ≤ c < sz.
Proof.
  intros Hc Hn. destruct (Forall2_lookup_l _ _ _ _ _ Hc Hn) as (sz & ? & ?). eauto.
Qed.

Lemma nd_get_lattice {A} (sizes coords : list Z) (a : ndarray A) :
  has_shape sizes a → lattice sizes coords → is_Some (nd_get a coords).
Proof.
  intros Ha Hc. revert a Ha. induction Hc as [|c s cs ss Hc _ IH]; intros a Ha.
  - destruct a; [by eexists|done].
  - destruct a as [|l]; [done|]. destruct Ha as [Hlen Hl]. simpl.
    rewrite getitem_site by lia.
    destruct (lookup_lt_is_Some_2 l (Z.to_nat c)) as [sub Hsub]; [lia|].
    rewrite Hsub. simpl. apply IH. rewrite Forall_lookup in Hl. by eapply Hl.
Qed.

Lemma seq_split_length d pre (x : nat) post :
  seq 0 d = pre ++ x :: post → x = length pre ∧ (x < d)%nat.
Proof.
  intros Heq.
  assert (seq 0 d !! length pre = Some x) as Hx.
  { rewrite Heq. by rewrite list_lookup_middle. }
  apply lookup_seq in Hx. lia.
Qed.

Lemma seq_from_split_length b d pre (x : nat) post :
  seq b d = pre ++ x :: post → x = (b + length pre)%nat ∧ (x < b + d)%nat.
Proof.
  intros Heq.
  assert (seq b d !! length pre = Some x) as Hx.
  { rewrite Heq. by rewrite list_lookup_middle. }
  apply lookup_seq in Hx. lia.
Qed.

Lemma swept_weaken s s' l : s ≤ s' → swept s l → swept s' l.
Proof.
  intros Hs Hl i Hi. destruct (Hl i Hi) as [H1 H2]. split.
  - intros ?. apply H1. lia.
  - intros v Hv Hne. specialize (H2 v Hv Hne). lia.
Qed.

Lemma swept_insert s l a v :
  swept s l → site l a → a < s → v < s → swept s (<[Z.to_nat a := v]> l).
Proof.
  intros Hl Ha Has Hvs i Hi%site_insert_inv. destruct (Hl i Hi) as [H1 H2].
  destruct (decide (a = i)) as [->|Hne].
  - rewrite getitem_setitem_eq by done. split; [lia|]. by intros ? [= <-].
  - rewrite getitem_setitem_ne by done. done.
Qed.

Lemma swept_root_at s l k i r :
  in_range l → swept s l → site l i → i < s → root_at l k i r → r < s.
Proof.
  intros Hl Hs Hi His H. induction H as [|k x y r Hg Hne Hy IH]; [done|].
  apply IH; [by eapply in_range_get|]. destruct (Hs x Hi) as [_ H2]. by eapply H2.
Qed.

Lemma swept_root s l i r :
  in_range l → swept s l → site l i → i < s → root_of l i r → r < s.
Proof. intros ???? [k Hk]. by eapply swept_root_at. Qed.

(** The initial array *)
Lemma arange_length n : length (arange n) = Z.to_nat n.
Proof. unfold arange, range. apply length_seqZ. Qed.

Lemma arange_get n i : 0 ≤ i < n → getitem (arange n) i = Some i.
Proof.
  intros Hi. rewrite getitem_site by (rewrite arange_length; lia).
  unfold arange, range. apply lookup_seqZ. lia.
Qed.

Lemma arange_site n i : 0 ≤ i < n → site (arange n) i.
Proof. unfold site. rewrite arange_length. lia. Qed.

Lemma arange_site_inv n i : site (arange n) i → 0 ≤ i < n.
Proof. unfold site. rewrite arange_length. lia. Qed.

Lemma arange_forest n : forest (arange n).
Proof.
  split.
  - unfold in_range. apply Forall_lookup. intros k v Hk.
    unfold arange, range in Hk. apply lookup_seqZ in Hk. apply arange_site. lia.
  - intros i Hi%arange_site_inv. exists i. by apply root_of_here, arange_get.
Qed.

Lemma arange_swept n : swept 0 (arange n).
Proof.
  intros i Hi%arange_site_inv. rewrite arange_get by done. split; [done|].
  by intros v [= <-].
Qed.

Lemma arange_tracks n (R : relation Z) : (∀ x y, ¬ R x y) → tracks (arange n) R.
Proof.
  intros HR. split_and!; [apply arange_forest|by intros x y ?%HR|].
  intros i j Hi%arange_site_inv Hj%arange_site_inv. split.
  - intros (r & Hri & Hrj).
    apply root_of_self in Hri; [|by apply arange_get].
    apply root_of_self in Hrj; [|by apply arange_get]. by subst.
  - intros Hij. assert (i = j) as ->.
    { induction Hij as [|x y z [Hxy|Hxy]]; [done|by apply HR in Hxy..]. }
    exists j. split; by apply root_of_here, arange_get.
Qed.

Lemma Forall2_range ss (c : list Z) :
  Forall2 (λ x l, x ∈ l) c (range <$> ss) ↔ lattice ss c.
Proof. rewrite <- elem_of_product. apply elem_of_lattice. Qed.

Lemma elem_of_positions sizes n sz (c : list Z) :
  sizes !! n = Some sz → 1 ≤ sz →
  c ∈ product ((range <$> take n sizes) ++ [[0]] ++ (range <$> drop (S n) sizes))
  ↔ lattice sizes c ∧ c !! n = Some 0.
Proof.
  intros Hn Hsz. rewrite elem_of_product.
  pose proof (lookup_lt_Some _ _ _ Hn) as Hlt.
  assert (length (take n sizes) = n) as Htake by (rewrite length_take; lia).
  split.
  - intros (c1 & c2 & H1 & H2 & ->)%Forall2_app_inv_r.
    apply Forall2_cons_inv_r in H2 as (x & c3 & ->%list_elem_of_singleton & H3 & ->).
    apply Forall2_range in H1, H3.
    assert (length c1 = n) as Hlen by (by rewrite (lattice_length _ _ H1)).
    split.
    + unfold lattice. rewrite <- (take_drop_middle sizes n sz) by done.
      apply Forall2_app; [done|]. constructor; [lia|done].
    + rewrite <- Hlen. apply list_lookup_middle. done.
  - intros [Hc Hc0]. unfold lattice in Hc.
    rewrite <- (take_drop_middle sizes n sz) in Hc by done.
    apply Forall2_app_inv_r in Hc as (c1 & c2 & H1 & H2 & ->).
    apply Forall2_cons_inv_r in H2 as (x & c3 & Hx & H3 & ->).
    assert (length c1 = n) as Hlen by (by rewrite (lattice_length _ _ H1)).
    rewrite <- Hlen, list_lookup_middle in Hc0 by done. injection Hc0 as ->.
    apply Forall2_app; [by apply Forall2_range|].
    constructor; [by apply list_elem_of_singleton|by apply Forall2_range].
Qed.

Lemma string_get_lt n s : (n < String.length s)%nat → is_Some (String.get n s).
Proof.
  revert n. induction s as [|a s IH]; intros n Hn; simpl in *; [lia|].
  destruct n; [by eexists|]. apply IH. lia.
Qed.

#[local] Arguments wp : simpl never.

Section hk_proof.
Context {A : Type} `{Truthy A}.
Variables (bonds : list (ndarray A)) (sizes : list Z) (d : nat) (bc : string).
Hypothesis Hwf : well_formed bonds sizes d bc.
Hypothesis Hpos : inhabited sizes.

#[local] Abbreviation W := union_write.
#[local] Abbreviation idx := (site_index sizes).
#[local] Abbreviation stride n := (prod (drop (S n) sizes)).

Lemma wf_length : length sizes = d.
Proof. apply Hwf. Qed.

Lemma wf_nonneg : Forall (λ s, 0 ≤ s) sizes.
Proof.
  eapply Forall_impl; [exact Hpos|]. simpl. lia.
Qed.

Lemma stride_pos n : 1 ≤ stride n.
Proof. apply prod_pos, Forall_drop, Hpos. Qed.

Lemma lattice_site coords l :
  length l = Z.to_nat (prod sizes) → lattice sizes coords → site l (idx coords).
Proof.
  intros Hlen Hc. pose proof (site_index_bound _ _ Hc). unfold site. lia.
Qed.

Lemma coords_dot coords :
  lattice sizes coords → np_dot coords (convert_vec sizes d) = Some (idx coords).
Proof.
  intros Hc. rewrite <- wf_length. apply np_dot_site_index. by apply lattice_length.
Qed.

Lemma coords_lookup coords n :
  lattice sizes coords → (n < d)%nat → ∃ c sz,
    coords !! n = Some c ∧ sizes !! n = Some sz ∧ 0 ≤ c < sz.
Proof.
  intros Hc Hn. destruct (lookup_lt_is_Some_2 coords n) as [c Hcn].
  { rewrite (lattice_length _ _ Hc), wf_length. done. }
  destruct (lattice_lookup _ _ _ _ Hc Hcn) as (sz & ? & ?). eauto.
Qed.

(** The predecessor of a site along an axis. *)
Lemma pred_site coords n c :
  lattice sizes coords → coords !! n = Some c → c ≠ 0 →
  lattice sizes (<[n := c - 1]> coords) ∧
  idx (<[n := c - 1]> coords) = idx coords - stride n ∧
  0 ≤ idx coords - stride n < idx coords.
Proof.
  intros Hc Hn Hne. destruct (lattice_lookup _ _ _ _ Hc Hn) as (sz & Hsz & Hcsz).
  assert (lattice sizes (<[n := c - 1]> coords)) as Hc'.
  { eapply lattice_insert; [done..|lia]. }
  assert (idx (<[n := c - 1]> coords) = idx coords - stride n) as Hidx.
  { rewrite (site_index_insert _ _ _ c) by (by try apply lattice_length). lia. }
  split_and!; [done..| |].
  - rewrite <- Hidx. by apply site_index_bound.
  - pose proof (stride_pos n). lia.
Qed.

Lemma inner_edge_mono (P P' : Z → nat → Prop) x y :
  (∀ s n, P s n → P' s n) →
  inner_edge bonds sizes P x y → inner_edge bonds sizes P' x y.
Proof.
  intros HP (coords & n & c & ? & ? & ? & ? & ? & ? & ?).
  exists coords, n, c. split_and!; try done. by apply HP.
Qed.

Lemma inner_edge_skip coords n x y :
  lattice sizes coords →
  ¬ (∃ c, coords !! n = Some c ∧ c ≠ 0 ∧ active bonds n coords) →
  inner_edge bonds sizes (upto (idx coords) n) x y ↔
  inner_edge bonds sizes (upto (idx coords) (S n)) x y.
Proof.
  intros Hc Hno. split.
  - apply inner_edge_mono. unfold upto. intros s n'. lia.
  - intros (coords' & n' & c' & Hc' & Hn' & Hne & Hact & HP & -> & ->).
    exists coords', n', c'. split_and!; try done.
    destruct HP as [?|[Heq Hlt]]; [by left|].
    destruct (decide (n' = n)) as [->|?]; [|right; split; [done|lia]].
    apply site_index_inj in Heq; [|done..]. subst coords'.
    destruct Hno. by exists c'.
Qed.

Lemma inner_edge_add coords n c x y :
  lattice sizes coords → coords !! n = Some c → c ≠ 0 → active bonds n coords →
  inner_edge bonds sizes (upto (idx coords) (S n)) x y →
  inner_edge bonds sizes (upto (idx coords) n) x y ∨
  (x = idx coords ∧ y = idx coords - stride n).
Proof.
  intros Hc Hn Hne Hact (coords' & n' & c' & Hc' & Hn' & Hne' & Hact' & HP & -> & ->).
  destruct (decide (idx coords' = idx coords ∧ n' = n)) as [[Heq ->]|Hnot].
  - right. by rewrite Heq.
  - left. exists coords', n', c'. split_and!; try done.
    unfold upto in *. destruct HP as [?|[? ?]]; [by left|right]. split; [done|lia].
Qed.

Lemma inner_edge_here coords n c :
  lattice sizes coords → coords !! n = Some c → c ≠ 0 → active bonds n coords →
  inner_edge bonds sizes (upto (idx coords) (S n)) (idx coords) (idx coords - stride n).
Proof.
  intros Hc Hn Hne Hact. exists coords, n, c. split_and!; try done.
  right. split; [done|lia].
Qed.

Lemma wrap_edge_mono (P P' : nat → list Z → Prop) x y :
  (∀ n c, lattice sizes c → c !! n = Some 0 → String.get n bc = Some "p"%char →
          active bonds n c → P n c → P' n c) →
  wrap_edge bonds sizes bc P x y → wrap_edge bonds sizes bc P' x y.
Proof.
  intros HP (coords & n & sz & ? & ? & ? & ? & ? & ? & ? & ?).
  exists coords, n, sz. split_and!; try done. by apply HP.
Qed.

Lemma wrap_target coords n sz :
  lattice sizes coords → coords !! n = Some 0 → sizes !! n = Some sz →
  lattice sizes (<[n := sz - 1]> coords) ∧
  idx (<[n := sz - 1]> coords) = idx coords + stride n * (sz - 1).
Proof.
  intros Hc Hn Hsz. destruct (lattice_lookup _ _ _ _ Hc Hn) as (sz' & Hsz' & Hb).
  assert (sz' = sz) as -> by congruence. split.
  - eapply lattice_insert; [done..|lia].
  - rewrite (site_index_insert _ _ _ 0) by (by try apply lattice_length). lia.
Qed.

Lemma inner_edge_axis P x y :
  inner_edge bonds sizes P x y →
  inner_edge bonds sizes (λ s n, P s n ∧ (n < d)%nat) x y.
Proof.
  intros (coords & n & c & Hc & Hn & ? & ? & ? & ? & ?).
  exists coords, n, c. split_and!; try done.
  apply lookup_lt_Some in Hn. rewrite (lattice_length _ _ Hc), wf_length in Hn. done.
Qed.

Lemma inner_edge_next s x y :
  inner_edge bonds sizes (upto s d) x y ↔ inner_edge bonds sizes (upto (s + 1) 0) x y.
Proof.
  split.
  - apply inner_edge_mono. unfold upto. intros ??; lia.
  - intros Hxy%inner_edge_axis. revert Hxy. apply inner_edge_mono.
    unfold upto. intros ??; lia.
Qed.

Lemma bond_link_rel c c' :
  bond_link bonds sizes bc c c' → (all_bonds bonds sizes bc) (idx c) (idx c').
Proof.
  intros [n coords x Hc Hn Hne Hact|n coords sz Hc Hn Hbc Hsz Hact].
  - left. exists coords, n, x. split_and!; try done.
    by destruct (pred_site coords n x Hc Hn Hne) as (_ & -> & _).
  - right. exists coords, n, sz. split_and!; try done.
    by destruct (wrap_target coords n sz Hc Hn Hsz) as (_ & ->).
Qed.

Lemma rel_bond_link x y :
  (all_bonds bonds sizes bc) x y →
  ∃ c c', lattice sizes c ∧ lattice sizes c' ∧ idx c = x ∧ idx c' = y ∧
          bond_link bonds sizes bc c c'.
Proof.
  intros [(coords & n & c & Hc & Hn & Hne & Hact & _ & -> & ->)
         |(coords & n & sz & Hc & Hn & Hbc & Hsz & Hact & _ & -> & ->)].
  - destruct (pred_site coords n c Hc Hn Hne) as (Hc' & Hidx & _).
    exists coords, (<[n := c - 1]> coords). split_and!; [done..|]. by econstructor.
  - destruct (wrap_target coords n sz Hc Hn Hsz) as (Hc' & Hidx).
    exists coords, (<[n := sz - 1]> coords). split_and!; [done..|]. by econstructor.
Qed.

Lemma connected_rel c c' :
  lattice sizes c → lattice sizes c' →
  rtsc (all_bonds bonds sizes bc) (idx c) (idx c') ↔ connected bonds sizes bc c c'.
Proof.
  intros Hc Hc'. split.
  - intros Hrel. remember (idx c) as i eqn:Hi. remember (idx c') as j eqn:Hj.
    revert c c' Hc Hc' Hi Hj.
    induction Hrel as [i|i k j Hik _ IH]; intros c c' Hc Hc' Hi Hj.
    + assert (c = c') as -> by (apply (site_index_inj sizes); congruence). done.
    + assert (∃ ck, lattice sizes ck ∧ idx ck = k ∧ sc (bond_link bonds sizes bc) c ck)
        as (ck & Hck & Hk & Hstep).
      { destruct Hik as [Hik|Hik];
          apply rel_bond_link in Hik as (c1 & c2 & H1 & H2 & E1 & E2 & Hl).
        - assert (c1 = c) as -> by (apply (site_index_inj sizes); congruence).
          exists c2. split_and!; [done..|by left].
        - assert (c2 = c) as -> by (apply (site_index_inj sizes); congruence).
          exists c1. split_and!; [done..|by right]. }
      eapply rtc_l; [done|]. by apply IH.
  - apply rtsc_congruence. intros ??. apply bond_link_rel.
Qed.

(** *** The main sweep *)

Variable fuel : nat.
Hypothesis Hfuel : (Z.to_nat (prod sizes) < fuel)%nat.

Lemma wp_bond_at n coords (Q : bool → list Z → Prop) l :
  (n < d)%nat → lattice sizes coords →
  (∀ b, (b = true ↔ active bonds n coords) → Q b l) →
  wp W (bond_at bonds n coords) Q l.
Proof.
  intros Hn Hc HQ. destruct Hwf as (_ & Hlen & Hshape & _).
  destruct (lookup_lt_is_Some_2 bonds n) as [b Hb]; [lia|].
  assert (has_shape sizes b) as Hsh.
  { rewrite Forall_lookup in Hshape. by eapply Hshape. }
  destruct (nd_get_lattice _ _ _ Hsh Hc) as [v Hv].
  unfold bond_at. apply wp_bind. eapply wp_lift.
  { rewrite Hb. simpl. exact Hv. }
  simpl. apply HQ. split.
  - intros Ht. by exists b, v.
  - intros (b' & v' & Hb' & Hv' & Ht). congruence.
Qed.

Lemma wp_cross_terms coords n l :
  lattice sizes coords → (n < d)%nat →
  sweep_inv bonds sizes (idx coords) (S n) (idx coords + 1) l →
  wp W (cross_terms fuel bonds sizes d coords (idx coords) n)
    (λ _ l', sweep_inv bonds sizes (idx coords) d (idx coords + 1) l') l.
Proof.
  intros Hc Hnd Hinv. unfold cross_terms.
  eapply wp_mono; [|apply (wp_for_each W
    (λ pre l', sweep_inv bonds sizes (idx coords) (S n + length pre) (idx coords + 1) l'))].
  - intros [] l'. rewrite length_seq. by replace (S n + (d - S n))%nat with d by lia.
  - simpl. by rewrite Nat.add_0_r.
  - clear l Hinv. intros pre m post l Hsplit (Hlen & Htr & Hsw).
    apply seq_from_split_length in Hsplit as [-> Hmd].
    set (m := (S n + length pre)%nat) in *.
    replace (S n + length (pre ++ [m]))%nat with (S m)
      by (rewrite length_app; simpl; lia).
    destruct (coords_lookup coords m Hc) as (cm & sz & Hcm & Hsz & Hcmsz); [lia|].
    assert (forest l) as Hf by apply Htr.
    assert (site l (idx coords)) as Hs by (by apply lattice_site).
    apply wp_bind. eapply wp_item; [done|].
    destruct (Z.eqb_spec cm 0) as [Hz|Hnz]; cbn [negb].
    { split_and!; [done| |done]. eapply tracks_equiv; [done|].
      intros x y. apply inner_edge_skip; [done|]. intros (c' & ? & ? & _). congruence. }
    apply wp_bind, wp_bond_at; [lia|done|]. intros [] Hb; cbn [negb]; cycle 1.
    { split_and!; [done| |done]. eapply tracks_equiv; [done|].
      intros x y. apply inner_edge_skip; [done|]. intros (c' & ? & ? & Hact).
      apply Hb in Hact. done. }
    assert (active bonds m coords) as Hact by (by apply Hb).
    destruct (pred_site coords m cm Hc Hcm Hnz) as (Hc' & Hidx' & Hlt).
    assert (site l (idx coords - stride m)) as Hs'.
    { rewrite <- Hidx'. by apply lattice_site. }
    apply wp_bind. eapply wp_item; [apply convert_vec_lookup; lia|].
    apply wp_bind, find_forest; [done|done|lia|]. intros r Hr Hrs.
    apply wp_bind, find_forest; [done|done|lia|]. intros t Ht Hts.
    assert (in_range l) as Hl by apply Hf.
    assert (r < idx coords + 1) as Hrlt.
    { eapply swept_root; [done|done|exact Hs|lia|done]. }
    assert (t < idx coords + 1) as Htlt.
    { eapply swept_root; [done|done|exact Hs'|lia|done]. }
    assert (tracks (<[Z.to_nat t := r]> l)
              (inner_edge bonds sizes (upto (idx coords) (S m)))) as Htr'.
    { eapply (tracks_union l _ _ (idx coords - stride m) (idx coords) t r);
        [done|done|done|done|done| | |].
      - intros x y. apply inner_edge_mono. unfold upto. intros ??; lia.
      - right. by eapply inner_edge_here.
      - intros x y Hxy. destruct (inner_edge_add coords m cm x y) as [?|[-> ->]];
          [done..|by left|by right; right]. }
    apply wp_store; [done| |].
    + split_and!; [done|by apply (root_of_get l (idx coords))|
                   left; by apply (root_of_get l (idx coords - stride m))|apply Htr'].
    + split_and!; [by rewrite length_insert|done|by apply swept_insert].
Qed.

Lemma wp_visit_site coords l :
  lattice sizes coords →
  sweep_inv bonds sizes (idx coords) 0 (idx coords) l →
  wp W (visit_site fuel bonds sizes d coords)
    (λ _ l', sweep_inv bonds sizes (idx coords) d (idx coords + 1) l') l.
Proof.
  intros Hc Hinv. unfold visit_site.
  apply (wp_for_break_from W
    (λ pre l', sweep_inv bonds sizes (idx coords) (length pre) (idx coords) l')
    (λ l', sweep_inv bonds sizes (idx coords) d (idx coords + 1) l') _ [] (seq 0 d)); [done|..].
  - clear l Hinv. intros pre n post l Hsplit (Hlen & Htr & Hsw).
    apply seq_split_length in Hsplit as [-> Hnd].
    replace (length (pre ++ [length pre])) with (S (length pre))
      by (rewrite length_app; simpl; lia).
    set (n := length pre) in *.
    destruct (coords_lookup coords n Hc) as (cn & sz & Hcn & Hsz & Hcnsz); [lia|].
    assert (forest l) as Hf by apply Htr.
    assert (site l (idx coords)) as Hs by (by apply lattice_site).
    apply wp_bind. eapply wp_item; [done|].
    destruct (Z.eqb_spec cn 0) as [Hz|Hnz]; cbn [negb].
    { split_and!; [done| |done]. eapply tracks_equiv; [done|].
      intros x y. apply inner_edge_skip; [done|]. intros (c' & ? & ? & _). congruence. }
    apply wp_bind, wp_bond_at; [lia|done|]. intros [] Hb; cbn [negb]; cycle 1.
    { split_and!; [done| |done]. eapply tracks_equiv; [done|].
      intros x y. apply inner_edge_skip; [done|]. intros (c' & ? & ? & Hact).
      apply Hb in Hact. done. }
    assert (active bonds n coords) as Hact by (by apply Hb).
    destruct (pred_site coords n cn Hc Hcn Hnz) as (Hc' & Hidx' & Hlt).
    assert (site l (idx coords - stride n)) as Hs'.
    { rewrite <- Hidx'. by apply lattice_site. }
    apply wp_bind. unfold union_at.
    apply wp_bind. eapply wp_lift; [by apply coords_dot|].
    apply wp_bind. eapply wp_item; [apply convert_vec_lookup; lia|].
    apply wp_bind, find_forest; [done|done|lia|]. intros r Hr Hrs.
    assert (in_range l) as Hl by apply Hf.
    assert (getitem l (idx coords) = Some (idx coords)) as Hself.
    { destruct (Hsw _ Hs) as [Hself _]. apply Hself. lia. }
    assert (r < idx coords) as Hrlt.
    { eapply swept_root; [done|done|exact Hs'|lia|done]. }
    assert (tracks (<[Z.to_nat (idx coords) := r]> l)
              (inner_edge bonds sizes (upto (idx coords) (S n)))) as Htr'.
    { eapply (tracks_union l _ _ (idx coords) (idx coords - stride n) (idx coords) r);
        [done|done|done|by apply root_of_here|done| | |].
      - intros x y. apply inner_edge_mono. unfold upto. intros ??; lia.
      - left. by eapply inner_edge_here.
      - intros x y Hxy. destruct (inner_edge_add coords n cn x y) as [?|[-> ->]];
          [done..|by left|by right; left]. }
    apply wp_bind, wp_store; [done| |].
    { split_and!; [done|by apply (root_of_get l (idx coords - stride n))|
                   by left|apply Htr']. }
    eapply wp_mono; [|apply wp_cross_terms; [done|lia|]].
    + by intros [] l'.
    + split; [by rewrite length_insert|split; [done|]].
      apply swept_insert; [|done|lia..]. eapply swept_weaken; [|done]. lia.
  - intros l' (? & ? & Hsw). simpl in *. rewrite length_seq in *.
    split; [done|split; [done|]].
    eapply swept_weaken; [|done]. lia.
Qed.

Lemma wp_main_sweep :
  wp W (main_sweep fuel bonds sizes d)
    (λ _ l', length l' = Z.to_nat (prod sizes) ∧
             tracks l' (inner_edge bonds sizes (λ _ _, True)))
    (arange (prod sizes)).
Proof.
  unfold main_sweep.
  eapply wp_mono; [|apply (wp_for_each W
    (λ pre l', sweep_inv bonds sizes (Z.of_nat (length pre)) 0 (Z.of_nat (length pre)) l'))].
  - intros [] l' (Hlen & Htr & _). split; [done|].
    eapply tracks_equiv; [done|]. intros x y. split.
    + apply inner_edge_mono. done.
    + intros (coords & n & c & Hc & ? & ? & ? & _ & ? & ?).
      exists coords, n, c. split_and!; try done. left.
      rewrite product_length by apply wf_nonneg.
      pose proof (site_index_bound _ _ Hc). lia.
  - split_and!; [apply arange_length| |apply arange_swept].
    apply arange_tracks. intros x y (coords & n & c & Hc & _ & _ & _ & HP & _).
    pose proof (site_index_bound _ _ Hc). unfold upto in HP. simpl in HP. lia.
  - intros pre coords post l Hsplit Hinv.
    assert (product (range <$> sizes) !! length pre = Some coords) as Hlook.
    { rewrite Hsplit. by rewrite list_lookup_middle. }
    assert (lattice sizes coords) as Hc.
    { apply elem_of_lattice. by eapply list_elem_of_lookup_2. }
    apply product_lookup_index in Hlook as Hidx; [|apply wf_nonneg].
    rewrite <- Hidx in Hinv.
    eapply wp_mono; [|by apply wp_visit_site].
    intros [] l' (Hlen & Htr & Hsw). rewrite length_app. simpl.
    replace (Z.of_nat (length pre + 1)) with (idx coords + 1) by lia.
    split_and!; [done| |done]. eapply tracks_equiv; [done|].
    intros x y. apply inner_edge_next.
Qed.

(** *** The boundary pass *)

Lemma boundary_inv_equiv (P P' : nat → list Z → Prop) l :
  boundary_inv bonds sizes bc P l →
  (∀ n c, lattice sizes c → c !! n = Some 0 → String.get n bc = Some "p"%char →
          active bonds n c → P n c ↔ P' n c) →
  boundary_inv bonds sizes bc P' l.
Proof.
  intros [Hlen Htr] HP. split; [done|]. eapply tracks_equiv; [done|].
  intros x y. unfold bond_rel.
  split; (intros [?|Hw]; [by left|right]); revert Hw; apply wrap_edge_mono;
    intros n c ? ? ? ?; by apply HP.
Qed.

Lemma wp_wrap_site (P P' : nat → list Z → Prop) n coords l :
  lattice sizes coords → coords !! n = Some 0 →
  String.get n bc = Some "p"%char →
  (∀ n' c', P n' c' → P' n' c') → P' n coords →
  (∀ n' c', P' n' c' → P n' c' ∨ (n' = n ∧ c' = coords)) →
  boundary_inv bonds sizes bc P l →
  wp W (wrap_site fuel bonds sizes d n coords) (λ _ l', boundary_inv bonds sizes bc P' l') l.
Proof.
  intros Hc Hn Hbc Hinc Hhere Hcases [Hlen Htr]. unfold wrap_site.
  assert (n < d)%nat as Hnd.
  { apply lookup_lt_Some in Hn. by rewrite (lattice_length _ _ Hc), wf_length in Hn. }
  destruct (coords_lookup coords n Hc Hnd) as (c0 & sz & Hn' & Hsz & _).
  apply wp_bind, wp_bond_at; [done..|]. intros [] Hb; cbn [negb]; cycle 1.
  { apply (boundary_inv_equiv P); [done|]. intros n' c' ? ? ? Hact. split; [apply Hinc|].
    intros [?|[-> ->]]%Hcases; [done|]. apply Hb in Hact. done. }
  assert (active bonds n coords) as Hact by (by apply Hb).
  destruct (wrap_target coords n sz Hc Hn Hsz) as [Hc' Hidx'].
  assert (forest l) as Hf by apply Htr.
  assert (site l (idx coords)) as Hs by (by apply lattice_site).
  assert (site l (idx coords + stride n * (sz - 1))) as Hs'.
  { rewrite <- Hidx'. by apply lattice_site. }
  apply wp_bind. eapply wp_lift; [by apply coords_dot|].
  apply wp_bind. eapply wp_item; [by apply convert_vec_lookup|].
  apply wp_bind. eapply wp_item; [done|].
  apply wp_bind, find_forest; [done|done|lia|]. intros rs Hrs Hrss.
  apply wp_bind. eapply wp_load; [by apply (root_of_get l (idx coords))|].
  apply wp_bind, find_forest; [done|done|lia|]. intros rn Hrn Hrns.
  assert (tracks (<[Z.to_nat rn := rs]> l) (bond_rel bonds sizes bc P')) as Htr'.
  { eapply (tracks_union l _ _ (idx coords + stride n * (sz - 1)) (idx coords) rn rs);
      [done|done|done|done|done| | |].
    - intros x y [?|Hw]; [by left|right]. revert Hw. apply wrap_edge_mono.
      intros ??????. by apply Hinc.
    - right. right. exists coords, n, sz. split_and!; done.
    - intros x y [?|(c' & n' & sz' & ? & ? & ? & ? & ? & HP' & -> & ->)]; [by left; left|].
      destruct (Hcases _ _ HP') as [?|[-> ->]].
      + left. right. exists c', n', sz'. split_and!; done.
      + right. right. assert (sz' = sz) as -> by congruence. done. }
  apply wp_store; [done| |].
  - split_and!; [done|by apply (root_of_get l (idx coords))|
                 left; by apply (root_of_get l (idx coords + stride n * (sz - 1)))|
                 apply Htr'].
  - split; [by rewrite length_insert|done].
Qed.

Lemma wp_boundary_pass l :
  boundary_inv bonds sizes bc (λ _ _, False) l →
  wp W (boundary_pass fuel bonds sizes d bc)
    (λ _ l', boundary_inv bonds sizes bc (λ _ _, True) l') l.
Proof.
  intros Hinv. unfold boundary_pass.
  eapply wp_mono; [|apply (wp_for_each W
    (λ pre l', boundary_inv bonds sizes bc (λ n _, (n < length pre)%nat) l'))].
  - intros [] l' Hinv'. apply (boundary_inv_equiv _ _ _ Hinv').
    intros n c Hc Hn _ _. rewrite length_seq. split; [done|]. intros _.
    apply lookup_lt_Some in Hn. by rewrite (lattice_length _ _ Hc), wf_length in Hn.
  - apply (boundary_inv_equiv _ _ _ Hinv). intros n c _ _ _ _. simpl. lia.
  - clear l Hinv. intros pre n post l Hsplit Hinv.
    apply seq_split_length in Hsplit as [-> Hnd].
    replace (length (pre ++ [length pre])) with (S (length pre))
      by (rewrite length_app; simpl; lia).
    set (n := length pre) in *.
    destruct (string_get_lt n bc) as [ch Hch].
    { destruct Hwf as (_ & _ & _ & ->). done. }
    apply wp_bind. eapply wp_lift; [done|].
    destruct (Ascii.eqb_spec ch "p"%char) as [->|Hnp]; cycle 1.
    { apply (boundary_inv_equiv _ _ _ Hinv). intros n' c' _ _ Hbc _.
      split; [lia|]. intros Hlt. destruct (decide (n' = n)) as [->|?]; [congruence|lia]. }
    destruct (lookup_lt_is_Some_2 sizes n) as [sz Hsz]; [by rewrite wf_length|].
    assert (1 ≤ sz) as Hsz1.
    { pose proof Hpos as Hpos'. unfold inhabited in Hpos'.
      rewrite Forall_lookup in Hpos'. by eapply Hpos'. }
    eapply wp_mono; [|apply (wp_for_each W
      (λ done l', boundary_inv bonds sizes bc (λ n' c', (n' < n)%nat ∨ (n' = n ∧ c' ∈ done)) l'))].
    + intros [] l' Hinv'. apply (boundary_inv_equiv _ _ _ Hinv').
      intros n' c' Hc' H0 _ _. split; [lia|]. intros Hlt.
      destruct (decide (n' = n)) as [->|?]; [right|left; lia].
      split; [done|]. by eapply elem_of_positions.
    + apply (boundary_inv_equiv _ _ _ Hinv). intros n' c' _ _ _ _.
      split; [by left|]. intros [?|[_ Hin]]; [done|]. by apply elem_of_nil in Hin.
    + clear l Hinv. intros done coords todo l Hsplit Hinv.
      assert (lattice sizes coords ∧ coords !! n = Some 0) as [Hc Hc0].
      { eapply elem_of_positions; [done..|]. rewrite Hsplit.
        apply elem_of_app. right. by left. }
      eapply wp_wrap_site; [done..| | | |done].
      * intros n' c' [?|[-> Hin]]; [by left|right]. split; [done|].
        apply elem_of_app. by left.
      * right. split; [done|]. apply elem_of_app. right. by apply list_elem_of_singleton.
      * intros n' c' [?|[-> Hin]]; [by left; left|].
        apply elem_of_app in Hin as [?|Hin]; [by left; right|right].
        by apply list_elem_of_singleton in Hin.
Qed.

(** *** The final pass *)

Lemma wp_canonicalize l0 :
  forest l0 → (length l0 < fuel)%nat →
  wp W (canonicalize fuel (length l0))
    (λ _ l', length l' = length l0 ∧
             ∀ i r, site l0 i → root_of l0 i r → getitem l' i = Some r) l0.
Proof.
  intros Hf0 Hfuel0. unfold canonicalize.
  eapply wp_mono; [|apply (wp_for_each W (λ pre l',
    length l' = length l0 ∧ forest l' ∧
    (∀ x r, site l0 x → root_of l0 x r → root_of l' x r) ∧
    (∀ i r, 0 ≤ i < Z.of_nat (length pre) → root_of l0 i r →
            getitem l' i = Some r)))].
  - intros [] l' (Hlen & _ & _ & Hget). split; [done|]. intros i r Hi. apply Hget.
    unfold range. rewrite length_seqZ. unfold site in Hi. lia.
  - split_and!; [done..|]. simpl. lia.
  - intros pre i post l Hsplit (Hlen & Hf & Hroots & Hget).
    assert (range (Z.of_nat (length l0)) !! length pre = Some i) as Hi.
    { rewrite Hsplit. by apply list_lookup_middle. }
    unfold range in Hi. apply lookup_seqZ in Hi as [-> Hi].
    assert (site l (0 + Z.of_nat (length pre))) as Hs by (unfold site; lia).
    assert (site l0 (0 + Z.of_nat (length pre))) as Hs0 by (unfold site; lia).
    rewrite Z.add_0_l in *.
    apply wp_bind, find_forest; [done|done|lia|]. intros r Hr Hrs.
    assert (in_range l) as Hl by apply Hf.
    apply wp_store; [done| |].
    + split_and!; [done|by apply (root_of_get l (Z.of_nat (length pre)))|by right|].
      by apply compress_forest.
    + split_and!.
      * by rewrite length_insert.
      * by apply compress_forest.
      * intros x r' Hx Hxr. apply compress_root; [done..| |by apply Hroots].
        unfold site in *. lia.
      * intros j r'. rewrite length_app. simpl. intros Hj Hjr.
        destruct (decide (j = Z.of_nat (length pre))) as [->|Hne].
        -- rewrite getitem_setitem_eq by done. f_equal.
           apply (root_of_det l (Z.of_nat (length pre))); [done|by apply Hroots].
        -- rewrite getitem_setitem_ne; [|done|unfold site in *; lia|done].
           apply Hget; [lia|done].
Qed.

(** *** The whole labelling *)

Lemma wp_hk_body :
  wp W (hk_body fuel bonds sizes d bc (length (arange (prod sizes))))
    (λ _ l', length l' = Z.to_nat (prod sizes) ∧
             (∀ i, 0 ≤ i < prod sizes →
                ∃ r, 0 ≤ r < prod sizes ∧ getitem l' i = Some r ∧
                     getitem l' r = Some r) ∧
             ∀ i j, 0 ≤ i < prod sizes → 0 ≤ j < prod sizes →
               getitem l' i = getitem l' j ↔ rtsc (all_bonds bonds sizes bc) i j)
    (arange (prod sizes)).
Proof.
  unfold hk_body. apply wp_bind. eapply wp_mono; [|apply wp_main_sweep].
  intros [] l1 [Hlen1 Htr1]. apply wp_bind.
  eapply wp_mono; [|apply wp_boundary_pass]; cycle 1.
  { split; [done|]. eapply tracks_equiv; [done|]. intros x y. unfold bond_rel.
    split; [by left|]. intros [?|(? & ? & ? & ? & ? & ? & ? & ? & [] & _)]. done. }
  intros [] l2 [Hlen2 Htr2]. rewrite arange_length, <- Hlen2.
  eapply wp_mono; [|apply wp_canonicalize; [apply Htr2|lia]].
  intros [] l3 [Hlen3 Hget]. split; [lia|]. split.
  { intros i Hi. destruct Htr2 as ([Hl2 Hroots] & _).
    assert (site l2 i) as Hsi by (unfold site; lia).
    destruct (Hroots i Hsi) as [r Hr].
    assert (site l2 r) as Hsr by (by apply (root_of_site l2 i)).
    exists r. split; [unfold site in Hsr; lia|]. split; [by apply Hget|].
    apply Hget; [done|]. by apply (root_of_root l2 i). }
  intros i j Hi Hj. destruct Htr2 as ([_ Hroots] & _ & Heq).
  assert (site l2 i) as Hsi by (unfold site; lia).
  assert (site l2 j) as Hsj by (unfold site; lia).
  destruct (Hroots i Hsi) as [ri Hri], (Hroots j Hsj) as [rj Hrj].
  rewrite (Hget i ri), (Hget j rj) by done. rewrite <- Heq by done. split.
  - intros [= ->]. by exists rj.
  - intros (r & Hri' & Hrj'). f_equal.
    rewrite (root_of_det _ _ _ _ Hri Hri'). apply (root_of_det _ _ _ _ Hrj' Hrj).
Qed.

End hk_proof.

(** ** [np.unique] with [return_inverse] *)

Lemma elem_of_insert_sorted x y l : y ∈ insert_sorted x l ↔ y = x ∨ y ∈ l.
Proof.
  induction l as [|z l IH]; simpl.
  - rewrite list_elem_of_singleton, elem_of_nil. tauto.
  - destruct (Z.ltb_spec x z); [by rewrite elem_of_cons|].
    destruct (Z.eqb_spec x z) as [->|?].
    + rewrite elem_of_cons. tauto.
    + rewrite !elem_of_cons, IH. tauto.
Qed.

Lemma elem_of_np_unique x l : x ∈ np_unique l ↔ x ∈ l.
Proof.
  unfold np_unique. induction l as [|y l IH]; simpl; [done|].
  rewrite elem_of_insert_sorted, elem_of_cons, IH. done.
Qed.

Lemma index_of_nonneg x l : 0 ≤ index_of x l.
Proof. induction l as [|y l IH]; simpl; [done|]. destruct (x =? y); lia. Qed.

Lemma index_of_inj x y l :
  x ∈ l → index_of x l = index_of y l → x = y.
Proof.
  induction l as [|z l IH]; simpl; [by intros ?%elem_of_nil|].
  intros Hx. pose proof (index_of_nonneg x l). pose proof (index_of_nonneg y l).
  destruct (Z.eqb_spec x z) as [->|Hxz], (Z.eqb_spec y z) as [->|Hyz]; try (done || lia).
  intros Heq. apply IH; [|lia]. apply elem_of_cons in Hx as [?|?]; done.
Qed.

Lemma getitem_fmap {A B} (f : A → B) (l : list A) i :
  getitem (f <$> l) i = f <$> getitem l i.
Proof.
  unfold getitem. rewrite length_fmap. destruct (py_index _ _); simpl; [|done].
  apply list_lookup_fmap.
Qed.

Lemma getitem_elem_of {A} (l : list A) i x : getitem l i = Some x → x ∈ l.
Proof.
  unfold getitem. destruct (py_index _ _); simpl; [|done].
  apply list_elem_of_lookup_2.
Qed.

Lemma unique_inverse_eq l i j :
  is_Some (getitem l i) → is_Some (getitem l j) →
  getitem (unique_inverse l) i = getitem (unique_inverse l) j ↔
  getitem l i = getitem l j.
Proof.
  intros [x Hx] [y Hy]. unfold unique_inverse. rewrite !getitem_fmap, Hx, Hy. simpl.
  split; [|by intros [= ->]]. intros [= Heq]. f_equal.
  eapply index_of_inj; [|done]. apply elem_of_np_unique. by eapply getitem_elem_of.
Qed.

Lemma lattice_inhabited sizes c : lattice sizes c → inhabited sizes.
Proof. unfold inhabited. induction 1; constructor; [lia|done]. Qed.

(** ** The labelling is the connectivity of the bonds *)

Lemma hk_run {A} `{Truthy A} fuel (bonds : list (ndarray A)) sizes d bc :
  well_formed bonds sizes d bc → inhabited sizes →
  (Z.to_nat (prod sizes) < fuel)%nat →
  ∃ labels,
    run (hk_body fuel bonds sizes d bc (length (arange (prod sizes))))
        (arange (prod sizes)) = Ok ((), labels) ∧
    length labels = Z.to_nat (prod sizes) ∧
    (∀ i, 0 ≤ i < prod sizes →
       ∃ r, 0 ≤ r < prod sizes ∧ getitem labels i = Some r ∧
            getitem labels r = Some r) ∧
    ∀ c c', lattice sizes c → lattice sizes c' →
      getitem labels (site_index sizes c) = getitem labels (site_index sizes c') ↔
      connected bonds sizes bc c c'.
Proof.
  intros Hwf Hpos Hfuel.
  destruct (wp_run _ _ _ _ (wp_hk_body bonds sizes d bc Hwf Hpos fuel Hfuel))
    as ([] & labels & Hrun & Hlen & Hroots & Heq).
  exists labels. split_and!; [done..|].
  intros c c' Hc Hc'. rewrite Heq by (by apply site_index_bound).
  by apply connected_rel.
Qed.

Lemma hk_correct {A} `{Truthy A} fuel (bonds : list (ndarray A)) sizes d bc reduce :
  well_formed bonds sizes d bc → inhabited sizes →
  (Z.to_nat (prod sizes) < fuel)%nat →
  ∃ labels,
    hoshen_kopelman_nd fuel bonds sizes d bc reduce = Ok labels ∧
    length labels = Z.to_nat (prod sizes) ∧
    ∀ c c', lattice sizes c → lattice sizes c' →
      getitem labels (site_index sizes c) = getitem labels (site_index sizes c') ↔
      connected bonds sizes bc c c'.
Proof.
  intros Hwf Hpos Hfuel.
  destruct (hk_run fuel bonds sizes d bc Hwf Hpos Hfuel)
    as (labels & Hrun & Hlen & Hroots & Heq).
  unfold hoshen_kopelman_nd. cbv zeta. rewrite Hrun.
  eexists. split; [done|]. destruct reduce; [|done]. split.
  - unfold unique_inverse. by rewrite length_fmap.
  - intros c c' Hc Hc'. rewrite <- Heq by done.
    apply unique_inverse_eq.
    + destruct (Hroots (site_index sizes c)) as (r & _ & -> & _); [|done].
      by apply site_index_bound.
    + destruct (Hroots (site_index sizes c')) as (r & _ & -> & _); [|done].
      by apply site_index_bound.
Qed.

(** C1. For every well-formed input, whenever every axis has a site the
    call returns, and the label array it returns gives two sites of the
    lattice the same label if and only if a path of active bonds connects
    them (the entry at coordinate 0 of an axis counting only when that axis
    is periodic). *)
Theorem hoshen_kopelman_labels_connected {A} `{Truthy A} (fuel : nat)
    (bonds : list (ndarray A)) (sizes : list Z) (d : nat) (bc : string)
    (reduce : bool) :
  well_formed bonds sizes d bc →
  (Z.to_nat (prod sizes) < fuel)%nat →
  (inhabited sizes →
   ∃ labels, hoshen_kopelman_nd fuel bonds sizes d bc reduce = Ok labels ∧
             length labels = Z.to_nat (prod sizes)) ∧
  ∀ labels c c',
    hoshen_kopelman_nd fuel bonds sizes d bc reduce = Ok labels →
    lattice sizes c → lattice sizes c' →
    getitem labels (site_index sizes c) = getitem labels (site_index sizes c') ↔
    connected bonds sizes bc c c'.
Proof.
  intros Hwf Hfuel. split.
  - intros Hpos.
    destruct (hk_correct fuel bonds sizes d bc reduce Hwf Hpos Hfuel)
      as (labels & ? & ? & _). by exists labels.
  - intros labels c c' Hrun Hc Hc'.
    destruct (hk_correct fuel bonds sizes d bc reduce Hwf
                (lattice_inhabited _ _ Hc) Hfuel) as (labels' & Hrun' & _ & Heq).
    assert (labels' = labels) as -> by congruence. by apply Heq.
Qed.

Lemma run_bind {A B} (p : prog A) (f : A → prog B) l :
  run (p ≫= f) l = match run p l with
                   | Ok (a, l') => run (f a) l'
                   | Err e => Err e
                   end.
Proof.
  revert l. induction p as [a|e|i k IH|i v k IH]; intros l; simpl; try done.
  - destruct (getitem l i); [apply IH|done].
  - destruct (setitem l i v); [apply IH|done].
Qed.

Lemma hoshen_kopelman_labels_connected_witness :
  (inhabited [2; 2] →
   ∃ labels, hoshen_kopelman_nd 5 bonds_2x2_last_only [2; 2] 2 "po" false = Ok labels ∧
             length labels = Z.to_nat (prod [2; 2])) ∧
  ∀ labels c c',
    hoshen_kopelman_nd 5 bonds_2x2_last_only [2; 2] 2 "po" false = Ok labels →
    lattice [2; 2] c → lattice [2; 2] c' →
    getitem labels (site_index [2; 2] c) = getitem labels (site_index [2; 2] c') ↔
    connected bonds_2x2_last_only [2; 2] "po" c c'.
Proof.
  apply (hoshen_kopelman_labels_connected 5 bonds_2x2_last_only [2; 2] 2 "po" false).
  - split; [reflexivity|]. split; [reflexivity|]. split; [|reflexivity].
    repeat (constructor; simpl; try done).
  - simpl. lia.
Defined.

(** C10 (as amended). While [hoshen_kopelman_nd] runs on a well-formed input
    in which every axis has a site, the label array is a forest from the
    start and after every assignment: every entry is the index of a site and
    every parent chain ends in a root. Every assignment writes the index of
    a root into the entry of a root (the site just visited, or the root of a
    neighbour; it may be the root that is written) or of an index of that
    root's tree. No step raises: every [find] ends within the fuel and no
    index is out of range. *)
Theorem hoshen_kopelman_keeps_forest {A} `{Truthy A} (fuel : nat)
    (bonds : list (ndarray A)) (sizes : list Z) (d : nat) (bc : string) :
  well_formed bonds sizes d bc → inhabited sizes →
  (Z.to_nat (prod sizes) < fuel)%nat →
  forest (arange (prod sizes)) ∧
  always union_write
    (hk_body fuel bonds sizes d bc (length (arange (prod sizes))))
    (arange (prod sizes)).
Proof.
  intros Hwf Hpos Hfuel. split; [apply arange_forest|].
  eapply wp_always. by apply wp_hk_body.
Qed.

Lemma hoshen_kopelman_keeps_forest_witness :
  forest (arange (prod [2; 2])) ∧
  always union_write
    (hk_body 5 [Arr [Arr [Scalar 1; Scalar 1]; Arr [Scalar 1; Scalar 1]];
                Arr [Arr [Scalar 1; Scalar 1]; Arr [Scalar 1; Scalar 1]]]
       [2; 2] 2 "pp" (length (arange (prod [2; 2]))))
    (arange (prod [2; 2])).
Proof.
  apply hoshen_kopelman_keeps_forest.
  - split_and!; [done..| |done]. repeat constructor.
  - repeat constructor; lia.
  - vm_compute. lia.
Defined.

Lemma wp_writes {A} W (p : prog A) Q labels :
  wp W p Q labels →
  Forall (λ iv, ∃ labels0 labels1, W labels0 iv.1 iv.2 labels1) (writes p labels).
Proof.
  revert labels. induction p as [a|e|i k IH|i v k IH]; intros labels.
  - intros _. constructor.
  - done.
  - change (wp W (Load i k) Q labels)
      with (match getitem labels i with
            | Some v => wp W (k v) Q labels
            | None => False
            end).
    cbn [writes]. destruct (getitem labels i) as [v|]; [|done].
    intros Hk. apply (IH v). exact Hk.
  - change (wp W (Store i v k) Q labels)
      with (match setitem labels i v with
            | Some labels' => W labels i v labels' ∧ wp W k Q labels'
            | None => False
            end).
    cbn [writes]. destruct (setitem labels i v) as [labels'|]; [|done].
    intros [HW Hk]. constructor; [by exists labels, labels'|]. apply IH. exact Hk.
Qed.

(** C10 as stated fails: on the 2 by 2 lattice with every bond active the
    fourth assignment of the main sweep, the union of the cross term at site
    (1, 1), is [labels[0] = 0]. The two neighbours of the site are joined
    already, and the root 0 is written into its own entry, not a different
    root. *)
Lemma union_writes_root_into_own_entry :
  writes (main_sweep 5 all_active_2x2 [2; 2] 2) (arange 4)
  = [(1, 0); (2, 0); (3, 0); (0, 0)] ∧
  ¬ always union_write_other (main_sweep 5 all_active_2x2 [2; 2] 2) (arange 4).
Proof.
  assert (writes (main_sweep 5 all_active_2x2 [2; 2] 2) (arange 4)
          = [(1, 0); (2, 0); (3, 0); (0, 0)]) as Hw by (vm_compute; reflexivity).
  split; [done|]. intros Hall%wp_writes. rewrite Hw in Hall.
  apply Forall_lookup_1 with (i := 3%nat) (x := (0, 0)) in Hall; [|done].
  destruct Hall as (? & ? & _ & Hne). by apply Hne.
Qed.

(** C3. When following [x -> labels[x]] from [x] reaches after [k] steps a
    first index [root] with [labels[root] = root], [find] with more fuel than
    [k] returns [root]; the array it ends with is the array it started from,
    and it makes no assignment at all. *)
Theorem find_returns_first_root (labels : list Z) (x root : Z) (k fuel : nat) :
  root_at labels k x root → (k < fuel)%nat →
  run (find fuel x) labels = Ok (root, labels) ∧
  always (λ _ _ _ _, False) (find fuel x) labels.
Proof.
  intros Hroot Hk.
  assert (wp (λ _ _ _ _, False) (find fuel x) (λ r l', r = root ∧ l' = labels) labels)
    as Hwp by (by eapply find_wp).
  split; [|by eapply wp_always].
  apply wp_run in Hwp as (r & l' & -> & -> & ->). done.
Qed.

Lemma find_returns_first_root_witness :
  run (find 4 4) [0; 0; 1; 3; 2] = Ok (0, [0; 0; 1; 3; 2]) ∧
  always (λ _ _ _ _, False) (find 4 4) [0; 0; 1; 3; 2].
Proof.
  apply (find_returns_first_root [0; 0; 1; 3; 2] 4 0 3 4); [|lia].
  eapply root_at_step; [reflexivity|lia|].
  eapply root_at_step; [reflexivity|lia|].
  eapply root_at_step; [reflexivity|lia|].
  apply root_at_here. reflexivity.
Defined.

(** ** One-dimensional lattices *)

Lemma nd_get_1d {A} (bs : list A) (c : Z) :
  0 ≤ c < Z.of_nat (length bs) →
  nd_get (Arr (Scalar <$> bs)) [c] = bs !! Z.to_nat c.
Proof.
  intros Hc. simpl. rewrite getitem_site by (by rewrite length_fmap).
  rewrite list_lookup_fmap. by destruct (bs !! Z.to_nat c).
Qed.

Lemma all_labels_equal (labels : list Z) :
  (∀ i, site labels i → getitem labels i = getitem labels 0) →
  ∃ v, labels = replicate (length labels) v.
Proof.
  intros Heq. destruct labels as [|v labels']; [by exists 0|].
  exists v. apply (list_eq_same_length _ _ (length (v :: labels')));
    [by rewrite length_replicate|done|].
  intros k x y Hk Hx Hy. apply lookup_replicate in Hy as [-> _].
  specialize (Heq (Z.of_nat k)). rewrite !getitem_site in Heq by (unfold site in *; simpl in *; lia).
  rewrite Nat2Z.id in Heq. simpl in Heq. rewrite Hx in Heq.
  injection Heq as ->; [done|]. unfold site. lia.
Qed.

Lemma chain_connected {A} `{Truthy A} (bs : list A) (N : Z) (bc : string) (c : Z) :
  Z.of_nat (length bs) = N → Forall (λ b, truthy b = true) bs →
  0 ≤ c < N →
  connected [Arr (Scalar <$> bs)] [N] bc [c] [0].
Proof.
  intros Hlen Hact [Hc0 HcN]. revert HcN. pattern c. apply natlike_ind; [done| |done].
  clear c Hc0. intros c Hc IH HcN.
  eapply rtc_l; [|apply IH; lia]. left.
  replace [c] with (<[0%nat := Z.succ c - 1]> [Z.succ c]) by (simpl; f_equal; lia).
  apply link_inner.
  - repeat constructor; lia.
  - done.
  - lia.
  - destruct (lookup_lt_is_Some_2 bs (Z.to_nat (Z.succ c))) as [b Hb]; [lia|].
    exists (Arr (Scalar <$> bs)), b. split_and!; [done| |].
    + rewrite nd_get_1d by lia. done.
    + rewrite Forall_lookup in Hact. by eapply Hact.
Qed.

(** C5. On a periodic one-dimensional lattice of [N >= 1] sites whose [N] bond
    entries are all active, [hoshen_kopelman_nd] returns [N] equal labels. *)
Theorem periodic_chain_one_cluster {A} `{Truthy A} (fuel : nat) (N : Z)
    (bs : list A) (reduce : bool) :
  1 ≤ N → Z.of_nat (length bs) = N → Forall (λ b, truthy b = true) bs →
  (Z.to_nat N < fuel)%nat →
  ∃ v, hoshen_kopelman_nd fuel [Arr (Scalar <$> bs)] [N] 1 "p" reduce
       = Ok (replicate (Z.to_nat N) v).
Proof.
  intros HN Hlen Hact Hfuel.
  assert (prod [N] = N) as Hprod by (simpl; lia).
  destruct (hk_correct fuel [Arr (Scalar <$> bs)] [N] 1 "p" reduce)
    as (labels & Hrun & Hlabels & Heq).
  { split; [done|]. split; [done|]. split; [|done].
    constructor; [|done]. split; [by rewrite length_fmap|].
    apply Forall_fmap, Forall_true. done. }
  { repeat constructor. done. }
  { by rewrite Hprod. }
  rewrite Hprod in Hlabels.
  destruct (all_labels_equal labels) as [v Hv].
  - intros i Hi. unfold site in Hi.
    assert (lattice [N] [i]) as Hci by (repeat constructor; lia).
    assert (lattice [N] [0]) as Hc0 by (repeat constructor; lia).
    pose proof (proj2 (Heq [i] [0] Hci Hc0)) as Hij. simpl in Hij.
    replace (i * 1 + 0) with i in Hij by lia. apply Hij.
    apply chain_connected; [done..|lia].
  - exists v. rewrite Hrun, Hv. by rewrite Hlabels.
Qed.

Lemma periodic_chain_one_cluster_witness :
  ∃ v, hoshen_kopelman_nd 4 [Arr (Scalar <$> [1; 1; 1])] [3] 1 "p" false
       = Ok (replicate (Z.to_nat 3) v).
Proof.
  apply (periodic_chain_one_cluster 4 3 [1; 1; 1] false).
  - lia.
  - reflexivity.
  - repeat constructor.
  - simpl. lia.
Defined.

(** ** The scan of the axes at one site *)

Lemma run_unit (p : prog unit) l :
  match run p l with Ok (_, l') => Ok ((), l') | Err e => Err e end = run p l.
Proof. by destruct (run p l) as [[[] ?]|]. Qed.

Lemma run_visit_axes {A} `{Truthy A} fuel (bonds : list (ndarray A)) sizes d
    coords (axes : list nat) l :
  (∀ n, n ∈ axes → is_Some (coords !! n) ∧
                   is_Some (bonds !! n ≫= λ b, nd_get b coords)) →
  run (for_break axes (λ n,
         cn ← item coords n;
         if negb (cn =? 0) then
           b ← bond_at bonds n coords;
           if b : bool then union_at fuel bonds sizes d coords n;; Ret true
           else Ret false
         else Ret false)) l
  = match first_open bonds coords axes with
    | Some n => run (union_at fuel bonds sizes d coords n) l
    | None => Ok ((), l)
    end.
Proof.
  induction axes as [|n axes IH]; intros Hlook; [done|].
  destruct (Hlook n) as [[cn Hcn] [v Hv]]; [by left|].
  cbn [for_break first_open]. unfold bond_open, item, bond_at. rewrite Hcn, Hv.
  rewrite run_bind. cbn [mbind prog_mbind prog_bind run lift].
  destruct (negb (cn =? 0)); cbn [andb].
  - cbn [mbind prog_mbind prog_bind]. destruct (truthy v).
    + rewrite run_bind. destruct (run (union_at _ _ _ _ _ _) l) as [[[] l']|]; done.
    + cbn [run]. apply IH. intros m Hm. apply Hlook. by right.
  - cbn [run]. apply IH. intros m Hm. apply Hlook. by right.
Qed.

(** C2 (as amended). The scan of the axes at a site stops after the first
    axis whose coordinate is not 0 and whose bond entry is active: the visit
    does what [union_at] does for that axis (one primary union, then the
    cross-term loop over the later axes), and nothing when there is no such
    axis. *)
Theorem visit_site_stops_at_first_open_bond {A} `{Truthy A} (fuel : nat)
    (bonds : list (ndarray A)) (sizes : list Z) (d : nat) (bc : string)
    (coords labels : list Z) :
  well_formed bonds sizes d bc → lattice sizes coords →
  run (visit_site fuel bonds sizes d coords) labels
  = match first_open bonds coords (seq 0 d) with
    | Some n => run (union_at fuel bonds sizes d coords n) labels
    | None => Ok ((), labels)
    end.
Proof.
  intros (Hd & Hb & Hshape & _) Hc. apply run_visit_axes.
  intros n Hn%elem_of_seq. split.
  - apply lookup_lt_is_Some_2. rewrite (lattice_length _ _ Hc), Hd. lia.
  - destruct (lookup_lt_is_Some_2 bonds n) as [b Hbn]; [lia|]. rewrite Hbn. simpl.
    apply (nd_get_lattice sizes); [|done].
    rewrite Forall_lookup in Hshape. by eapply Hshape.
Qed.

Lemma visit_site_stops_at_first_open_bond_witness :
  run (visit_site 5 bonds_2x2_last_only [2; 2] 2 [1; 1]) [0; 1; 2; 3]
  = match first_open bonds_2x2_last_only [1; 1] (seq 0 2) with
    | Some n => run (union_at 5 bonds_2x2_last_only [2; 2] 2 [1; 1] n) [0; 1; 2; 3]
    | None => Ok ((), [0; 1; 2; 3])
    end.
Proof.
  apply (visit_site_stops_at_first_open_bond 5 bonds_2x2_last_only [2; 2] 2 "oo").
  - split_and!; [reflexivity..| |reflexivity].
    repeat (constructor; simpl; try done).
  - repeat constructor; lia.
Defined.

(** C2 as stated fails: at site (1, 1) the first axis with a coordinate other
    than 0 is axis 0; its bond is inactive, and the scan goes on to axis 1
    and makes the primary union there. *)
Lemma scan_goes_past_inactive_axis :
  run (visit_site 5 bonds_2x2_last_only [2; 2] 2 [1; 1]) [0; 1; 2; 3]
    = Ok ((), [0; 1; 2; 2]) ∧
  run (visit_site_first_nonzero 5 bonds_2x2_last_only [2; 2] 2 [1; 1]) [0; 1; 2; 3]
    = Ok ((), [0; 1; 2; 3]) ∧
  run (visit_site 5 bonds_2x2_last_only [2; 2] 2 [1; 1]) [0; 1; 2; 3]
    ≠ run (visit_site_first_nonzero 5 bonds_2x2_last_only [2; 2] 2 [1; 1]) [0; 1; 2; 3].
Proof. split_and!; [reflexivity..|]. vm_compute. discriminate. Qed.

(** ** The four-site periodic chain *)

(** C7 (as amended). Four sites with interior entries 1, 0, 1 and wrap entry
    [w], [bc = 'p']: when [w] is active the call returns the single cluster
    [0; 0; 0; 0]; when [w] is inactive it returns [0; 0; 2; 2], the two
    clusters {0,1} and {2,3}, which is what the open boundary returns. *)
Theorem chain4_labels (fuel : nat) (w : Z) :
  (4 < fuel)%nat →
  hoshen_kopelman_nd fuel (chain4 w) [4] 1 "p" false
    = Ok (if w =? 0 then [0; 0; 2; 2] else [0; 0; 0; 0]) ∧
  hoshen_kopelman_nd fuel (chain4 w) [4] 1 "o" false = Ok [0; 0; 2; 2].
Proof.
  intros Hfuel. do 5 (destruct fuel as [|fuel]; [lia|]).
  destruct w; split; reflexivity.
Qed.

Lemma chain4_labels_witness :
  hoshen_kopelman_nd 5 (chain4 1) [4] 1 "p" false
    = Ok (if 1 =? 0 then [0; 0; 2; 2] else [0; 0; 0; 0]) ∧
  hoshen_kopelman_nd 5 (chain4 1) [4] 1 "o" false = Ok [0; 0; 2; 2].
Proof. apply (chain4_labels 5 1). lia. Defined.

(** C7 as stated fails: with the wrap entry active the call does not return
    the two clusters {0,1} and {2,3}; sites 1 and 2 carry one label. *)
Lemma chain4_wrap_active_one_cluster :
  ¬ ∃ labels, hoshen_kopelman_nd 5 (chain4 1) [4] 1 "p" false = Ok labels ∧
              labels !! 0%nat = labels !! 1%nat ∧
              labels !! 2%nat = labels !! 3%nat ∧
              labels !! 1%nat ≠ labels !! 2%nat.
Proof. intros (labels & [= <-] & _ & _ & Hne). by apply Hne. Qed.

(** ** [np.roll] *)

Lemma roll1_length {A} (l : list A) : length (roll1 l) = length l.
Proof.
  unfold roll1. destruct (last l) eqn:Hlast.
  - simpl. rewrite length_take. destruct l; [done|]. simpl. lia.
  - by apply last_None in Hlast as ->.
Qed.

Lemma roll1_lookup {A} (l : list A) (c : Z) :
  0 ≤ c < Z.of_nat (length l) →
  roll1 l !! Z.to_nat c = l !! Z.to_nat ((c - 1) `mod` Z.of_nat (length l)).
Proof.
  intros Hc. unfold roll1. destruct (last l) as [x|] eqn:Hlast.
  - destruct (decide (c = 0)) as [->|Hne].
    + simpl. rewrite last_lookup in Hlast. rewrite <- Hlast. f_equal.
      replace ((0 - 1) `mod` Z.of_nat (length l)) with (Z.of_nat (length l) - 1).
      * lia.
      * apply Z.mod_unique with (-1); lia.
    + rewrite Z.mod_small by lia.
      replace (Z.to_nat c) with (S (Z.to_nat (c - 1))) by lia. simpl.
      apply lookup_take_lt. lia.
  - apply last_None in Hlast as ->. simpl in Hc. lia.
Qed.

Lemma roll1_Forall {A} (P : A → Prop) (l : list A) : Forall P l → Forall P (roll1 l).
Proof.
  intros Hl. unfold roll1. destruct (last l) as [x|] eqn:Hlast; [|done].
  constructor.
  - rewrite last_lookup in Hlast. rewrite Forall_lookup in Hl. by eapply Hl.
  - by apply Forall_take.
Qed.

Lemma pred_coords_cons s ss c cs n :
  pred_coords (s :: ss) (c :: cs) (S n) = c :: pred_coords ss cs n.
Proof.
  unfold pred_coords. simpl. by destruct (cs !! n), (ss !! n).
Qed.

Lemma np_roll_spec {A} (shape : list Z) (n : nat) (a : ndarray A) :
  has_shape shape a → (n < length shape)%nat →
  ∃ a', np_roll n a = Some a' ∧ has_shape shape a' ∧
    ∀ coords, lattice shape coords →
      nd_get a' coords = nd_get a (pred_coords shape coords n).
Proof.
  revert shape a. induction n as [|n IH]; intros [|s ss] [x|l] Ha Hn;
    try (simpl in *; (done || lia)); destruct Ha as [Hlen Hl].
  - exists (Arr (roll1 l)). split; [done|]. split.
    + split; [by rewrite roll1_length|by apply roll1_Forall].
    + intros coords Hc. inversion Hc as [|c ? cs ? Hcs Hcs']; subst.
      unfold pred_coords. simpl.
      rewrite !getitem_site by (rewrite ?roll1_length; lia || (apply Z.mod_pos_bound; lia)).
      by rewrite roll1_lookup by lia.
  - assert (∃ l', mapM (np_roll n) l = Some l' ∧ Forall (has_shape ss) l' ∧
              length l' = length l ∧
              ∀ i x x', l !! i = Some x → l' !! i = Some x' →
                ∀ cs, lattice ss cs → nd_get x' cs = nd_get x (pred_coords ss cs n))
      as (l' & Hl' & Hsh' & Hlen' & Hget).
    { clear Hlen. induction Hl as [|x l Hx Hl IHl].
      - exists []. split_and!; [done..|]. by intros [].
      - destruct (IH ss x Hx) as (x' & Hx' & Hshx & Hgetx); [simpl in Hn; lia|].
        destruct IHl as (l' & Hl' & Hsh' & Hlen' & Hget).
        exists (x' :: l'). simpl. rewrite Hx'. simpl. rewrite Hl'. simpl.
        split_and!; [done|by constructor|by rewrite Hlen'|].
        intros [|i] y y'; simpl; [|by apply Hget]. intros [= <-] [= <-]. done. }
    exists (Arr l'). simpl. rewrite Hl'. split; [done|]. split.
    + split; [by rewrite Hlen'|done].
    + intros coords Hc. inversion Hc as [|c ? cs ? Hcs Hcs']; subst.
      rewrite pred_coords_cons. simpl.
      rewrite !getitem_site by lia.
      destruct (lookup_lt_is_Some_2 l (Z.to_nat c)) as [x Hx]; [lia|].
      destruct (lookup_lt_is_Some_2 l' (Z.to_nat c)) as [x' Hx']; [lia|].
      rewrite Hx, Hx'. simpl. by eapply Hget.
Qed.

(** ** Elementwise operations *)

Lemma nd_map2_spec {A B C} (f : A → B → C) (shape : list Z) (a : ndarray A)
    (b : ndarray B) :
  has_shape shape a → has_shape shape b →
  ∃ c, nd_map2 f a b = Some c ∧ has_shape shape c ∧
    ∀ coords x y, nd_get a coords = Some x → nd_get b coords = Some y →
      nd_get c coords = Some (f x y).
Proof.
  revert a b. induction shape as [|s ss IH]; intros [x|l] [y|l'] Ha Hb; try done.
  - exists (Scalar (f x y)). split_and!; [done..|].
    intros [|??] ??; simpl; [|done]. by intros [= <-] [= <-].
  - destruct Ha as [Hlen Hl], Hb as [Hlen' Hl'].
    assert (length l = length l') as Hll by lia. clear Hlen'.
    assert (∃ k, zip_opt (nd_map2 f) l l' = Some k ∧ Forall (has_shape ss) k ∧
              length k = length l ∧
              ∀ i x y z, l !! i = Some x → l' !! i = Some y → k !! i = Some z →
                ∀ cs u v, nd_get x cs = Some u → nd_get y cs = Some v →
                  nd_get z cs = Some (f u v))
      as (k & Hk & Hshk & Hlenk & Hget).
    { clear Hlen. revert l' Hl' Hll. induction Hl as [|x l Hx Hl IHl];
        intros [|y l'] Hl' Hll; try done.
      - exists []. split_and!; [done..|]. by intros [].
      - apply Forall_cons in Hl' as [Hy Hl'].
        destruct (IH x y Hx Hy) as (z & Hz & Hshz & Hgetz).
        destruct (IHl l' Hl') as (k & Hk & Hshk & Hlenk & Hget); [simpl in Hll; lia|].
        exists (z :: k). simpl. rewrite Hz. simpl. rewrite Hk. simpl.
        split_and!; [done|by constructor|by rewrite Hlenk|].
        intros [|i] x0 y0 z0; simpl; [|by apply Hget].
        intros [= <-] [= <-] [= <-]. done. }
    exists (Arr k). simpl. rewrite Hk. split; [done|]. split.
    + split; [by rewrite Hlenk|done].
    + intros [|c cs] u v; simpl; [done|].
      unfold getitem. rewrite Hlenk, <- Hll.
      destruct (py_index (length l) c) as [i|]; simpl; [|done].
      destruct (l !! i) as [x|] eqn:Hx; simpl; [|done].
      destruct (l' !! i) as [y|] eqn:Hy; simpl; [|done].
      destruct (lookup_lt_is_Some_2 k i) as [z Hz].
      { rewrite Hlenk. by eapply lookup_lt_Some. }
      rewrite Hz. simpl. by eapply Hget.
Qed.

Lemma nd_get_pred_lattice shape coords n :
  lattice shape coords → lattice shape (pred_coords shape coords n).
Proof.
  intros Hc. unfold pred_coords.
  destruct (coords !! n) as [c|] eqn:Hcn; [|done].
  destruct (shape !! n) as [s|] eqn:Hsn; [|done].
  destruct (lattice_lookup _ _ _ _ Hc Hcn) as (s' & Hs' & Hb).
  assert (s' = s) as -> by congruence.
  eapply lattice_insert; [done..|]. apply Z.mod_pos_bound. lia.
Qed.

Section get_bonds.
Context {A : Type}.
Variables (state : ndarray A) (shape : list Z) (d : nat).
Hypothesis Hstate : has_shape shape state.
Hypothesis Hd : (d ≤ length shape)%nat.

Lemma rolls_spec :
  ∃ rolls, mapM (λ n, np_roll n state) (seq 0 d) = Some rolls ∧ length rolls = d ∧
    ∀ n roll, rolls !! n = Some roll →
      has_shape shape roll ∧
      ∀ coords, lattice shape coords →
        nd_get roll coords = nd_get state (pred_coords shape coords n).
Proof.
  assert (∀ b len, (b + len ≤ length shape)%nat →
    ∃ rolls, mapM (λ n, np_roll n state) (seq b len) = Some rolls ∧
      length rolls = len ∧
      ∀ n roll, rolls !! n = Some roll →
        has_shape shape roll ∧
        ∀ coords, lattice shape coords →
          nd_get roll coords = nd_get state (pred_coords shape coords (b + n))) as Hgen.
  { intros b len. revert b. induction len as [|len IH]; intros b Hb.
    - exists []. split_and!; [done..|]. by intros [].
    - destruct (np_roll_spec shape b state Hstate) as (r & Hr & Hshr & Hgetr); [lia|].
      destruct (IH (S b)) as (rolls & Hrolls & Hlen & Hget); [lia|].
      exists (r :: rolls). simpl. rewrite Hr. simpl. rewrite Hrolls. simpl.
      split_and!; [done|by rewrite Hlen|].
      intros [|n] roll; simpl.
      + intros [= <-]. by rewrite Nat.add_0_r.
      + intros Hn. destruct (Hget n roll Hn) as [? Hg]. split; [done|].
        intros coords Hc. rewrite Hg by done. do 2 f_equal. lia. }
  destruct (Hgen 0%nat d) as (rolls & ? & ? & Hget); [lia|]. by exists rolls.
Qed.

Lemma bonds_spec {C} (f : A → A → C) rolls :
  (∀ n roll, rolls !! n = Some roll → has_shape shape roll) →
  ∃ bonds, mapM (λ roll, nd_map2 f roll state) rolls = Some bonds ∧
    length bonds = length rolls ∧
    ∀ n roll b, rolls !! n = Some roll → bonds !! n = Some b →
      has_shape shape b ∧
      ∀ coords x y, nd_get roll coords = Some x → nd_get state coords = Some y →
        nd_get b coords = Some (f x y).
Proof.
  induction rolls as [|r rolls IH]; intros Hsh.
  - exists []. split_and!; [done..|]. by intros [].
  - destruct (nd_map2_spec f shape r state) as (b & Hb & Hshb & Hgetb);
      [by apply (Hsh 0%nat)|done|].
    destruct IH as (bonds & Hbonds & Hlen & Hget).
    { intros n roll Hn. by apply (Hsh (S n)). }
    exists (b :: bonds). simpl. rewrite Hb. simpl. rewrite Hbonds. simpl.
    split_and!; [done|by rewrite Hlen|].
    intros [|n] roll b'; simpl; [|by apply Hget].
    intros [= <-] [= <-]. done.
Qed.

Lemma get_bonds_spec {C} (f : A → A → C) (n : nat) :
  (n < d)%nat →
  ∃ bonds b, (rolls ← mapM (λ n, np_roll n state) (seq 0 d);
              mapM (λ roll, nd_map2 f roll state) rolls) = Some bonds ∧
    length bonds = d ∧ Forall (has_shape shape) bonds ∧
    bonds !! n = Some b ∧
    ∀ coords, lattice shape coords →
      ∃ x y, nd_get state coords = Some x ∧
             nd_get state (pred_coords shape coords n) = Some y ∧
             nd_get b coords = Some (f y x).
Proof.
  intros Hn. destruct rolls_spec as (rolls & Hrolls & Hlen & Hget).
  destruct (bonds_spec f rolls) as (bonds & Hbonds & Hlenb & Hgetb).
  { intros m roll Hm. by apply (Hget m roll). }
  destruct (lookup_lt_is_Some_2 rolls n) as [roll Hroll]; [lia|].
  destruct (lookup_lt_is_Some_2 bonds n) as [b Hb]; [lia|].
  exists bonds, b. rewrite Hrolls. simpl. split_and!; [done|lia| |done|].
  - apply Forall_lookup. intros m b' Hb'.
    destruct (lookup_lt_is_Some_2 rolls m) as [r Hr].
    { rewrite <- Hlenb. by eapply lookup_lt_Some. }
    by apply (Hgetb m r b').
  - intros coords Hc.
    destruct (nd_get_lattice _ _ _ Hstate Hc) as [x Hx].
    destruct (nd_get_lattice _ _ _ Hstate (nd_get_pred_lattice _ _ n Hc)) as [y Hy].
    exists x, y. split_and!; [done..|].
    destruct (Hget n roll Hroll) as [_ Hgr].
    destruct (Hgetb n roll b Hroll Hb) as [_ Hgb].
    apply Hgb; [|done]. by rewrite Hgr.
Qed.
End get_bonds.

Lemma wrap64_exact (z : Z) : - 2 ^ 63 ≤ z < 2 ^ 63 → wrap64 z = z.
Proof. intros Hz. unfold wrap64. rewrite Z.mod_small; lia. Qed.

Lemma wrap64_range (z : Z) : - 2 ^ 63 ≤ wrap64 z < 2 ^ 63.
Proof.
  unfold wrap64. pose proof (Z.mod_pos_bound (z + 2 ^ 63) (2 ^ 64)). lia.
Qed.

Lemma mul64_exact (x y : Z) : - 2 ^ 63 ≤ x * y < 2 ^ 63 → mul64 x y = x * y.
Proof. apply wrap64_exact. Qed.

Lemma mul64_0_l (y : Z) : mul64 0 y = 0.
Proof. done. Qed.

Lemma mul64_0_r (x : Z) : mul64 x 0 = 0.
Proof. unfold mul64. by rewrite Z.mul_0_r. Qed.

Lemma mul64_nonzero (x y : Z) : mul64 x y ≠ 0 → x ≠ 0 ∧ y ≠ 0.
Proof.
  intros Hxy. split; intros ->; [by rewrite mul64_0_l in Hxy|by rewrite mul64_0_r in Hxy].
Qed.

(** C4. For a state array of shape [shape] with entries of any numeric type,
    [d] at most its number of axes and [n < d], the arrays returned by
    [get_bonds_nd] hold at every coordinate of axis [n]: for ['one'] the
    product, in the arithmetic of the entries, of the state there and at
    its predecessor along the axis (index wrapping at the boundary), for
    ['all'] whether the state at the predecessor equals the state there.
    For [int64] entries the product is [mul64], which wraps. *)
Theorem get_bonds_nd_values {A} `{Numeric A} (state : ndarray A) (shape : list Z)
    (d n : nat) :
  has_shape shape state → (d ≤ length shape)%nat → (n < d)%nat →
  (∃ bonds b,
     get_bonds_nd state d "one" = Ok (BondsOne bonds) ∧ bonds !! n = Some b ∧
     ∀ coords, lattice shape coords →
       ∃ x y, nd_get state coords = Some x ∧
              nd_get state (pred_coords shape coords n) = Some y ∧
              nd_get b coords = Some (num_mul x y)) ∧
  (∃ bonds b,
     get_bonds_nd state d "all" = Ok (BondsAll bonds) ∧ bonds !! n = Some b ∧
     ∀ coords, lattice shape coords →
       ∃ x y, nd_get state coords = Some x ∧
              nd_get state (pred_coords shape coords n) = Some y ∧
              nd_get b coords = Some (num_eqb y x)).
Proof.
  intros Hstate Hd Hn. split.
  - destruct (get_bonds_spec state shape d Hstate Hd num_mul n Hn)
      as (bonds & b & Hbonds & _ & _ & Hb & Hget).
    exists bonds, b. split_and!; [|done|].
    + unfold get_bonds_nd.
      destruct (mapM _ (seq 0 d)) as [rolls|]; [|done]. simpl in *.
      by rewrite Hbonds.
    + intros coords Hc. destruct (Hget coords Hc) as (x & y & ? & ? & Hv).
      exists x, y. split_and!; [done..|]. by rewrite num_mul_comm.
  - destruct (get_bonds_spec state shape d Hstate Hd num_eqb n Hn)
      as (bonds & b & Hbonds & _ & _ & Hb & Hget).
    exists bonds, b. split_and!; [|done..].
    unfold get_bonds_nd.
    destruct (mapM _ (seq 0 d)) as [rolls|]; [|done]. simpl in *.
    by rewrite Hbonds.
Qed.

Lemma get_bonds_nd_values_witness :
  (∃ bonds b,
     get_bonds_nd (Arr [Arr [Scalar 1; Scalar (2 ^ 32)]; Arr [Scalar (2 ^ 32); Scalar 3]])
       2 "one"
       = Ok (BondsOne bonds) ∧ bonds !! 0%nat = Some b ∧
     ∀ coords, lattice [2; 2] coords →
       ∃ x y, nd_get (Arr [Arr [Scalar 1; Scalar (2 ^ 32)];
                           Arr [Scalar (2 ^ 32); Scalar 3]]) coords
                = Some x ∧
              nd_get (Arr [Arr [Scalar 1; Scalar (2 ^ 32)];
                           Arr [Scalar (2 ^ 32); Scalar 3]])
                (pred_coords [2; 2] coords 0) = Some y ∧
              nd_get b coords = Some (mul64 x y)) ∧
  (∃ bonds b,
     get_bonds_nd (Arr [Arr [Scalar 1; Scalar (2 ^ 32)]; Arr [Scalar (2 ^ 32); Scalar 3]])
       2 "all"
       = Ok (BondsAll bonds) ∧ bonds !! 0%nat = Some b ∧
     ∀ coords, lattice [2; 2] coords →
       ∃ x y, nd_get (Arr [Arr [Scalar 1; Scalar (2 ^ 32)];
                           Arr [Scalar (2 ^ 32); Scalar 3]]) coords
                = Some x ∧
              nd_get (Arr [Arr [Scalar 1; Scalar (2 ^ 32)];
                           Arr [Scalar (2 ^ 32); Scalar 3]])
                (pred_coords [2; 2] coords 0) = Some y ∧
              nd_get b coords = Some (y =? x)).
Proof.
  refine (get_bonds_nd_values
            (Arr [Arr [Scalar 1; Scalar (2 ^ 32)]; Arr [Scalar (2 ^ 32); Scalar 3]])
            [2; 2] 2 0 _ _ _).
  - simpl. repeat constructor.
  - simpl. lia.
  - lia.
Defined.

(** The product of two [int64] entries wraps: two neighbours with state
    [2^32] give the bond 0, and [hoshen_kopelman_nd] keeps them apart. *)
Lemma get_bonds_nd_wraps :
  get_bonds_nd (Arr [Scalar (2 ^ 32); Scalar (2 ^ 32)]) 1 "one"
  = Ok (BondsOne [Arr [Scalar 0; Scalar 0]]) ∧
  hoshen_kopelman_nd 3 [Arr [Scalar 0; Scalar 0]] [2] 1 "p" false = Ok [0; 1].
Proof. split; reflexivity. Qed.

(** ** Gap statistics *)

(** ** Dictionaries *)

Lemma dict_get_None (dc : dict) k : dict_get dc k = None ↔ k ∉ dc.*1.
Proof.
  induction dc as [|[k' v] dc IH]; simpl.
  - split; [intros _; apply not_elem_of_nil|done].
  - rewrite not_elem_of_cons. destruct (Z.eqb_spec k' k) as [->|Hne].
    + split; [done|]. by intros [? _].
    + rewrite IH. split; [by intros ?|by intros [_ ?]].
Qed.

Lemma dict_get_Some_keys (dc : dict) k v : dict_get dc k = Some v → k ∈ dc.*1.
Proof.
  intros Hk. destruct (decide (k ∈ dc.*1)) as [|Hn]; [done|].
  apply dict_get_None in Hn. congruence.
Qed.

Lemma dict_get_is_Some (dc : dict) k : k ∈ dc.*1 → is_Some (dict_get dc k).
Proof.
  intros Hk. destruct (dict_get dc k) eqn:Hg; [by eexists|].
  by apply dict_get_None in Hg.
Qed.

Lemma dict_get_elem (dc : dict) k v :
  NoDup dc.*1 → (k, v) ∈ dc → dict_get dc k = Some v.
Proof.
  induction dc as [|[k' v'] dc IH]; simpl; [by intros _ ?%elem_of_nil|].
  intros [Hk' Hnd]%NoDup_cons [[= -> ->]|Hin]%elem_of_cons.
  - by rewrite Z.eqb_refl.
  - destruct (Z.eqb_spec k' k) as [->|Hne]; [|by apply IH].
    destruct Hk'. apply list_elem_of_fmap. by exists (k, v).
Qed.

Lemma dict_set_keys_in (dc : dict) k v : k ∈ dc.*1 → (dict_set dc k v).*1 = dc.*1.
Proof.
  induction dc as [|[k' v'] dc IH]; simpl; [by intros ?%elem_of_nil|].
  intros Hin. destruct (Z.eqb_spec k' k) as [->|Hne]; [done|]. simpl. f_equal.
  apply IH. apply elem_of_cons in Hin as [?|?]; [congruence|done].
Qed.

Lemma dict_set_notin (dc : dict) k v : k ∉ dc.*1 → dict_set dc k v = dc ++ [(k, v)].
Proof.
  induction dc as [|[k' v'] dc IH]; simpl; [done|].
  intros [Hne Hin]%not_elem_of_cons.
  destruct (Z.eqb_spec k' k) as [->|_]; [done|]. f_equal. by apply IH.
Qed.

Lemma dict_set_length_in (dc : dict) k v : k ∈ dc.*1 → length (dict_set dc k v) = length dc.
Proof.
  intros Hin. rewrite <- (length_fmap fst), dict_set_keys_in by done.
  by rewrite length_fmap.
Qed.

Lemma dict_get_set (dc : dict) k v k' :
  dict_get (dict_set dc k v) k' = if decide (k' = k) then Some v else dict_get dc k'.
Proof.
  induction dc as [|[k0 v0] dc IH]; simpl.
  - destruct (Z.eqb_spec k k') as [->|?]; [by rewrite decide_True|by rewrite decide_False].
  - destruct (Z.eqb_spec k0 k) as [->|Hne]; simpl.
    + destruct (Z.eqb_spec k k') as [->|?]; [by rewrite decide_True|by rewrite decide_False].
    + destruct (Z.eqb_spec k0 k') as [->|?]; [by rewrite decide_False|done].
Qed.

(** ** Histogram updates *)

Lemma sumZ_insert (f : list Z) (i : nat) (x v : Z) :
  f !! i = Some x → sumZ (<[i := v]> f) = sumZ f - x + v.
Proof.
  revert i. induction f as [|y f IH]; intros [|i]; simpl; try done.
  - intros [= ->]. lia.
  - intros Hi. rewrite (IH i Hi). lia.
Qed.

Lemma incr_spec (f : list Z) (i : Z) :
  0 ≤ i < Z.of_nat (length f) →
  ∃ c, f !! Z.to_nat i = Some c ∧ incr f i = Ok (<[Z.to_nat i := c + 1]> f).
Proof.
  intros Hi. destruct (lookup_lt_is_Some_2 f (Z.to_nat i)) as [c Hc]; [lia|].
  exists c. split; [done|]. unfold incr.
  rewrite getitem_site, Hc by done. simpl. by rewrite setitem_site.
Qed.

Lemma incr_sum (f f' : list Z) (i : Z) :
  0 ≤ i < Z.of_nat (length f) → incr f i = Ok f' →
  length f' = length f ∧ sumZ f' = sumZ f + 1.
Proof.
  intros Hi Hf'. destruct (incr_spec f i Hi) as (c & Hc & Hincr).
  rewrite Hincr in Hf'. injection Hf' as <-. split; [by rewrite length_insert|].
  rewrite (sumZ_insert _ _ c) by done. lia.
Qed.

(** ** The scan of one line *)

Lemma kept_app bad l1 l2 : kept bad (l1 ++ l2) = kept bad l1 ++ kept bad l2.
Proof. apply filter_app. Qed.

Lemma kept_singleton bad lab :
  kept bad [lab] = if not_bad bad lab then [lab] else [].
Proof. unfold kept. simpl. rewrite filter_cons, filter_nil. by destruct (not_bad bad lab). Qed.

Lemma scan_entry_spec bad f0 pre i st lab :
  0 ≤ i < Z.of_nat (length f0) → scan_inv bad f0 pre i st →
  ∃ st', scan_entry bad st i lab = Ok st' ∧ scan_inv bad f0 (pre ++ [lab]) (i + 1) st'.
Proof.
  intros Hi. destruct st as [[f fs] ls]. intros (Hkeys & Hnd & Hin & Hpairs & Hlen & Hsum).
  unfold scan_entry, scan_inv.
  destruct (not_bad bad lab) eqn:Hbad.
  - destruct (dict_get ls lab) as [last|] eqn:Hlast.
    + assert (lab ∈ ls.*1) as Hlab by (by eapply dict_get_Some_keys).
      destruct (dict_get_is_Some fs lab) as [first Hfirst]; [by rewrite Hkeys|].
      pose proof (Hpairs lab first last Hfirst Hlast) as Hfl.
      destruct (incr_spec f (i - last)) as (c & Hc & Hincr); [lia|].
      rewrite Hincr. simpl. eexists. split; [done|].
      rewrite kept_app, kept_singleton, Hbad.
      split; [by rewrite dict_set_keys_in|].
      split; [by rewrite dict_set_keys_in|].
      split; [|split; [|split]].
      * intros k. rewrite dict_set_keys_in, elem_of_app, list_elem_of_singleton by done.
        rewrite <- Hin. split; [by left|]. intros [?| ->]; done.
      * intros k a b Ha. rewrite dict_get_set. destruct (decide (k = lab)) as [->|?].
        -- intros [= <-]. assert (a = first) as -> by congruence. lia.
        -- intros Hb. pose proof (Hpairs k a b Ha Hb). lia.
      * by rewrite length_insert.
      * rewrite (sumZ_insert _ _ c) by done. rewrite length_app, dict_set_length_in by done.
        simpl. lia.
    + assert (lab ∉ ls.*1) as Hlab by (by apply dict_get_None).
      eexists. split; [done|].
      rewrite kept_app, kept_singleton, Hbad.
      split; [|split; [|split; [|split; [|split]]]].
      * rewrite !dict_set_notin by (by rewrite ?Hkeys). by rewrite !fmap_app, Hkeys.
      * rewrite !dict_set_notin by (by rewrite ?Hkeys).
        rewrite fmap_app. simpl. apply NoDup_app. split; [done|].
        split; [|apply NoDup_singleton].
        intros k Hk ->%list_elem_of_singleton. done.
      * intros k. rewrite !dict_set_notin by (by rewrite ?Hkeys).
        rewrite fmap_app. simpl. rewrite !elem_of_app, Hin. done.
      * intros k a b. rewrite !dict_get_set.
        destruct (decide (k = lab)) as [->|?].
        -- intros [= <-] [= <-]. lia.
        -- intros Ha Hb. pose proof (Hpairs k a b Ha Hb). lia.
      * done.
      * rewrite !dict_set_notin by (by rewrite ?Hkeys).
        rewrite !length_app. simpl. lia.
  - eexists. split; [done|]. rewrite kept_app, kept_singleton, Hbad, app_nil_r.
    split; [done|]. split; [done|]. split; [done|]. split; [|done].
    intros k a b Ha Hb. pose proof (Hpairs k a b Ha Hb). lia.
Qed.

Lemma scan_entries_spec bad f0 pre i st line :
  0 ≤ i → i + Z.of_nat (length line) ≤ Z.of_nat (length f0) →
  scan_inv bad f0 pre i st →
  ∃ st', scan_entries bad st i line = Ok st' ∧
         scan_inv bad f0 (pre ++ line) (i + Z.of_nat (length line)) st'.
Proof.
  revert pre i st. induction line as [|lab line IH]; intros pre i st Hi Hlen Hinv.
  - exists st. rewrite app_nil_r, Z.add_0_r. done.
  - simpl in Hlen. destruct (scan_entry_spec bad f0 pre i st lab) as (st1 & Hst1 & Hinv1);
      [lia|done|].
    destruct (IH (pre ++ [lab]) (i + 1) st1) as (st' & Hst' & Hinv'); [lia|lia|done|].
    exists st'. simpl. rewrite Hst1. simpl. split; [done|].
    rewrite <- app_assoc in Hinv'. simpl in Hinv'.
    replace (i + Z.of_nat (S (length line))) with (i + 1 + Z.of_nat (length line)) by lia.
    done.
Qed.

Lemma wrap_events_spec size fs keys f :
  0 < size → Z.of_nat (length f) = size →
  (∀ lab last, (lab, last) ∈ keys →
     ∃ first, dict_get fs lab = Some first ∧ 0 ≤ first ≤ last ∧ last < size) →
  ∃ f', wrap_events size fs keys f = Ok f' ∧ length f' = length f ∧
        sumZ f' = sumZ f + Z.of_nat (length keys).
Proof.
  intros Hsize. revert f. induction keys as [|[lab last] keys IH]; intros f Hlen Hkeys.
  - exists f. simpl. split_and!; [done..|lia].
  - destruct (Hkeys lab last) as (first & Hfirst & Hfl); [by left|].
    simpl. rewrite Hfirst. simpl.
    destruct (Z.eqb_spec size 0) as [?|_]; [lia|].
    assert (0 ≤ (size + first - last) `mod` size < Z.of_nat (length f)) as Hidx.
    { rewrite Hlen. apply Z.mod_pos_bound. lia. }
    destruct (incr_spec f _ Hidx) as (c & Hc & Hincr).
    destruct (incr_sum f _ _ Hidx Hincr) as [Hlen' Hsum'].
    rewrite Hincr. simpl.
    destruct (IH (<[Z.to_nat ((size + first - last) `mod` size) := c + 1]> f))
      as (f' & Hf' & Hlenf' & Hsumf').
    { by rewrite Hlen'. }
    { intros lab' last' Hin. apply Hkeys. by right. }
    exists f'. split; [done|]. split; [by rewrite Hlenf'|]. rewrite Hsumf', Hsum'. lia.
Qed.

Lemma scan_row_line labels size r :
  0 ≤ size → 0 ≤ r →
  take (Z.to_nat ((r + 1) * size) - Z.to_nat (r * size))
       (drop (Z.to_nat (r * size)) labels) = row labels size r.
Proof. intros Hs Hr. unfold row. f_equal. nia. Qed.

Lemma distinct_length (bad : option Z) (line : list Z) (ls : dict) :
  NoDup ls.*1 → (∀ k, k ∈ ls.*1 ↔ k ∈ kept bad line) →
  length ls = length (remove_dups (kept bad line)).
Proof.
  intros Hnd Hin. rewrite <- (length_fmap fst). apply Permutation_length.
  apply NoDup_Permutation; [done|apply NoDup_remove_dups|].
  intros k. by rewrite Hin, elem_of_remove_dups.
Qed.

Lemma scan_row_spec labels size bc bad f r :
  0 < size → 0 ≤ r → Z.of_nat (length f) = size →
  ∃ f', scan_row labels size bc bad f r = Ok f' ∧ length f' = length f ∧
        sumZ f' = sumZ f + repeats bad (row labels size r)
                          + wraps bc bad (row labels size r).
Proof.
  intros Hsize Hr Hlen. unfold scan_row. cbv zeta. rewrite scan_row_line by lia.
  set (line := row labels size r).
  assert (Z.of_nat (length line) ≤ size) as Hline.
  { unfold line, row. rewrite length_take. lia. }
  destruct (scan_entries_spec bad f [] 0 (f, [], []) line) as (st' & Hst' & Hinv);
    [lia|lia| |].
  { unfold scan_inv. simpl. split; [done|]. split; [apply NoDup_nil_2|].
    split; [|split; [done|split; [done|lia]]].
    intros k. unfold kept. rewrite filter_nil. done. }
  rewrite Hst'. destruct st' as [[f1 fs] ls]. simpl.
  destruct Hinv as (Hkeys & Hnd & Hin & Hpairs & Hlen1 & Hsum1). simpl in *.
  pose proof (distinct_length bad line ls Hnd Hin) as Hdist.
  unfold wraps, repeats. destruct (String.eqb bc "p").
  - destruct (wrap_events_spec size fs ls f1) as (f' & Hf' & Hlen' & Hsum'); [lia|lia| |].
    { intros lab last Hll. pose proof (dict_get_elem _ _ _ Hnd Hll) as Hlast.
      destruct (dict_get_is_Some fs lab) as [first Hfirst].
      { rewrite Hkeys. by eapply dict_get_Some_keys. }
      exists first. split; [done|].
      pose proof (Hpairs lab first last Hfirst Hlast). lia. }
    exists f'. split; [done|]. split; [lia|]. lia.
  - exists f1. split; [done|]. split; [done|]. lia.
Qed.

Lemma scan_rows_spec labels size bc bad f rows :
  0 < size → Forall (λ r, 0 ≤ r) rows → Z.of_nat (length f) = size →
  ∃ f', scan_rows labels size bc bad f rows = Ok f' ∧ length f' = length f ∧
        sumZ f' = sumZ f +
          sumZ ((λ r, repeats bad (row labels size r) + wraps bc bad (row labels size r))
                  <$> rows).
Proof.
  intros Hsize Hrows. revert f. induction Hrows as [|r rows Hr _ IH]; intros f Hlen.
  - exists f. simpl. split_and!; [done..|unfold sumZ; simpl; lia].
  - destruct (scan_row_spec labels size bc bad f r) as (f1 & Hf1 & Hlen1 & Hsum1);
      [done..|].
    destruct (IH f1) as (f' & Hf' & Hlen' & Hsum'); [lia|].
    exists f'. cbn [scan_rows]. rewrite Hf1. split; [done|]. split; [lia|].
    rewrite Hsum', Hsum1, fmap_cons. unfold sumZ. cbn [foldr]. lia.
Qed.

Lemma range_nonneg n : Forall (λ r, 0 ≤ r) (range n).
Proof. apply Forall_forall. intros r Hr%elem_of_seqZ. lia. Qed.

Lemma scan_pass_spec labels size bc bad f :
  0 < size → Z.of_nat (length f) = size →
  ∃ f', scan_pass labels size bc bad f = Ok f' ∧ length f' = length f ∧
        sumZ f' = sumZ f + pass_events labels size bc bad.
Proof.
  intros Hsize Hlen. apply scan_rows_spec; [done|apply range_nonneg|done].
Qed.

Lemma sumZ_replicate n : sumZ (replicate n 0) = 0.
Proof. induction n; simpl; [done|]. by rewrite IHn. Qed.

Lemma zeros_spec size : 0 ≤ size → zeros size = Ok (replicate (Z.to_nat size) 0).
Proof. intros Hs. unfold zeros. destruct (Z.ltb_spec size 0); [lia|done]. Qed.

Lemma reshape2_spec labels size :
  0 ≤ size → Z.of_nat (length labels) = size * size →
  reshape2 labels size = Ok (chunks (Z.to_nat size) (Z.to_nat size) labels).
Proof.
  intros Hs Hlen. unfold reshape2.
  destruct (Z.leb_spec 0 size); [|lia]. destruct (Z.eqb_spec (Z.of_nat (length labels)) (size * size)); [done|lia].
Qed.

(** The histogram of one call. *)
Lemma gap_histogram_spec labels size bc both bad :
  0 < size → Z.of_nat (length labels) = size * size →
  ∃ f, gap_histogram labels size bc both bad
       = Ok (f, if both then size * 2 else size) ∧
    Z.of_nat (length f) = size ∧
    sumZ f = pass_events labels size bc bad +
             (if both then pass_events (transposed labels size) size bc bad else 0).
Proof.
  intros Hsize Hlen. unfold gap_histogram. rewrite zeros_spec by lia. simpl.
  destruct (scan_pass_spec labels size bc bad (replicate (Z.to_nat size) 0))
    as (f1 & Hf1 & Hlen1 & Hsum1); [done|rewrite length_replicate; lia|].
  rewrite Hf1. simpl. rewrite length_replicate in Hlen1. rewrite sumZ_replicate in Hsum1.
  destruct both.
  - rewrite reshape2_spec by lia. simpl.
    destruct (scan_pass_spec (transposed labels size) size bc bad f1)
      as (f2 & Hf2 & Hlen2 & Hsum2); [done|lia|].
    unfold transposed in Hf2. rewrite Hf2. simpl.
    exists f2. split; [done|]. split; [lia|]. rewrite Hsum2, Hsum1. lia.
  - exists f1. split; [done|]. split; [lia|]. lia.
Qed.

(** ** Lines without a repeated label *)

Lemma scan_entries_fresh (f : list Z) (acc : dict) (i : Z) (line : list Z) :
  NoDup (acc.*1 ++ line) →
  ∃ dc, scan_entries None (f, acc, acc) i line = Ok (f, dc, dc) ∧
        dc.*1 = acc.*1 ++ line.
Proof.
  revert acc i. induction line as [|lab line IH]; intros acc i Hnd.
  - exists acc. by rewrite app_nil_r.
  - assert (lab ∉ acc.*1) as Hlab.
    { apply NoDup_app in Hnd as (_ & Hdisj & _). intros Hin.
      apply (Hdisj lab Hin). by left. }
    destruct (IH (acc ++ [(lab, i)]) (i + 1)) as (dc & Hdc & Hkeys).
    { rewrite fmap_app. simpl. by rewrite <- app_assoc. }
    exists dc. simpl. rewrite (proj2 (dict_get_None acc lab) Hlab).
    rewrite dict_set_notin by done. simpl. rewrite Hdc. split; [done|].
    rewrite Hkeys, fmap_app. simpl. by rewrite <- app_assoc.
Qed.

Lemma wrap_events_same size (dc keys : dict) (f : list Z) (c : Z) :
  0 < size → Z.of_nat (length f) = size → f !! 0%nat = Some c →
  (∀ lab last, (lab, last) ∈ keys → dict_get dc lab = Some last) →
  wrap_events size dc keys f = Ok (<[0%nat := c + Z.of_nat (length keys)]> f).
Proof.
  intros Hsize. revert f c. induction keys as [|[lab last] keys IH];
    intros f c Hlen Hc Hkeys.
  - simpl. rewrite Z.add_0_r. by rewrite list_insert_id.
  - simpl. rewrite (Hkeys lab last) by (by left). simpl.
    destruct (Z.eqb_spec size 0) as [?|_]; [lia|].
    replace (size + last - last) with (1 * size) by lia. rewrite Z.mod_mul by lia.
    destruct (incr_spec f 0) as (c' & Hc' & Hincr); [lia|].
    change (Z.to_nat 0) with 0%nat in *.
    assert (c' = c) as -> by congruence.
    rewrite Hincr. simpl.
    rewrite (IH (<[0%nat := c + 1]> f) (c + 1)).
    + rewrite list_insert_insert_eq. do 2 f_equal. lia.
    + by rewrite length_insert.
    + apply list_lookup_insert_eq. lia.
    + intros lab' last' Hin. apply Hkeys. by right.
Qed.

Lemma scan_row_fresh labels size (f : list Z) (c r : Z) :
  0 < size → 0 ≤ r → Z.of_nat (length f) = size → f !! 0%nat = Some c →
  NoDup (row labels size r) → Z.of_nat (length (row labels size r)) = size →
  scan_row labels size "p" None f r = Ok (<[0%nat := c + size]> f).
Proof.
  intros Hsize Hr Hlen Hc Hnd Hrow. unfold scan_row. cbv zeta.
  rewrite scan_row_line by lia.
  destruct (scan_entries_fresh f [] 0 (row labels size r)) as (dc & Hdc & Hkeys); [done|].
  rewrite Hdc. simpl in *.
  rewrite (wrap_events_same size dc dc f c); [|done..|].
  - do 3 f_equal. rewrite <- (length_fmap fst), Hkeys. done.
  - intros lab last Hin. apply dict_get_elem; [|done]. by rewrite Hkeys.
Qed.

Lemma scan_rows_fresh labels size (f : list Z) (c : Z) (rows : list Z) :
  0 < size → Z.of_nat (length f) = size → f !! 0%nat = Some c →
  Forall (λ r, 0 ≤ r ∧ NoDup (row labels size r) ∧
               Z.of_nat (length (row labels size r)) = size) rows →
  scan_rows labels size "p" None f rows
  = Ok (<[0%nat := c + size * Z.of_nat (length rows)]> f).
Proof.
  intros Hsize Hlen Hc Hrows. revert f c Hlen Hc.
  induction Hrows as [|r rows (Hr & Hnd & Hrow) _ IH]; intros f c Hlen Hc.
  - simpl. rewrite Z.mul_0_r, Z.add_0_r. by rewrite list_insert_id.
  - cbn [scan_rows]. rewrite (scan_row_fresh labels size f c r) by done. simpl.
    rewrite (IH _ (c + size)).
    + rewrite list_insert_insert_eq. do 2 f_equal. simpl length. lia.
    + by rewrite length_insert.
    + apply list_lookup_insert_eq. lia.
Qed.

Lemma row_NoDup labels size r : NoDup labels → NoDup (row labels size r).
Proof.
  intros Hnd. unfold row. apply (sublist_NoDup _ labels); [done|].
  transitivity (drop (Z.to_nat (r * size)) labels);
    [apply sublist_take|apply sublist_drop].
Qed.

Lemma row_length labels size r :
  0 ≤ size → 0 ≤ r < size → Z.of_nat (length labels) = size * size →
  Z.of_nat (length (row labels size r)) = size.
Proof.
  intros Hs Hr Hlen. unfold row. rewrite length_take, length_drop. nia.
Qed.

Lemma scan_pass_fresh labels size (f : list Z) (c : Z) :
  0 < size → Z.of_nat (length f) = size → f !! 0%nat = Some c →
  NoDup labels → Z.of_nat (length labels) = size * size →
  scan_pass labels size "p" None f = Ok (<[0%nat := c + size * size]> f).
Proof.
  intros Hsize Hlen Hc Hnd Hlabels. unfold scan_pass.
  rewrite (scan_rows_fresh labels size f c); [|done..|].
  - unfold range. rewrite length_seqZ. do 3 f_equal. lia.
  - apply Forall_forall. intros r Hr%elem_of_seqZ.
    split; [lia|]. split; [by apply row_NoDup|]. apply row_length; lia.
Qed.

(** ** Transposition *)

Lemma concat_chunks {A} rows k (l : list A) :
  concat (chunks rows k l) = take (rows * k) l.
Proof.
  revert l. induction rows as [|rows IH]; intros l; simpl; [done|].
  rewrite IH. apply take_take_drop.
Qed.

Lemma chunks_length {A} rows k (l : list A) :
  (rows * k ≤ length l)%nat → Forall (λ c, length c = k) (chunks rows k l).
Proof.
  revert l. induction rows as [|rows IH]; intros l Hl; simpl; [done|].
  constructor.
  - rewrite length_take. lia.
  - apply IH. rewrite length_drop. lia.
Qed.

Lemma transpose_length {A} n (m : list (list A)) :
  Forall (λ c, length c = n) m → length (transpose n m) = n.
Proof.
  induction 1 as [|c m Hc _ IH]; simpl; [by rewrite length_replicate|].
  rewrite length_zip_with. lia.
Qed.

Lemma concat_zip_cons {A} (r : list A) (t : list (list A)) :
  length r = length t → concat (zip_with cons r t) ≡ₚ r ++ concat t.
Proof.
  revert t. induction r as [|x r IH]; intros [|c t] Hlen; try done.
  simpl. rewrite IH by (simpl in Hlen; lia).
  rewrite !app_assoc. f_equiv. rewrite (Permutation_app_comm c r). done.
Qed.

Lemma concat_transpose {A} n (m : list (list A)) :
  Forall (λ c, length c = n) m → concat (transpose n m) ≡ₚ concat m.
Proof.
  induction 1 as [|c m Hc Hm IH]; simpl.
  - induction n; simpl; done.
  - rewrite concat_zip_cons by (by rewrite transpose_length). by rewrite IH.
Qed.

Lemma transposed_perm labels size :
  0 ≤ size → Z.of_nat (length labels) = size * size →
  transposed labels size ≡ₚ labels.
Proof.
  intros Hs Hlen. unfold transposed.
  rewrite concat_transpose by (apply chunks_length; nia).
  rewrite concat_chunks. rewrite take_ge; [done|nia].
Qed.

(** ** [Counter] and [np.where] *)

Lemma dict_set_nonempty (dc : dict) k v : dict_set dc k v ≠ [].
Proof. destruct dc as [|[k' v'] dc]; simpl; [done|]. by destruct (k' =? k). Qed.

Lemma counter_step_nonempty (acc : dict) labels :
  acc ≠ [] →
  foldl (λ cnt lab, dict_set cnt lab (default 0 (dict_get cnt lab) + 1)) acc labels ≠ [].
Proof.
  revert acc. induction labels as [|lab labels IH]; intros acc Hne; simpl; [done|].
  apply IH, dict_set_nonempty.
Qed.

Lemma counter_nonempty labels : labels ≠ [] → counter labels ≠ [].
Proof.
  unfold counter. destruct labels as [|lab labels]; [done|]. intros _. simpl.
  by apply counter_step_nonempty.
Qed.

Lemma most_common1_nonempty labels :
  labels ≠ [] → ∃ LC_label LC_size, most_common1 (counter labels) = Ok (LC_label, LC_size).
Proof.
  intros Hne%counter_nonempty. destruct (counter labels) as [|e cnt]; [done|].
  simpl. destruct (first_max e cnt) as [lab c]. by exists lab, c.
Qed.

Lemma counter_replicate n v :
  (0 < n)%nat → counter (replicate n v) = [(v, Z.of_nat n)].
Proof.
  unfold counter.
  assert (∀ (m : nat) (c : Z),
            foldl (λ (cnt : dict) lab, dict_set cnt lab (default 0 (dict_get cnt lab) + 1))
              [(v, c)] (replicate m v) = [(v, c + Z.of_nat m)]) as Hacc.
  { induction m as [|m IH]; intros c; simpl; [by rewrite Z.add_0_r|].
    rewrite Z.eqb_refl. simpl. rewrite IH. do 2 f_equal. lia. }
  destruct n as [|n]; [lia|]. intros _. simpl. rewrite Hacc. do 2 f_equal. lia.
Qed.

Lemma np_where_spec (cond : list bool) (a b : list Z) :
  length cond = length a → length a = length b →
  ∃ r, np_where cond a b = Ok r ∧ length r = length a ∧
    ∀ i (c : bool) x y, cond !! i = Some c → a !! i = Some x → b !! i = Some y →
      r !! i = Some (if c then x else y).
Proof.
  revert a b. induction cond as [|c cond IH]; intros [|x a] [|y b] Ha Hb; try done.
  - exists []. split_and!; [done..|]. by intros [].
  - destruct (IH a b) as (r & Hr & Hlen & Hget); [simpl in *; lia..|].
    exists ((if c then x else y) :: r). simpl. rewrite Hr. simpl.
    split; [done|]. split; [by rewrite Hlen|].
    intros [|i] c' x' y'; simpl; [|by apply Hget]. by intros [= <-] [= <-] [= <-].
Qed.

(** ** The labels [analysis] computes *)

Lemma prod_square size : prod [size; size] = size * size.
Proof. simpl. lia. Qed.

Lemma analysis_bonds (binned : ndarray Z) (size : Z) :
  has_shape [size; size] binned →
  ∃ bonds, get_bonds_nd binned 2 "one" = Ok (BondsOne bonds) ∧
    well_formed bonds [size; size] 2 "pp" ∧
    ∀ n coords, (n < 2)%nat → lattice [size; size] coords →
      ∃ b x y, bonds !! n = Some b ∧ nd_get binned coords = Some x ∧
               nd_get binned (pred_coords [size; size] coords n) = Some y ∧
               nd_get b coords = Some (mul64 y x).
Proof.
  intros Hsh.
  destruct (get_bonds_spec binned [size; size] 2 Hsh (le_n 2) num_mul 0)
    as (bonds & b0 & Hbonds & Hlen & Hshape & _); [lia|].
  exists bonds. split; [|split].
  - unfold get_bonds_nd. destruct (mapM _ (seq 0 2)) as [rolls|]; [|done].
    simpl in *. by rewrite Hbonds.
  - by split_and!.
  - intros n coords Hn Hc.
    destruct (get_bonds_spec binned [size; size] 2 Hsh (le_n 2) num_mul n Hn)
      as (bonds' & b & Hbonds' & _ & _ & Hb & Hget).
    assert (bonds' = bonds) as -> by congruence.
    destruct (Hget coords Hc) as (x & y & ? & ? & ?). by exists b, x, y.
Qed.

Lemma hk_canonical {A} `{Truthy A} fuel (bonds : list (ndarray A)) sizes d bc :
  well_formed bonds sizes d bc → inhabited sizes →
  (Z.to_nat (prod sizes) < fuel)%nat →
  ∃ labels, hoshen_kopelman_nd fuel bonds sizes d bc false = Ok labels ∧
    length labels = Z.to_nat (prod sizes) ∧
    (∀ i, 0 ≤ i < prod sizes →
       ∃ r, 0 ≤ r < prod sizes ∧ getitem labels i = Some r ∧
            getitem labels r = Some r) ∧
    ∀ c c', lattice sizes c → lattice sizes c' →
      getitem labels (site_index sizes c) = getitem labels (site_index sizes c') ↔
      connected bonds sizes bc c c'.
Proof.
  intros Hwf Hpos Hfuel.
  destruct (hk_run fuel bonds sizes d bc Hwf Hpos Hfuel)
    as (labels & Hrun & Hlen & Hroots & Heq).
  exists labels. unfold hoshen_kopelman_nd. cbv zeta. rewrite Hrun. done.
Qed.

Lemma analysis_labels_spec fuel (binned : ndarray Z) (size : Z) :
  1 ≤ size → has_shape [size; size] binned → (Z.to_nat (size * size) < fuel)%nat →
  ∃ bonds labels LC_label LC_size labels',
    get_bonds_nd binned 2 "one" = Ok (BondsOne bonds) ∧
    well_formed bonds [size; size] 2 "pp" ∧
    hoshen_kopelman_nd fuel bonds [size; size] 2 "pp" false = Ok labels ∧
    most_common1 (counter labels) = Ok (LC_label, LC_size) ∧
    (∀ LC, analysis_labels fuel binned size LC
           = Ok (if String.eqb LC "exclude" then labels' else labels, LC_size)) ∧
    Z.of_nat (length labels) = size * size ∧
    excluded labels LC_label labels'.
Proof.
  intros Hsize Hsh Hfuel.
  destruct (analysis_bonds binned size Hsh) as (bonds & Hbonds & Hwf & _).
  destruct (hk_canonical fuel bonds [size; size] 2 "pp" Hwf)
    as (labels & Hhk & Hlen & _); [by repeat constructor|by rewrite prod_square|].
  rewrite prod_square in Hlen.
  destruct (most_common1_nonempty labels) as (LC_label & LC_size & HLC).
  { intros ->. simpl in Hlen. nia. }
  destruct (np_where_spec ((λ l, l =? LC_label) <$> labels) (arange (size * size)) labels)
    as (labels' & Hwhere & Hlen' & Hget).
  { rewrite length_fmap, arange_length. lia. }
  { rewrite arange_length. lia. }
  exists bonds, labels, LC_label, LC_size, labels'.
  split; [done|]. split; [done|]. split; [done|]. split; [done|]. split; [|split; [nia|]].
  - intros LC. unfold analysis_labels. rewrite Hbonds. simpl. rewrite Hhk. simpl.
    rewrite HLC. simpl. destruct (String.eqb LC "exclude"); [|done]. by rewrite Hwhere.
  - split; [rewrite Hlen', arange_length; lia|].
    intros i l Hi Hl. rewrite getitem_site in Hl by done.
    rewrite getitem_site by (unfold site in *; rewrite Hlen', arange_length; lia).
    rewrite (Hget (Z.to_nat i) (l =? LC_label) i l); [done| |  |done].
    + by rewrite list_lookup_fmap, Hl.
    + unfold arange, range. apply lookup_seqZ. unfold site in Hi. lia.
Qed.

(** ** The corner contribution *)

Lemma np_dotQ_spec (a b : list Qc) :
  length a = length b →
  np_dotQ a b = Ok (foldr Qcplus 0%Qc (zip_with Qcmult a b)).
Proof.
  revert b. induction a as [|x a IH]; intros [|y b] Hlen; try done.
  simpl. rewrite IH by (simpl in Hlen; lia). done.
Qed.

Lemma even_half size : 0 ≤ size → Z.even size = true → size = 2 * (size / 2).
Proof.
  intros Hs Hev. apply Z.even_spec in Hev as [k ->].
  rewrite Z.mul_comm, Z.div_mul by lia. lia.
Qed.

Lemma folded_lookup (g : list Qc) (size : Z) (i : nat) :
  0 ≤ size → Z.even size = true → Z.of_nat (length g) = size →
  (Z.of_nat i < size / 2) →
  zip_with Qcplus (take (Z.to_nat (size / 2)) g)
                  (reverse (drop (Z.to_nat (size / 2)) g)) !! i
  = Some (g_at g (Z.of_nat i) + g_at g (size - 1 - Z.of_nat i))%Qc.
Proof.
  intros Hs Hev Hlen Hi. pose proof (even_half size Hs Hev) as Hhalf.
  rewrite lookup_zip_with.
  rewrite lookup_take_lt by lia.
  rewrite reverse_lookup by (rewrite length_drop; lia).
  rewrite lookup_drop, length_drop.
  unfold g_at. rewrite !getitem_site by lia.
  replace (Z.to_nat (size / 2) + (length g - Z.to_nat (size / 2) - S i))%nat
    with (Z.to_nat (size - 1 - Z.of_nat i)) by lia.
  rewrite Nat2Z.id.
  destruct (lookup_lt_is_Some_2 g i) as [x ->]; [lia|].
  destruct (lookup_lt_is_Some_2 g (Z.to_nat (size - 1 - Z.of_nat i))) as [y ->]; [lia|].
  done.
Qed.

Lemma corner_contribution_spec (g : list Qc) (size : Z) :
  0 ≤ size → Z.even size = true → Z.of_nat (length g) = size →
  corner_contribution g size = Ok (corner_sum g size / Z2Qc (2 * size))%Qc.
Proof.
  intros Hs Hev Hlen. pose proof (even_half size Hs Hev) as Hhalf.
  unfold corner_contribution. cbv zeta. unfold np_add.
  assert (length (take (Z.to_nat (size / 2)) g)
          = length (reverse (drop (Z.to_nat (size / 2)) g))) as Hlens.
  { rewrite length_reverse, length_take, length_drop. lia. }
  rewrite (proj2 (Nat.eqb_eq _ _) Hlens). simpl.
  rewrite np_dotQ_spec; cycle 1.
  { rewrite length_fmap, arange_length, length_zip_with, <- Hlens, length_take. lia. }
  simpl. unfold corner_sum. do 3 f_equal.
  apply list_eq. intros i. rewrite lookup_zip_with, !list_lookup_fmap.
  unfold arange, range.
  destruct (decide (Z.of_nat i < size / 2)) as [Hi|Hi].
  - rewrite (proj2 (lookup_seqZ 0 (size / 2) i (Z.of_nat i))) by lia. simpl.
    rewrite folded_lookup by done. done.
  - rewrite lookup_seqZ_ge by lia. done.
Qed.

Lemma foldr_zero (l : list Qc) :
  Forall (λ x, x = 0%Qc) l → foldr Qcplus 0%Qc l = 0%Qc.
Proof. induction 1 as [|x l -> _ IH]; simpl; [done|]. rewrite IH. ring. Qed.

Lemma Z2Qc_0 : Z2Qc 0 = 0%Qc.
Proof. apply Qc_is_canon. reflexivity. Qed.

(** A histogram with entries only at gap 0 has corner contribution 0. *)
Lemma corner_sum_zero (g : list Qc) (size : Z) :
  0 ≤ size → Z.even size = true →
  (∀ s, 1 ≤ s → g_at g s = 0%Qc) →
  corner_sum g size = 0%Qc.
Proof.
  intros Hs Hev Hg. pose proof (even_half size Hs Hev) as Hhalf.
  unfold corner_sum. apply foldr_zero, Forall_fmap, Forall_forall.
  intros ell Hell%elem_of_seqZ. simpl.
  destruct (decide (ell = 0)) as [->|Hne].
  - rewrite Z2Qc_0. ring.
  - rewrite !Hg by lia. ring.
Qed.

(** C6 (as amended). For a [size] by [size] label array the histogram of one
    scan direction sums to the number of repeat occurrences (occurrences of
    a label after its first in its line) plus, for [bc = 'p'], one wrap
    event for each distinct label of each line; with [both_directions] the
    histogram adds the same count for the transposed array. The array
    returned is the histogram divided by [size], or by [2 * size] with
    [both_directions]. *)
Theorem gapstat_histogram_sum (labels : list Z) (size : Z) (bc : string)
    (both_directions : bool) (bad : option Z) :
  0 < size → Z.of_nat (length labels) = size * size →
  ∃ f norm,
    gap_histogram labels size bc both_directions bad = Ok (f, norm) ∧
    norm = (if both_directions then size * 2 else size) ∧
    sumZ f = pass_events labels size bc bad +
             (if both_directions
              then pass_events (transposed labels size) size bc bad else 0) ∧
    get_gapstat_2d labels size bc both_directions bad
    = Ok ((λ c, Z2Qc c / Z2Qc norm)%Qc <$> f).
Proof.
  intros Hsize Hlen.
  destruct (gap_histogram_spec labels size bc both_directions bad Hsize Hlen)
    as (f & Hf & _ & Hsum).
  eexists f, _. split; [done|]. split; [done|]. split; [done|].
  unfold get_gapstat_2d. rewrite Hf. done.
Qed.

Lemma gapstat_histogram_sum_witness :
  ∃ f norm,
    gap_histogram [7; 7; 7; 1; 2; 3; 4; 5; 6] 3 "p" true None = Ok (f, norm) ∧
    norm = (if true then 3 * 2 else 3) ∧
    sumZ f = pass_events [7; 7; 7; 1; 2; 3; 4; 5; 6] 3 "p" None +
             (if true
              then pass_events (transposed [7; 7; 7; 1; 2; 3; 4; 5; 6] 3) 3 "p" None
              else 0) ∧
    get_gapstat_2d [7; 7; 7; 1; 2; 3; 4; 5; 6] 3 "p" true None
    = Ok ((λ c, Z2Qc c / Z2Qc norm)%Qc <$> f).
Proof.
  apply (gapstat_histogram_sum [7; 7; 7; 1; 2; 3; 4; 5; 6] 3 "p" true None).
  - lia.
  - reflexivity.
Defined.

(** C6 as stated fails: the label 7 occurs three times in the first row and
    gives two gap events, not one. *)
Lemma gapstat_counts_every_repeat :
  gap_histogram [7; 7; 7; 1; 2; 3; 4; 5; 6] 3 "o" false None = Ok ([0; 2; 0], 3) ∧
  claimed_events [7; 7; 7; 1; 2; 3; 4; 5; 6] 3 "o" None = 1 ∧
  sumZ [0; 2; 0] ≠ claimed_events [7; 7; 7; 1; 2; 3; 4; 5; 6] 3 "o" None.
Proof. split_and!; [reflexivity| |]; vm_compute; done. Qed.

(** ** The most common label *)

Lemma occurrences_cons lab x labels :
  occurrences lab (x :: labels)
  = (if decide (lab = x) then 1 else 0) + occurrences lab labels.
Proof.
  unfold occurrences. rewrite filter_cons. destruct (decide (lab = x)); simpl; lia.
Qed.

Lemma occurrences_pos lab labels : lab ∈ labels ↔ 0 < occurrences lab labels.
Proof.
  induction labels as [|x labels IH].
  - split; [by intros ?%elem_of_nil|]. unfold occurrences. simpl. lia.
  - rewrite occurrences_cons, elem_of_cons.
    assert (0 ≤ occurrences lab labels) by (unfold occurrences; lia).
    destruct (decide (lab = x)); [split; [lia|by left]|].
    rewrite IH. split; [intros [?|?]; [done|lia]|]. intros ?. right. lia.
Qed.

Lemma counter_acc_get (acc : dict) labels k :
  dict_get (foldl (λ cnt lab, dict_set cnt lab (default 0 (dict_get cnt lab) + 1))
              acc labels) k =
  match dict_get acc k with
  | Some c => Some (c + occurrences k labels)
  | None => if decide (k ∈ labels) then Some (occurrences k labels) else None
  end.
Proof.
  revert acc. induction labels as [|lab labels IH]; intros acc.
  - simpl. destruct (dict_get acc k); [|done].
    unfold occurrences. simpl. f_equal. lia.
  - cbn [foldl]. rewrite IH, dict_get_set, occurrences_cons.
    destruct (decide (k = lab)) as [->|Hne].
    + destruct (dict_get acc lab); simpl; [f_equal; lia|].
      rewrite decide_True by (by left). f_equal; lia.
    + destruct (dict_get acc k); [f_equal; lia|].
      destruct (decide (k ∈ labels)) as [Hin|Hnot].
      * rewrite decide_True by (by right). f_equal; lia.
      * rewrite decide_False; [done|]. intros [?|?]%elem_of_cons; done.
Qed.

Lemma counter_get labels k :
  dict_get (counter labels) k
  = if decide (k ∈ labels) then Some (occurrences k labels) else None.
Proof. unfold counter. by rewrite counter_acc_get. Qed.

Lemma dict_set_NoDup (dc : dict) k v : NoDup dc.*1 → NoDup (dict_set dc k v).*1.
Proof.
  intros Hnd. destruct (decide (k ∈ dc.*1)) as [Hin|Hnot].
  - by rewrite dict_set_keys_in.
  - rewrite dict_set_notin, fmap_app by done. simpl.
    apply NoDup_app. split; [done|]. split; [|apply NoDup_singleton].
    intros x Hx ->%list_elem_of_singleton. done.
Qed.

Lemma counter_NoDup labels : NoDup (counter labels).*1.
Proof.
  unfold counter.
  assert (∀ acc : dict, NoDup acc.*1 →
            NoDup (foldl (λ cnt lab, dict_set cnt lab (default 0 (dict_get cnt lab) + 1))
                     acc labels).*1) as Hacc.
  { induction labels as [|lab labels IH]; intros acc Hnd; [done|].
    simpl. apply IH. by apply dict_set_NoDup. }
  apply Hacc. constructor.
Qed.

Lemma dict_get_Some_elem (dc : dict) k v : dict_get dc k = Some v → (k, v) ∈ dc.
Proof.
  induction dc as [|[k' v'] dc IH]; simpl; [done|].
  destruct (Z.eqb_spec k' k) as [->|Hne].
  - intros [= ->]. by left.
  - intros Hg. right. by apply IH.
Qed.

Lemma first_max_spec (best : Z * Z) (cnt : dict) :
  first_max best cnt ∈ best :: cnt ∧
  ∀ e, e ∈ best :: cnt → e.2 ≤ (first_max best cnt).2.
Proof.
  revert best. induction cnt as [|[lab c] cnt IH]; intros best; simpl.
  - split; [by left|]. intros e ->%list_elem_of_singleton. done.
  - destruct (IH (if best.2 <? c then (lab, c) else best)) as [Hin Hmax].
    split.
    + apply elem_of_cons in Hin as [->|Hin]; [|by do 2 right].
      destruct (best.2 <? c); [right; by left|by left].
    + intros e He.
      assert ((if best.2 <? c then (lab, c) else best).2
              ≤ (first_max (if best.2 <? c then (lab, c) else best) cnt).2) as Hb.
      { apply Hmax. by left. }
      apply elem_of_cons in He as [->|[->|He]%elem_of_cons].
      * destruct (Z.ltb_spec best.2 c); simpl in *; lia.
      * destruct (Z.ltb_spec best.2 c); simpl in *; lia.
      * apply Hmax. by right.
Qed.

Lemma most_common_spec labels LC_label LC_size :
  most_common1 (counter labels) = Ok (LC_label, LC_size) →
  LC_label ∈ labels ∧ occurrences LC_label labels = LC_size ∧
  ∀ lab, occurrences lab labels ≤ LC_size.
Proof.
  unfold most_common1. destruct (counter labels) as [|e cnt] eqn:Hcnt; [done|].
  intros [= Hmax]. destruct (first_max_spec e cnt) as [Hin Hle].
  rewrite Hmax, <- Hcnt in Hin. rewrite Hmax in Hle.
  apply dict_get_elem in Hin; [|apply counter_NoDup].
  rewrite counter_get in Hin.
  destruct (decide (LC_label ∈ labels)) as [Hl|]; [|done]. injection Hin as Hocc.
  split; [done|]. split; [done|]. intros lab.
  destruct (decide (lab ∈ labels)) as [Hlab|Hnot].
  - assert ((lab, occurrences lab labels) ∈ counter labels) as He.
    { apply dict_get_Some_elem. rewrite counter_get. by rewrite decide_True. }
    rewrite Hcnt in He. apply (Hle _ He).
  - apply occurrences_pos in Hl. rewrite occurrences_pos in Hnot. lia.
Qed.

(** C9. In [analysis] with [LC = 'exclude']: the label [LC_label] of the
    largest cluster is a label of [hoshen_kopelman_nd] that no other label
    outnumbers, and [LC_size] is the number of sites that carry it; a site
    of the largest cluster gets its own flat index; every other site keeps
    its label, which is the index of a root site outside the largest
    cluster; no replaced value equals a retained label; so two distinct
    sites have equal labels after the substitution if and only if they had
    equal labels before (they are joined by active bonds) and that label is
    not the largest cluster's. *)
Theorem excluded_labels_separate_clusters (fuel : nat) (binned : ndarray Z) (size : Z) :
  1 ≤ size → has_shape [size; size] binned → (Z.to_nat (size * size) < fuel)%nat →
  ∃ bonds labels LC_label LC_size labels',
    get_bonds_nd binned 2 "one" = Ok (BondsOne bonds) ∧
    hoshen_kopelman_nd fuel bonds [size; size] 2 "pp" false = Ok labels ∧
    most_common1 (counter labels) = Ok (LC_label, LC_size) ∧
    LC_label ∈ labels ∧ occurrences LC_label labels = LC_size ∧
    (∀ lab, occurrences lab labels ≤ LC_size) ∧
    analysis_labels fuel binned size "exclude" = Ok (labels', LC_size) ∧
    (∀ c c', lattice [size; size] c → lattice [size; size] c' →
       getitem labels (site_index [size; size] c)
       = getitem labels (site_index [size; size] c') ↔
       connected bonds [size; size] "pp" c c') ∧
    (∀ i, 0 ≤ i < size * size → getitem labels i = Some LC_label →
       getitem labels' i = Some i) ∧
    (∀ j r, 0 ≤ j < size * size → getitem labels j = Some r → r ≠ LC_label →
       getitem labels' j = Some r ∧ 0 ≤ r < size * size ∧
       getitem labels r = Some r) ∧
    (∀ i j, 0 ≤ i < size * size → 0 ≤ j < size * size →
       getitem labels i = Some LC_label → getitem labels j ≠ Some LC_label →
       getitem labels' j ≠ getitem labels' i) ∧
    (∀ i j, 0 ≤ i < size * size → 0 ≤ j < size * size → i ≠ j →
       getitem labels' i = getitem labels' j ↔
       getitem labels i = getitem labels j ∧ getitem labels i ≠ Some LC_label).
Proof.
  intros Hsize Hsh Hfuel.
  destruct (analysis_labels_spec fuel binned size Hsize Hsh Hfuel)
    as (bonds & labels & LC_label & LC_size & labels' & Hbonds & Hwf & Hhk & HLC &
        Han & Hlen & Hlen' & Hex).
  destruct (hk_canonical fuel bonds [size; size] 2 "pp" Hwf)
    as (labels0 & Hhk0 & _ & Hroots & Hconn);
    [by repeat constructor|by rewrite prod_square|].
  assert (labels0 = labels) as -> by congruence.
  rewrite prod_square in Hroots.
  assert (∀ i, 0 ≤ i < size * size → site labels i) as Hsite.
  { intros i Hi. unfold site. lia. }
  assert (∀ i l, 0 ≤ i < size * size → getitem labels i = Some l →
            getitem labels' i = Some (if l =? LC_label then i else l)) as Hget.
  { intros i l Hi. by apply Hex, Hsite. }
  assert (∀ j r, 0 ≤ j < size * size → getitem labels j = Some r →
            0 ≤ r < size * size ∧ getitem labels r = Some r) as Hroot.
  { intros j r Hj Hr. destruct (Hroots j Hj) as (r' & ? & Hr' & ?).
    assert (r' = r) as -> by congruence. done. }
  assert (∀ i j lj, 0 ≤ i < size * size → 0 ≤ j < size * size →
            getitem labels i = Some LC_label → getitem labels j = Some lj →
            lj ≠ LC_label → lj ≠ i) as Hfresh.
  { intros i j lj Hi Hj Hli Hlj Hne ->.
    destruct (Hroot j i Hj Hlj) as [_ Hii]. congruence. }
  destruct (most_common_spec labels LC_label LC_size HLC) as (HLCin & HLCocc & HLCmax).
  exists bonds, labels, LC_label, LC_size, labels'.
  split; [done|]. split; [done|]. split; [done|].
  split; [done|]. split; [done|]. split; [done|].
  split; [by rewrite Han|]. split; [done|].
  split; [|split; [|split]].
  - intros i Hi Hl. rewrite (Hget i LC_label Hi Hl). by rewrite Z.eqb_refl.
  - intros j r Hj Hr Hne. rewrite (Hget j r Hj Hr).
    destruct (Z.eqb_spec r LC_label); [done|]. split; [done|]. by apply (Hroot j).
  - intros i j Hi Hj Hli Hlj.
    destruct (Hroots j Hj) as (lj & _ & Hlj' & _).
    rewrite (Hget i _ Hi Hli), (Hget j _ Hj Hlj'), Z.eqb_refl.
    destruct (Z.eqb_spec lj LC_label) as [->|Hne]; [done|].
    intros [= Heq]. by apply (Hfresh i j lj).
  - intros i j Hi Hj Hij.
    destruct (Hroots i Hi) as (li & _ & Hli & _), (Hroots j Hj) as (lj & _ & Hlj & _).
    rewrite (Hget i _ Hi Hli), (Hget j _ Hj Hlj), Hli, Hlj.
    destruct (Z.eqb_spec li LC_label) as [->|Hni], (Z.eqb_spec lj LC_label) as [->|Hnj].
    + split; [intros [= ?]; done|]. by intros [_ ?].
    + split; [|by intros [_ ?]]. intros [= Heq]. by destruct (Hfresh i j lj).
    + split; [|intros [[= ->] _]; done]. intros [= Heq]. by destruct (Hfresh j i li).
    + split; [intros [= ->]; split; [done|congruence]|by intros [? _]].
Qed.

Lemma excluded_labels_separate_clusters_witness :
  ∃ bonds labels LC_label LC_size labels',
    get_bonds_nd two_clusters_grid 2 "one"
      = Ok (BondsOne bonds) ∧
    hoshen_kopelman_nd 17 bonds [4; 4] 2 "pp" false = Ok labels ∧
    most_common1 (counter labels) = Ok (LC_label, LC_size) ∧
    LC_label ∈ labels ∧ occurrences LC_label labels = LC_size ∧
    (∀ lab, occurrences lab labels ≤ LC_size) ∧
    analysis_labels 17 two_clusters_grid 4 "exclude"
      = Ok (labels', LC_size) ∧
    (∀ c c', lattice [4; 4] c → lattice [4; 4] c' →
       getitem labels (site_index [4; 4] c) = getitem labels (site_index [4; 4] c') ↔
       connected bonds [4; 4] "pp" c c') ∧
    (∀ i, 0 ≤ i < 4 * 4 → getitem labels i = Some LC_label →
       getitem labels' i = Some i) ∧
    (∀ j r, 0 ≤ j < 4 * 4 → getitem labels j = Some r → r ≠ LC_label →
       getitem labels' j = Some r ∧ 0 ≤ r < 4 * 4 ∧ getitem labels r = Some r) ∧
    (∀ i j, 0 ≤ i < 4 * 4 → 0 ≤ j < 4 * 4 →
       getitem labels i = Some LC_label → getitem labels j ≠ Some LC_label →
       getitem labels' j ≠ getitem labels' i) ∧
    (∀ i j, 0 ≤ i < 4 * 4 → 0 ≤ j < 4 * 4 → i ≠ j →
       getitem labels' i = getitem labels' j ↔
       getitem labels i = getitem labels j ∧ getitem labels i ≠ Some LC_label).
Proof.
  apply (excluded_labels_separate_clusters 17 two_clusters_grid 4).
  - lia.
  - simpl. repeat constructor.
  - simpl. lia.
Defined.

(** ** The fully occupied grid *)

Lemma uniform_grid_shape size : 0 ≤ size → has_shape [size; size] (uniform_grid size).
Proof.
  intros Hs. simpl. rewrite length_replicate. split; [lia|].
  apply Forall_replicate. simpl. rewrite length_replicate. split; [lia|].
  by apply Forall_replicate.
Qed.

Lemma getitem_replicate {A} n (a b : A) i : getitem (replicate n a) i = Some b → b = a.
Proof. intros Hb%getitem_elem_of. by apply elem_of_replicate in Hb as [-> _]. Qed.

Lemma uniform_grid_get size coords x :
  nd_get (uniform_grid size) coords = Some x → x = 1.
Proof.
  unfold uniform_grid. destruct coords as [|r [|c [|? ?]]]; simpl; try done.
  - destruct (getitem _ r) as [a|] eqn:Ha; simpl; [|done].
    apply getitem_replicate in Ha as ->. done.
  - destruct (getitem _ r) as [a|] eqn:Ha; simpl; [|done].
    apply getitem_replicate in Ha as ->. simpl.
    destruct (getitem _ c) as [b|] eqn:Hb; simpl; [|done].
    apply getitem_replicate in Hb as ->. by intros [= <-].
  - destruct (getitem _ r) as [a|] eqn:Ha; simpl; [|done].
    apply getitem_replicate in Ha as ->. simpl.
    destruct (getitem _ c) as [b|] eqn:Hb; simpl; [|done].
    apply getitem_replicate in Hb as ->. done.
Qed.

Section uniform.
Variables (fuel : nat) (size : Z) (bonds : list (ndarray Z)).
Hypothesis Hsize : 1 ≤ size.
Hypothesis Hbonds : get_bonds_nd (uniform_grid size) 2 "one" = Ok (BondsOne bonds).

Lemma uniform_active n coords :
  (n < 2)%nat → lattice [size; size] coords → active bonds n coords.
Proof.
  intros Hn Hc.
  destruct (analysis_bonds (uniform_grid size) size) as (bonds' & Hbonds' & _ & Hget);
    [apply uniform_grid_shape; lia|].
  assert (bonds' = bonds) as -> by congruence.
  destruct (Hget n coords Hn Hc) as (b & x & y & Hb & Hx & Hy & Hv).
  apply uniform_grid_get in Hx as ->. apply uniform_grid_get in Hy as ->.
  by exists b, (1 * 1).
Qed.

Lemma uniform_connected r c :
  0 ≤ r < size → 0 ≤ c < size →
  connected bonds [size; size] "pp" [r; c] [0; 0].
Proof.
  intros Hr Hc. transitivity [r; 0].
  - destruct Hc as [Hc0 Hc]. revert Hc. pattern c. apply natlike_ind; [done| |done].
    clear c Hc0. intros c Hc IH Hlt.
    eapply rtc_l; [|apply IH; lia]. left.
    replace [r; c] with (<[1%nat := Z.succ c - 1]> [r; Z.succ c])
      by (simpl; do 2 f_equal; lia).
    apply link_inner; [repeat constructor; lia|done|lia|].
    apply uniform_active; [lia|repeat constructor; lia].
  - destruct Hr as [Hr0 Hr]. revert Hr. pattern r. apply natlike_ind; [done| |done].
    clear r Hr0. intros r Hr IH Hlt.
    eapply rtc_l; [|apply IH; lia]. left.
    replace [r; 0] with (<[0%nat := Z.succ r - 1]> [Z.succ r; 0])
      by (simpl; do 2 f_equal; lia).
    apply link_inner; [repeat constructor; lia|done|lia|].
    apply uniform_active; [lia|repeat constructor; lia].
Qed.
End uniform.

Lemma uniform_labels fuel size :
  1 ≤ size → (Z.to_nat (size * size) < fuel)%nat →
  analysis_labels fuel (uniform_grid size) size "exclude"
  = Ok (arange (size * size), size * size).
Proof.
  intros Hsize Hfuel.
  destruct (analysis_labels_spec fuel (uniform_grid size) size Hsize)
    as (bonds & labels & LC_label & LC_size & labels' & Hbonds & Hwf & Hhk & HLC &
        Han & Hlen & Hlen' & Hex); [apply uniform_grid_shape; lia|done|].
  destruct (hk_canonical fuel bonds [size; size] 2 "pp" Hwf)
    as (labels0 & Hhk0 & _ & _ & Hconn);
    [by repeat constructor|by rewrite prod_square|].
  assert (labels0 = labels) as -> by congruence.
  destruct (all_labels_equal labels) as [v Hv].
  { intros i Hi. unfold site in Hi.
    destruct (lattice_of_site [size; size] i) as (c & Hc & <-).
    { repeat constructor; lia. }
    { rewrite prod_square. lia. }
    assert (lattice [size; size] [0; 0]) as H0 by (repeat constructor; lia).
    replace 0 with (site_index [size; size] [0; 0]) at 2 by (simpl; lia).
    apply (proj2 (Hconn c [0; 0] Hc H0)).
    inversion Hc as [|r ? cs ? Hr Hcs]; subst.
    inversion Hcs as [|c' ? cs' ? Hc' Hcs']; subst. inversion Hcs'; subst.
    by apply uniform_connected. }
  rewrite Han. simpl. rewrite Hv in HLC.
  rewrite counter_replicate in HLC by lia. simpl in HLC. injection HLC as <- <-.
  f_equal. f_equal; [|lia].
  apply list_eq_same_length with (Z.to_nat (size * size));
    [rewrite arange_length; lia|lia|].
  intros k x y Hk Hx Hy.
  assert (site labels (Z.of_nat k)) as Hs by (unfold site; lia).
  assert (getitem labels (Z.of_nat k) = Some v) as Hl.
  { rewrite getitem_site by done. rewrite Hv. apply lookup_replicate. lia. }
  pose proof (Hex (Z.of_nat k) v Hs Hl) as Hk'.
  rewrite Z.eqb_refl, getitem_site in Hk' by (unfold site in *; lia).
  rewrite Nat2Z.id in Hk'. unfold arange, range in Hy. apply lookup_seqZ in Hy as [-> _].
  assert (x = Z.of_nat k) as -> by congruence. lia.
Qed.

Lemma uniform_histogram size :
  1 ≤ size →
  gap_histogram (arange (size * size)) size "p" true None
  = Ok (<[0%nat := 2 * (size * size)]> (replicate (Z.to_nat size) 0), size * 2).
Proof.
  intros Hsize. unfold gap_histogram. rewrite zeros_spec by lia. simpl.
  assert (Z.of_nat (length (arange (size * size))) = size * size) as Hlen.
  { rewrite arange_length. nia. }
  assert (NoDup (arange (size * size))) as Hnd by apply NoDup_seqZ.
  rewrite (scan_pass_fresh _ size _ 0); [|lia|rewrite length_replicate; lia| |done..].
  2:{ apply lookup_replicate. split; [done|lia]. }
  simpl. rewrite reshape2_spec by lia. simpl.
  fold (transposed (arange (size * size)) size).
  pose proof (transposed_perm (arange (size * size)) size) as Hperm.
  rewrite (scan_pass_fresh _ size _ (0 + size * size)).
  - rewrite list_insert_insert_eq.
    replace (0 + size * size + size * size) with (2 * (size * size)) by ring. done.
  - lia.
  - rewrite length_insert, length_replicate. lia.
  - apply list_lookup_insert_eq. rewrite length_replicate. lia.
  - rewrite Hperm by lia. done.
  - rewrite Hperm by lia. done.
Qed.

Lemma Z2Qc_div_0 x : (Z2Qc 0 / x = 0)%Qc.
Proof. rewrite Z2Qc_0. unfold Qcdiv. ring. Qed.

Lemma py_index_nonneg len s k : 0 ≤ s → py_index len s = Some k → k = Z.to_nat s.
Proof.
  intros Hs. unfold py_index.
  destruct (Z.leb_spec 0 s); [|lia].
  destruct (Z.ltb_spec s (Z.of_nat len)); simpl; [by intros [= <-]|].
  destruct (Z.ltb_spec s 0); [lia|]. by rewrite andb_false_r.
Qed.

Lemma uniform_gap_stat size s :
  1 ≤ size → 1 ≤ s →
  g_at ((λ c, Z2Qc c / Z2Qc (size * 2))%Qc <$>
          <[0%nat := 2 * (size * size)]> (replicate (Z.to_nat size) 0)) s = 0%Qc.
Proof.
  intros Hsize Hs. unfold g_at, getitem.
  destruct (py_index _ s) as [k|] eqn:Hk; simpl; [|done].
  apply py_index_nonneg in Hk as ->; [|lia].
  rewrite list_lookup_fmap, list_lookup_insert_ne by lia.
  destruct (replicate _ _ !! Z.to_nat s) as [c|] eqn:Hc; simpl; [|done].
  apply lookup_replicate in Hc as [-> _]. apply Z2Qc_div_0.
Qed.

Lemma corner_contribution_one (g : list Qc) :
  length g = 1%nat →
  corner_contribution g 1 = Ok (corner_sum g 1 / Z2Qc (2 * 1))%Qc.
Proof. destruct g as [|x [|y g]]; [done| |done]. intros _. reflexivity. Qed.

Lemma corner_sum_one (g : list Qc) : corner_sum g 1 = 0%Qc.
Proof. reflexivity. Qed.

Lemma corner_contribution_returns (g : list Qc) (size : Z) :
  0 ≤ size → size = 1 ∨ Z.even size = true → Z.of_nat (length g) = size →
  corner_contribution g size = Ok (corner_sum g size / Z2Qc (2 * size))%Qc.
Proof.
  intros Hs [->|Hev] Hlen.
  - apply corner_contribution_one. lia.
  - by apply corner_contribution_spec.
Qed.

Lemma uniform_analysis fuel size :
  1 ≤ size → size = 1 ∨ Z.even size = true → (Z.to_nat (size * size) < fuel)%nat →
  ∃ gap_stat, analysis fuel (uniform_grid size) size "exclude"
              = Ok (0%Qc, gap_stat, size * size).
Proof.
  intros Hsize Hev Hfuel. unfold analysis.
  rewrite uniform_labels by done. simpl.
  unfold get_gapstat_2d. rewrite uniform_histogram by done. simpl.
  rewrite corner_contribution_returns; [|lia|done|].
  2:{ rewrite length_fmap, length_insert, length_replicate. lia. }
  assert (corner_sum
            ((λ c, Z2Qc c / Z2Qc (size * 2))%Qc
               <$> <[0%nat:=2 * (size * size)]> (replicate (Z.to_nat size) 0)) size
          = 0%Qc) as ->.
  { destruct Hev as [->|Hev]; [apply corner_sum_one|].
    apply corner_sum_zero; [lia|done|]. intros s Hs. by apply uniform_gap_stat. }
  simpl. eexists. do 3 f_equal. unfold Qcdiv. ring.
Qed.

(** X29. For a size that is even or 1 and a size-by-size grid, analysis returns as corner contribution the sum over ell from 0 to size/2 - 1 of ell * (g(ell) + g(size-1-ell)), divided by 2*size, with g the gap statistics it returns; on the fully occupied grid with LC=['exclude'] the corner contribution is 0 and the largest cluster has size*size sites. *)
Theorem analysis_corner_contribution (fuel : nat) (binned : ndarray Z) (size : Z)
    (LC : string) :
  1 ≤ size → size = 1 ∨ Z.even size = true → has_shape [size; size] binned →
  (Z.to_nat (size * size) < fuel)%nat →
  (∃ corner gap_stat LC_size,
     analysis fuel binned size LC = Ok (corner, gap_stat, LC_size) ∧
     Z.of_nat (length gap_stat) = size ∧
     corner = (corner_sum gap_stat size / Z2Qc (2 * size))%Qc) ∧
  (∃ gap_stat,
     analysis fuel (uniform_grid size) size "exclude" = Ok (0%Qc, gap_stat, size * size)).
Proof.
  intros Hsize Hev Hsh Hfuel. split; [|by apply uniform_analysis].
  destruct (analysis_labels_spec fuel binned size Hsize Hsh Hfuel)
    as (bonds & labels & LC_label & LC_size & labels' & _ & _ & _ & _ &
        Han & Hlen & Hlen' & _).
  set (used := if String.eqb LC "exclude" then labels' else labels).
  assert (Z.of_nat (length used) = size * size) as Hused.
  { unfold used. destruct (String.eqb LC "exclude"); lia. }
  destruct (gap_histogram_spec used size "p" true None) as (f & Hf & Hlenf & _);
    [lia|done|].
  unfold analysis. rewrite Han. simpl. fold used.
  unfold get_gapstat_2d. rewrite Hf. simpl.
  rewrite corner_contribution_returns; [|lia|done|by rewrite length_fmap].
  simpl. eexists _, _, _. split; [done|]. split; [by rewrite length_fmap|done].
Qed.

Lemma analysis_corner_contribution_witness :
  (∃ corner gap_stat LC_size,
     analysis 17 two_clusters_grid 4 "exclude" = Ok (corner, gap_stat, LC_size) ∧
     Z.of_nat (length gap_stat) = 4 ∧
     corner = (corner_sum gap_stat 4 / Z2Qc (2 * 4))%Qc) ∧
  (∃ gap_stat,
     analysis 17 (uniform_grid 4) 4 "exclude" = Ok (0%Qc, gap_stat, 4 * 4)).
Proof.
  apply (analysis_corner_contribution 17 two_clusters_grid 4 "exclude").
  - lia.
  - right. reflexivity.
  - simpl. repeat constructor.
  - simpl. lia.
Defined.

(** C8. The code breaks the claim at an odd size. On the fully occupied 3 by
    3 grid, where the claim gives the corner contribution 0, [analysis]
    raises ValueError: the two halves of the gap statistics that the corner
    expression adds have 1 and 2 entries. *)
Lemma analysis_odd_size_raises :
  analysis 10 (uniform_grid 3) 3 "exclude" = Err ValueError.
Proof. vm_compute. reflexivity. Qed.

(** * Further properties *)

Lemma py_index_mod len i :
  - Z.of_nat len ≤ i < Z.of_nat len →
  py_index len i = Some (Z.to_nat (i `mod` Z.of_nat len)).
Proof.
  intros Hi. unfold py_index.
  destruct (Z.leb_spec 0 i); simpl.
  - destruct (Z.ltb_spec i (Z.of_nat len)); [|lia]. by rewrite Z.mod_small by lia.
  - destruct (Z.leb_spec (- Z.of_nat len) i); [|lia].
    destruct (Z.ltb_spec i 0); [|lia]. simpl. do 2 f_equal.
    apply (Z.mod_unique _ _ (-1)); lia.
Qed.

Lemma py_index_out len i :
  ¬ (- Z.of_nat len ≤ i < Z.of_nat len) → py_index len i = None.
Proof.
  intros Hi. unfold py_index.
  destruct (Z.leb_spec 0 i), (Z.ltb_spec i (Z.of_nat len)),
    (Z.leb_spec (- Z.of_nat len) i), (Z.ltb_spec i 0); simpl; (done || lia).
Qed.

Lemma getitem_mod {A} (l : list A) i :
  - Z.of_nat (length l) ≤ i < Z.of_nat (length l) →
  getitem l i = l !! Z.to_nat (i `mod` Z.of_nat (length l)).
Proof. intros Hi. unfold getitem. by rewrite py_index_mod. Qed.

Lemma setitem_mod {A} (l : list A) i v :
  - Z.of_nat (length l) ≤ i < Z.of_nat (length l) →
  setitem l i v = Some (<[Z.to_nat (i `mod` Z.of_nat (length l)) := v]> l).
Proof. intros Hi. unfold setitem. by rewrite py_index_mod. Qed.

Lemma getitem_out {A} (l : list A) i :
  ¬ (- Z.of_nat (length l) ≤ i < Z.of_nat (length l)) → getitem l i = None.
Proof. intros Hi. unfold getitem. by rewrite py_index_out. Qed.

(** ** Assignment to one entry of an array *)

Lemma nd_set_spec {A} (shape coords : list Z) (a : ndarray A) (v : A) :
  has_shape shape a → Forall2 (λ c s, - s ≤ c < s) coords shape →
  ∃ a', nd_set a coords v = Some a' ∧ has_shape shape a' ∧
    ∀ coords', lattice shape coords' →
      nd_get a' coords' =
      if bool_decide (coords' = zip_with Z.modulo coords shape) then Some v
      else nd_get a coords'.
Proof.
  intros Ha Hc. revert a Ha. induction Hc as [|c s cs ss Hc _ IH]; intros a Ha.
  - destruct a as [x|]; [|done]. exists (Scalar v). split_and!; [done..|].
    intros coords' Hc'. apply Forall2_nil_inv_r in Hc' as ->. done.
  - destruct a as [|l]; [done|]. destruct Ha as [Hlen Hl]. simpl.
    rewrite getitem_mod by lia.
    assert (0 ≤ c `mod` s < s) as Hm by (apply Z.mod_pos_bound; lia).
    rewrite Hlen.
    destruct (lookup_lt_is_Some_2 l (Z.to_nat (c `mod` s))) as [sub Hsub]; [lia|].
    rewrite Hsub. simpl.
    assert (has_shape ss sub) as Hss.
    { rewrite Forall_lookup in Hl. by eapply Hl. }
    destruct (IH sub Hss) as (sub' & Hset & Hsh' & Hget). rewrite Hset. simpl.
    rewrite setitem_mod, Hlen by lia. simpl.
    eexists. split; [done|]. split.
    + simpl. rewrite length_insert. split; [done|].
      apply Forall_insert; done.
    + intros coords' Hc'.
      apply Forall2_cons_inv_r in Hc' as (c' & cs' & Hc0 & Hcs' & ->).
      simpl. rewrite !getitem_site by (rewrite ?length_insert; lia).
      destruct (decide (c' = c `mod` s)) as [->|Hne].
      * rewrite list_lookup_insert_eq by lia. rewrite Hsub. simpl.
        rewrite Hget by done.
        destruct (decide (cs' = zip_with Z.modulo cs ss)) as [->|Hne'].
        -- by rewrite !bool_decide_eq_true_2.
        -- rewrite !bool_decide_eq_false_2; [done|congruence|done].
      * rewrite list_lookup_insert_ne by lia.
        rewrite bool_decide_eq_false_2; [done|congruence].
Qed.

Lemma nd_set_out {A} (x y : Z) (size : Z) (a : ndarray A) (v : A) :
  has_shape [size; size] a → ¬ ((- size ≤ x < size) ∧ (- size ≤ y < size)) →
  nd_set a [x; y] v = None.
Proof.
  intros Ha Hout. destruct a as [|l]; [done|]. destruct Ha as [Hlen Hl]. simpl.
  destruct (decide (- size ≤ x < size)) as [Hx|Hx].
  - rewrite getitem_mod by lia.
    assert (0 ≤ x `mod` size < size) as Hm by (apply Z.mod_pos_bound; lia).
    rewrite Hlen.
    destruct (lookup_lt_is_Some_2 l (Z.to_nat (x `mod` size))) as [sub Hsub]; [lia|].
    rewrite Hsub. simpl.
    assert (has_shape [size] sub) as Hss.
    { rewrite Forall_lookup in Hl. by eapply Hl. }
    destruct sub as [|l']; [done|]. destruct Hss as [Hlen' _]. simpl.
    rewrite getitem_out by lia. done.
  - rewrite getitem_out by lia. done.
Qed.

Lemma zeros2_spec size :
  0 ≤ size →
  ∃ occupied, zeros2 size = Ok occupied ∧ has_shape [size; size] occupied ∧
    ∀ coords, lattice [size; size] coords → nd_get occupied coords = Some 0.
Proof.
  intros Hs. unfold zeros2. destruct (Z.ltb_spec size 0); [lia|].
  eexists. split; [done|]. split.
  - simpl. rewrite length_replicate. split; [lia|].
    apply Forall_replicate. simpl. rewrite length_replicate. split; [lia|].
    by apply Forall_replicate.
  - intros coords Hc.
    apply Forall2_cons_inv_r in Hc as (x & cs & Hx & Hc & ->).
    apply Forall2_cons_inv_r in Hc as (y & cs' & Hy & Hc & ->).
    apply Forall2_nil_inv_r in Hc as ->. simpl.
    rewrite getitem_site by (rewrite length_replicate; lia).
    rewrite lookup_replicate_2 by lia. simpl.
    rewrite getitem_site by (rewrite length_replicate; lia).
    rewrite lookup_replicate_2 by lia. done.
Qed.

(** ** [bin_positions] *)

Lemma in_grid_coords size pos :
  in_grid size pos ↔
  Forall2 (λ c s, - s ≤ c < s) [py_int pos.1; py_int pos.2] [size; size].
Proof.
  unfold in_grid. split.
  - intros [? ?]. constructor; [done|]. constructor; [done|]. constructor.
  - intros H. apply Forall2_cons_1 in H as [? H]. apply Forall2_cons_1 in H as [? _].
    done.
Qed.

Lemma bin_loop_cons occupied pos positions :
  spatial_tomography.bin_loop occupied (pos :: positions) =
  occupied' ← nd_assign occupied [py_int pos.1; py_int pos.2] 1;
  spatial_tomography.bin_loop occupied' positions.
Proof. done. Qed.

Lemma nd_assign_Some {A} (a a' : ndarray A) coords v :
  nd_set a coords v = Some a' → nd_assign a coords v = Ok a'.
Proof. unfold nd_assign. by intros ->. Qed.

Lemma nd_assign_out {A} (x y : Z) (a : ndarray A) (v : A) :
  nd_set a [x; y] v = None →
  - 2 ^ 63 < x < 2 ^ 63 → - 2 ^ 63 < y < 2 ^ 63 →
  nd_assign a [x; y] v = Err IndexError.
Proof.
  intros Hset Hx Hy. unfold nd_assign, fits_index. rewrite Hset. simpl.
  destruct (Z.leb_spec (- 2 ^ 63) x); [|lia]. destruct (Z.ltb_spec x (2 ^ 63)); [|lia].
  destruct (Z.leb_spec (- 2 ^ 63) y); [|lia]. destruct (Z.ltb_spec y (2 ^ 63)); [|lia].
  done.
Qed.

Lemma bin_loop_spec size occupied positions :
  has_shape [size; size] occupied → Forall (in_grid size) positions →
  ∃ occupied', spatial_tomography.bin_loop occupied positions = Ok occupied' ∧
    has_shape [size; size] occupied' ∧
    ∀ coords, lattice [size; size] coords →
      nd_get occupied' coords =
      if bool_decide (Exists (λ pos, bin_of size pos = coords) positions) then Some 1
      else nd_get occupied coords.
Proof.
  intros Hsh Hpos. revert occupied Hsh.
  induction Hpos as [|pos positions Hin _ IH]; intros occupied Hsh.
  - exists occupied. split_and!; [done..|]. intros coords _.
    rewrite bool_decide_eq_false_2; [done|]. by intros ?%Exists_nil.
  - rewrite bin_loop_cons.
    destruct (nd_set_spec [size; size] [py_int pos.1; py_int pos.2] occupied 1 Hsh)
      as (occ1 & Hset & Hsh1 & Hget1); [by apply in_grid_coords|].
    rewrite (nd_assign_Some _ _ _ _ Hset). simpl.
    destruct (IH occ1 Hsh1) as (occ2 & Hloop & Hsh2 & Hget2).
    exists occ2. split_and!; [done..|]. intros coords Hc.
    rewrite Hget2, Hget1 by done.
    change (zip_with Z.modulo [py_int pos.1; py_int pos.2] [size; size])
      with (bin_of size pos).
    destruct (decide (Exists (λ pos, bin_of size pos = coords) positions)) as [He|He].
    + rewrite !bool_decide_eq_true_2; [done| |done]. by apply Exists_cons_tl.
    + rewrite (bool_decide_eq_false_2 _ He).
      destruct (decide (coords = bin_of size pos)) as [->|Hne].
      * rewrite !bool_decide_eq_true_2; [done| |done]. by apply Exists_cons_hd.
      * rewrite !bool_decide_eq_false_2; [done| |done].
        intros [?|?]%Exists_cons; congruence.
Qed.

Lemma bin_loop_out size occupied positions :
  has_shape [size; size] occupied → Exists (λ pos, ¬ in_grid size pos) positions →
  ∃ e, spatial_tomography.bin_loop occupied positions = Err e.
Proof.
  intros Hsh Hex. revert occupied Hsh.
  induction positions as [|pos positions IH]; intros occupied Hsh.
  - by apply Exists_nil in Hex.
  - rewrite bin_loop_cons. destruct (decide (in_grid size pos)) as [Hin|Hout].
    + destruct (nd_set_spec [size; size] [py_int pos.1; py_int pos.2] occupied 1 Hsh)
        as (occ1 & Hset & Hsh1 & _); [by apply in_grid_coords|].
      rewrite (nd_assign_Some _ _ _ _ Hset). simpl. apply IH; [|done].
      apply Exists_cons in Hex as [?|?]; done.
    + unfold nd_assign. rewrite (nd_set_out _ _ size) by done.
      destruct (forallb _ _); by eexists.
Qed.

Lemma bin_loop_index_error size occupied positions :
  has_shape [size; size] occupied → Forall index_sized positions →
  Exists (λ pos, ¬ in_grid size pos) positions →
  spatial_tomography.bin_loop occupied positions = Err IndexError.
Proof.
  intros Hsh Hfit Hex. revert occupied Hsh.
  induction Hfit as [|pos positions [Hx Hy] _ IH]; intros occupied Hsh.
  - by apply Exists_nil in Hex.
  - rewrite bin_loop_cons. destruct (decide (in_grid size pos)) as [Hin|Hout].
    + destruct (nd_set_spec [size; size] [py_int pos.1; py_int pos.2] occupied 1 Hsh)
        as (occ1 & Hset & Hsh1 & _); [by apply in_grid_coords|].
      rewrite (nd_assign_Some _ _ _ _ Hset). simpl. apply IH; [|done].
      apply Exists_cons in Hex as [?|?]; done.
    + rewrite nd_assign_out; [done| |done..]. by apply (nd_set_out _ _ size).
Qed.

Lemma bin_positions_spec (positions : list (Q * Q)) (size : Z) :
  0 ≤ size → Forall (in_grid size) positions →
  ∃ occupied,
    spatial_tomography.bin_positions positions size = Ok occupied ∧
    has_shape [size; size] occupied ∧
    ∀ coords, lattice [size; size] coords →
      nd_get occupied coords =
      Some (if bool_decide (Exists (λ pos, bin_of size pos = coords) positions)
            then 1 else 0).
Proof.
  intros Hs Hpos. unfold spatial_tomography.bin_positions.
  destruct (zeros2_spec size Hs) as (occ0 & -> & Hsh0 & Hget0). simpl.
  destruct (bin_loop_spec size occ0 positions Hsh0 Hpos) as (occ & Hloop & Hsh & Hget).
  exists occ. split_and!; [done..|]. intros coords Hc.
  rewrite Hget, Hget0 by done. by destruct (bool_decide _).
Qed.

(** X1. For size >= 0 and positions whose truncated coordinates int(x), int(y) all lie in [-size, size), bin_positions of spatial_tomography.py returns a size-by-size grid whose entry at (a, b) is 1 if some particle has (int(x) mod size, int(y) mod size) = (a, b) and 0 otherwise; int truncates toward zero and a negative index counts from the end of its axis. *)
Theorem bin_positions_marks_bins (positions : list (Q * Q)) (size : Z) :
  0 ≤ size → Forall (in_grid size) positions →
  ∃ occupied,
    spatial_tomography.bin_positions positions size = Ok occupied ∧
    has_shape [size; size] occupied ∧
    ∀ coords, lattice [size; size] coords →
      nd_get occupied coords =
      Some (if bool_decide (Exists (λ pos, bin_of size pos = coords) positions)
            then 1 else 0).
Proof. apply bin_positions_spec. Qed.

Lemma bin_positions_marks_bins_witness :
  ∃ occupied,
    spatial_tomography.bin_positions [(3 # 2, -1 # 2); (-1 # 1, 5 # 4)]%Q 2
    = Ok occupied ∧
    has_shape [2; 2] occupied ∧
    ∀ coords, lattice [2; 2] coords →
      nd_get occupied coords =
      Some (if bool_decide (Exists (λ pos, bin_of 2 pos = coords)
                              [(3 # 2, -1 # 2); (-1 # 1, 5 # 4)]%Q)
            then 1 else 0).
Proof.
  apply bin_positions_marks_bins; [lia|].
  repeat constructor; vm_compute; congruence.
Defined.

(** X2. For size >= 0 and positions whose truncated coordinates int(x), int(y) all lie strictly between -2^63 and 2^63, so that they fit the index type of an array, bin_positions of spatial_tomography.py raises IndexError if and only if some position has a truncated coordinate outside [-size, size). *)
Theorem bin_positions_raises_outside_grid (positions : list (Q * Q)) (size : Z) :
  0 ≤ size → Forall index_sized positions →
  spatial_tomography.bin_positions positions size = Err IndexError ↔
  Exists (λ pos, ¬ in_grid size pos) positions.
Proof.
  intros Hs Hfit. split.
  - intros Herr.
    destruct (decide (Forall (in_grid size) positions)) as [Hall|Hnot].
    + destruct (bin_positions_spec positions size Hs Hall) as (occ & Hok & _).
      congruence.
    + by apply not_Forall_Exists in Hnot; [|apply _].
  - intros Hex. unfold spatial_tomography.bin_positions.
    destruct (zeros2_spec size Hs) as (occ0 & -> & Hsh0 & _). simpl.
    by apply (bin_loop_index_error size).
Qed.

Lemma bin_positions_raises_outside_grid_witness :
  spatial_tomography.bin_positions [(1 # 2, 1 # 2); (1 # 2, 5 # 2)]%Q 2
    = Err IndexError ↔
  Exists (λ pos, ¬ in_grid 2 pos) [(1 # 2, 1 # 2); (1 # 2, 5 # 2)]%Q.
Proof.
  apply bin_positions_raises_outside_grid; [lia|].
  repeat constructor; vm_compute; congruence.
Defined.

(** A coordinate of [2^63] does not fit the index type: the assignment
    raises OverflowError, not IndexError. *)
Lemma bin_positions_overflow :
  spatial_tomography.bin_positions [(inject_Z (2 ^ 63), 0%Q)] 2 = Err OverflowError.
Proof. reflexivity. Qed.

(** ** The two copies of [bin_positions] *)

Lemma cm_bin_loop_spec size occupied done i positions :
  i = Z.of_nat (length done) →
  cluster_membership.bin_loop size occupied
    (done ++ replicate (length positions) 0) i positions =
  occupied' ← spatial_tomography.bin_loop occupied positions;
  Ok (occupied', done ++ ((λ pos, size * py_int pos.2 + py_int pos.1) <$> positions)).
Proof.
  revert occupied done i. induction positions as [|pos positions IH];
    intros occupied done i ->.
  - done.
  - rewrite bin_loop_cons. cbn [cluster_membership.bin_loop].
    destruct (nd_assign occupied _ 1) as [occ1|]; [|done]. simpl.
    rewrite setitem_site by (rewrite length_app; simpl; lia).
    rewrite Nat2Z.id. simpl.
    replace (<[length done := size * py_int pos.2 + py_int pos.1]>
               (done ++ 0 :: replicate (length positions) 0))
      with ((done ++ [size * py_int pos.2 + py_int pos.1])
              ++ replicate (length positions) 0).
    2:{ rewrite insert_app_r_alt by lia. rewrite Nat.sub_diag. simpl.
        by rewrite <- app_assoc. }
    rewrite IH by (rewrite length_app; simpl; lia).
    destruct (spatial_tomography.bin_loop occ1 positions); [|done]. simpl.
    by rewrite <- app_assoc.
Qed.

Lemma cm_bin_positions_eq (positions : list (Q * Q)) (size : Z) :
  cluster_membership.bin_positions positions size =
  occupied ← spatial_tomography.bin_positions positions size;
  Ok (occupied, (λ pos, size * py_int pos.2 + py_int pos.1) <$> positions).
Proof.
  unfold cluster_membership.bin_positions, spatial_tomography.bin_positions.
  destruct (zeros2 size) as [occ0|]; [|done]. simpl.
  apply (cm_bin_loop_spec size occ0 [] 0). done.
Qed.

(** X3. bin_positions of cluster_membership.py returns the same grid as bin_positions of spatial_tomography.py and raises in the same cases; beside the grid it returns one bin index size*int(y) + int(x) per particle, in the order of the particles. *)
Theorem bin_positions_same_grid (positions : list (Q * Q)) (size : Z) :
  cluster_membership.bin_positions positions size =
  occupied ← spatial_tomography.bin_positions positions size;
  Ok (occupied, (λ pos, size * py_int pos.2 + py_int pos.1) <$> positions).
Proof. apply cm_bin_positions_eq. Qed.

Lemma lattice_2d s1 s2 a b : 0 ≤ a < s1 → 0 ≤ b < s2 → lattice [s1; s2] [a; b].
Proof. intros Ha Hb. constructor; [done|]. constructor; [done|]. constructor. Qed.

Lemma bin_loop_inv size occupied positions occupied' :
  has_shape [size; size] occupied →
  spatial_tomography.bin_loop occupied positions = Ok occupied' →
  Forall (in_grid size) positions.
Proof.
  intros Hsh Hok.
  destruct (decide (Forall (in_grid size) positions)) as [|Hnot]; [done|].
  apply not_Forall_Exists in Hnot; [|apply _].
  destruct (bin_loop_out size occupied positions Hsh Hnot) as [e He]. congruence.
Qed.

(** X4. When bin_positions of cluster_membership.py returns, a particle with 0 <= int(x), int(y) < size has its grid entry set at [int(x), int(y)], while the bin index recorded for it, size*int(y) + int(x), is the flat index that hoshen_kopelman_nd gives to the site with the two coordinates swapped, [int(y), int(x)]. *)
Theorem particle_bin_is_transposed_site (positions : list (Q * Q)) (size : Z)
    (occupied : ndarray Z) (particle_bin : list Z) (i : nat) (pos : Q * Q) :
  cluster_membership.bin_positions positions size = Ok (occupied, particle_bin) →
  positions !! i = Some pos →
  0 ≤ py_int pos.1 < size → 0 ≤ py_int pos.2 < size →
  nd_get occupied [py_int pos.1; py_int pos.2] = Some 1 ∧
  particle_bin !! i = Some (site_index [size; size] [py_int pos.2; py_int pos.1]).
Proof.
  intros Hbin Hpos Hx Hy. rewrite cm_bin_positions_eq in Hbin.
  destruct (spatial_tomography.bin_positions positions size) as [occ|] eqn:Hocc;
    [|done].
  simpl in Hbin. injection Hbin as -> <-.
  unfold spatial_tomography.bin_positions in Hocc.
  destruct (zeros2_spec size) as (occ0 & Hz & Hsh0 & _); [lia|].
  rewrite Hz in Hocc. simpl in Hocc.
  pose proof (bin_loop_inv size _ _ _ Hsh0 Hocc) as Hall.
  destruct (bin_loop_spec size occ0 positions Hsh0 Hall) as (occ' & Hloop & _ & Hget).
  assert (occ' = occupied) as -> by congruence.
  split.
  - rewrite Hget by (by apply lattice_2d).
    rewrite bool_decide_eq_true_2; [done|].
    apply Exists_exists. exists pos. split; [by eapply list_elem_of_lookup_2|].
    unfold bin_of. by rewrite !Z.mod_small by lia.
  - rewrite list_lookup_fmap, Hpos. simpl. f_equal. lia.
Qed.

Lemma particle_bin_is_transposed_site_witness :
  nd_get (Arr [Arr [Scalar 0; Scalar 1]; Arr [Scalar 0; Scalar 0]])
    [py_int (1 # 2); py_int (3 # 2)] = Some 1 ∧
  [2] !! 0%nat = Some (site_index [2; 2] [py_int (3 # 2); py_int (1 # 2)]).
Proof.
  apply (particle_bin_is_transposed_site [(1 # 2, 3 # 2)]%Q 2 _ _ 0 (1 # 2, 3 # 2)%Q);
    [reflexivity|reflexivity|vm_compute; split; congruence..].
Defined.

(** ** Collecting the particles of each label *)

Lemma elem_of_members i pl lab x :
  x ∈ members i pl lab ↔ ∃ k : nat, pl !! k = Some lab ∧ x = i + Z.of_nat k.
Proof.
  revert i. induction pl as [|l pl IH]; intros i; simpl.
  - split; [by intros ?%elem_of_nil|]. by intros (k & ? & _).
  - destruct (Z.eqb_spec l lab) as [->|Hne].
    + rewrite elem_of_cons, IH. split.
      * intros [->|(k & Hk & ->)]; [exists 0%nat|exists (S k)]; split; (done || lia).
      * intros ([|k] & Hk & ->); [left; lia|right]. exists k. split; [done|lia].
    + rewrite IH. split.
      * intros (k & Hk & ->). exists (S k). split; [done|lia].
      * intros ([|k] & Hk & ->); [simpl in Hk; congruence|].
        exists k. split; [done|lia].
Qed.

Lemma members_sorted i pl lab : StronglySorted Z.lt (members i pl lab).
Proof.
  revert i. induction pl as [|l pl IH]; intros i; simpl; [constructor|].
  destruct (l =? lab); [|done]. constructor; [done|].
  apply Forall_forall. intros x (k & _ & ->)%elem_of_members. lia.
Qed.

Lemma collect_spec clusters i particle_labels :
  Forall (λ lab, 0 ≤ lab < Z.of_nat (length clusters)) particle_labels →
  ∃ clusters', cluster_membership.collect clusters i particle_labels = Ok clusters' ∧
    length clusters' = length clusters ∧
    ∀ (k : nat) c, clusters !! k = Some c →
      clusters' !! k = Some (c ++ members i particle_labels (Z.of_nat k)).
Proof.
  intros Hpl. revert clusters i Hpl.
  induction particle_labels as [|lab pl IH]; intros clusters i Hpl.
  - exists clusters. split_and!; [done..|]. intros k c Hk. by rewrite app_nil_r.
  - apply Forall_cons in Hpl as [Hlab Hpl]. simpl.
    rewrite getitem_site by done.
    destruct (lookup_lt_is_Some_2 clusters (Z.to_nat lab)) as [c0 Hc0]; [lia|].
    rewrite Hc0. simpl. rewrite setitem_site by done. simpl.
    destruct (IH (<[Z.to_nat lab := c0 ++ [i]]> clusters) (i + 1))
      as (clusters' & Hrun & Hlen & Hget).
    { by rewrite length_insert. }
    exists clusters'. split; [done|]. split; [by rewrite Hlen, length_insert|].
    intros k c Hk. destruct (decide (k = Z.to_nat lab)) as [->|Hne].
    + rewrite (Hget _ (c0 ++ [i])) by (by rewrite list_lookup_insert_eq by lia).
      rewrite Z2Nat.id by lia. rewrite Z.eqb_refl.
      assert (c = c0) as -> by congruence. by rewrite <- app_assoc.
    + rewrite (Hget _ c) by (by rewrite list_lookup_insert_ne by done).
      destruct (Z.eqb_spec lab (Z.of_nat k)); [lia|done].
Qed.

Lemma singles_spec clusters to_pop (ns : list nat) :
  Forall (λ n, (n < length clusters)%nat) ns →
  cluster_membership.singles clusters to_pop (Z.of_nat <$> ns) =
  Ok (to_pop ++ (Z.of_nat <$>
        filter (λ n, (length (default [] (clusters !! n)) ≤ 1)%nat) ns)).
Proof.
  intros Hns. revert to_pop. induction Hns as [|n ns Hn _ IH]; intros to_pop.
  - simpl. by rewrite app_nil_r.
  - rewrite fmap_cons. cbn [cluster_membership.singles].
    rewrite getitem_site by lia. rewrite Nat2Z.id.
    destruct (lookup_lt_is_Some_2 clusters n) as [c Hc]; [lia|].
    rewrite Hc. simpl. rewrite IH. rewrite filter_cons. rewrite Hc. simpl.
    destruct (Nat.leb_spec (length c) 1).
    + rewrite decide_True by done. rewrite fmap_cons. by rewrite <- app_assoc.
    + rewrite decide_False by lia. done.
Qed.

Lemma filter_ext_in {A} (P1 P2 : A → Prop) `{!∀ x, Decision (P1 x)}
    `{!∀ x, Decision (P2 x)} (l : list A) :
  (∀ x, x ∈ l → P1 x ↔ P2 x) → filter P1 l = filter P2 l.
Proof.
  induction l as [|a l IH]; intros Hiff; [done|].
  rewrite !filter_cons. rewrite IH by (intros x Hx; apply Hiff; by right).
  destruct (decide (P1 a)) as [H1|H1], (decide (P2 a)) as [H2|H2]; try done.
  - by apply Hiff in H1; [|left].
  - by apply Hiff in H2; [|left].
Qed.

Lemma pop_all_spec (pre post : list (list Z)) :
  cluster_membership.pop_all (pre ++ post)
    (reverse (Z.of_nat <$>
       filter (λ n, (length (default [] ((pre ++ post) !! n)) ≤ 1)%nat)
         (seq 0 (length pre)))) =
  Ok (filter (λ c, (1 < length c)%nat) pre ++ post).
Proof.
  revert post. induction pre as [|c pre IH] using rev_ind; intros post; [done|].
  rewrite length_app, Nat.add_1_r, seq_S, !filter_app. simpl.
  rewrite filter_cons, filter_nil, (filter_cons _ c), filter_nil.
  rewrite <- (app_assoc pre [c] post). simpl.
  rewrite list_lookup_middle by done. simpl.
  destruct (decide (length c ≤ 1)%nat) as [Hle|Hgt].
  - rewrite decide_False by lia. rewrite app_nil_r.
    rewrite fmap_app, reverse_app. simpl.
    unfold list_pop. rewrite py_index_site by (rewrite length_app; simpl; lia).
    simpl. rewrite Nat2Z.id, delete_middle.
    rewrite <- IH. do 3 f_equal. apply filter_ext_in.
    intros n Hn%elem_of_seq.
    rewrite !lookup_app_l by lia. done.
  - rewrite decide_True by lia. rewrite !app_nil_r.
    rewrite <- app_assoc. simpl. apply IH.
Qed.

Lemma np_max_spec (l : list Z) :
  l ≠ [] → ∃ top, np_max l = Ok top ∧ top ∈ l ∧ Forall (λ x, x ≤ top) l.
Proof.
  destruct l as [|x l]; [done|]. intros _. simpl. eexists. split; [done|].
  assert (∀ acc, (foldl Z.max acc l = acc ∨ foldl Z.max acc l ∈ l) ∧
                 acc ≤ foldl Z.max acc l ∧
                 Forall (λ y, y ≤ foldl Z.max acc l) l) as Hfold.
  { induction l as [|y l IH]; intros acc; simpl.
    - split_and!; [by left|lia|constructor].
    - destruct (IH (Z.max acc y)) as (Hin & Hle & Hall). split_and!.
      + destruct Hin as [Heq|Hin]; [|right; by right].
        rewrite Heq. destruct (Z.max_spec acc y) as [[_ ->]|[_ ->]];
          [right; left|left]; done.
      + lia.
      + constructor; [lia|done]. }
  destruct (Hfold x) as (Hin & Hle & Hall). split.
  - destruct Hin as [->|Hin]; [left|by right].
  - by constructor.
Qed.

Lemma range_seq n : range n = Z.of_nat <$> seq 0 (Z.to_nat n).
Proof.
  unfold range, seqZ. apply list_fmap_ext. intros _ k _. lia.
Qed.

Lemma range_snoc n : 0 ≤ n → range (n + 1) = range n ++ [n].
Proof.
  intros Hn. rewrite !range_seq. rewrite Z2Nat.inj_add by lia.
  change (Z.to_nat 1) with 1%nat. rewrite Nat.add_1_r, seq_S, fmap_app. simpl.
  by rewrite Z2Nat.id by lia.
Qed.

Lemma collect_members (top : Z) (particle_labels : list Z) :
  0 ≤ top → Forall (λ lab, 0 ≤ lab ≤ top) particle_labels →
  cluster_membership.collect (replicate (Z.to_nat (top + 1)) []) 0 particle_labels =
  Ok ((members 0 particle_labels <$> range top) ++ [members 0 particle_labels top]).
Proof.
  intros Htop Hpl.
  destruct (collect_spec (replicate (Z.to_nat (top + 1)) []) 0 particle_labels)
    as (clusters & Hrun & Hlen & Hget).
  { rewrite length_replicate. eapply Forall_impl; [done|]. simpl. lia. }
  rewrite Hrun. f_equal. rewrite length_replicate in Hlen.
  change [members 0 particle_labels top] with (members 0 particle_labels <$> [top]).
  rewrite <- fmap_app, <- range_snoc by done.
  apply list_eq. intros k. rewrite list_lookup_fmap.
  destruct (decide (k < Z.to_nat (top + 1))%nat) as [Hk|Hk].
  - rewrite (Hget k []) by (by apply lookup_replicate_2). simpl.
    unfold range. rewrite (lookup_seqZ_lt _ _ k) by lia. done.
  - rewrite lookup_ge_None_2 by lia.
    unfold range. rewrite lookup_seqZ_ge by lia. done.
Qed.

Lemma cluster_membership_spec fuel (binned : ndarray Z) (particle_bin : list Z)
    (size : Z) :
  1 ≤ size → has_shape [size; size] binned → (Z.to_nat (size * size) < fuel)%nat →
  Forall (λ b, - (size * size) ≤ b < size * size) particle_bin →
  ∃ bonds labels particle_labels top LC_label LC_size,
    get_bonds_nd binned 2 "one" = Ok (BondsOne bonds) ∧
    well_formed bonds [size; size] 2 "pp" ∧
    hoshen_kopelman_nd fuel bonds [size; size] 2 "pp" false = Ok labels ∧
    Z.of_nat (length labels) = size * size ∧
    Forall2 (λ b lab, getitem labels b = Some lab) particle_bin particle_labels ∧
    np_max labels = Ok top ∧ 0 ≤ top ∧
    Forall (λ lab, 0 ≤ lab ≤ top) particle_labels ∧
    most_common1 (counter labels) = Ok (LC_label, LC_size) ∧
    (∀ c c', lattice [size; size] c → lattice [size; size] c' →
       getitem labels (site_index [size; size] c)
       = getitem labels (site_index [size; size] c') ↔
       connected bonds [size; size] "pp" c c') ∧
    cluster_membership.cluster_membership fuel binned particle_bin size =
    Ok (filter (λ c, (1 < length c)%nat) (members 0 particle_labels <$> range top)
          ++ [members 0 particle_labels top], LC_size).
Proof.
  intros Hsize Hsh Hfuel Hbin.
  destruct (analysis_bonds binned size Hsh) as (bonds & Hbonds & Hwf & _).
  destruct (hk_canonical fuel bonds [size; size] 2 "pp" Hwf)
    as (labels & Hhk & Hlen & Hroots & Heq);
    [by repeat constructor|by rewrite prod_square|].
  rewrite prod_square in Hlen, Hroots.
  assert (labels ≠ []) as Hne by (intros ->; simpl in Hlen; nia).
  destruct (most_common1_nonempty labels Hne) as (LC_label & LC_size & HLC).
  destruct (np_max_spec labels Hne) as (top & Htop & Hin & Hle).
  assert (Forall (λ lab, 0 ≤ lab ≤ top) labels) as Hlabs.
  { apply Forall_forall. intros lab Hlab. split; [|by eapply Forall_forall in Hle].
    apply list_elem_of_lookup in Hlab as [k Hk].
    pose proof (lookup_lt_Some _ _ _ Hk).
    destruct (Hroots (Z.of_nat k)) as (r & Hr & Hget & _); [lia|].
    rewrite getitem_site, Nat2Z.id in Hget by lia. assert (r = lab) by congruence. lia. }
  assert (0 ≤ top) as Htop0.
  { eapply Forall_forall in Hlabs; [|done]. simpl in Hlabs. lia. }
  assert (∃ pl, mapM (getitem labels) particle_bin = Some pl) as [pl Hpl].
  { apply mapM_is_Some. eapply Forall_impl; [done|]. simpl. intros b Hb.
    rewrite getitem_mod by lia. apply lookup_lt_is_Some_2.
    assert (0 ≤ b `mod` Z.of_nat (length labels) < Z.of_nat (length labels)); [|lia].
    apply Z.mod_pos_bound. lia. }
  pose proof Hpl as Hpl2. apply mapM_Some in Hpl2.
  assert (Forall (λ lab, 0 ≤ lab ≤ top) pl) as Hpls.
  { apply Forall_forall. intros lab Hlab.
    apply list_elem_of_lookup in Hlab as [k Hk].
    destruct (Forall2_lookup_r _ _ _ _ _ Hpl2 Hk) as (b & _ & Hb).
    apply getitem_elem_of in Hb. by eapply Forall_forall in Hlabs. }
  exists bonds, labels, pl, top, LC_label, LC_size.
  split; [done|]. split; [done|]. split; [done|]. split; [lia|]. split; [done|].
  split; [done|]. split; [done|]. split; [done|]. split; [done|]. split; [done|].
  unfold cluster_membership.cluster_membership.
  rewrite Hbonds. simpl. rewrite Hhk. simpl. rewrite HLC. simpl.
  rewrite Hpl. simpl. rewrite Htop. simpl.
  rewrite collect_members by done.
  simpl. rewrite (range_seq top) at 2.
  set (pre := members 0 pl <$> range top).
  set (post := [members 0 pl top]).
  assert (length pre = Z.to_nat top) as Hpre.
  { unfold pre, range. by rewrite length_fmap, length_seqZ. }
  rewrite singles_spec.
  2:{ apply Forall_forall. intros n Hn%elem_of_seq.
      rewrite length_app, Hpre. simpl. lia. }
  simpl. rewrite <- Hpre. rewrite pop_all_spec. done.
Qed.

(** ** The lists of [cluster_membership] *)

Lemma members_label pl lab x :
  x ∈ members 0 pl lab ↔ 0 ≤ x ∧ pl !! Z.to_nat x = Some lab.
Proof.
  rewrite elem_of_members. split.
  - intros (k & Hk & ->). split; [lia|]. by rewrite Z.add_0_l, Nat2Z.id.
  - intros [Hx Hl]. exists (Z.to_nat x). split; [done|lia].
Qed.

Lemma particle_label_spec labels particle_bin pl x lab :
  Forall2 (λ b lab, getitem labels b = Some lab) particle_bin pl →
  particle_label labels particle_bin x = Some lab ↔
  0 ≤ x ∧ pl !! Z.to_nat x = Some lab.
Proof.
  intros Hpl. unfold particle_label. destruct (Z.ltb_spec x 0).
  - split; [done|lia].
  - split.
    + destruct (particle_bin !! Z.to_nat x) as [b|] eqn:Hb; [|done]. simpl.
      intros Hlab. split; [done|].
      destruct (Forall2_lookup_l _ _ _ _ _ Hpl Hb) as (lab' & Hl & Hg). congruence.
    + intros [_ Hl].
      destruct (Forall2_lookup_r _ _ _ _ _ Hpl Hl) as (b & -> & Hg). done.
Qed.

Lemma members_NoDup i pl lab : NoDup (members i pl lab).
Proof.
  revert i. induction pl as [|l pl IH]; intros i; simpl; [constructor|].
  destruct (l =? lab); [|done]. constructor; [|done].
  intros (k & _ & ?)%elem_of_members. lia.
Qed.

Lemma members_concat_NoDup (P : list Z → Prop) `{!∀ c, Decision (P c)} pl labs :
  NoDup labs → NoDup (concat (filter P (members 0 pl <$> labs))).
Proof.
  induction 1 as [|lab labs Hnotin Hnd IH]; [constructor|].
  rewrite fmap_cons, filter_cons. destruct (decide (P _)); [|done].
  simpl. apply NoDup_app. split; [apply members_NoDup|]. split; [|done].
  intros x Hx Hx'. apply list_elem_of_In, in_concat in Hx' as (c & Hc & Hxc).
  apply list_elem_of_In, list_elem_of_filter in Hc as [_ Hc].
  apply list_elem_of_fmap in Hc as (lab' & -> & Hlab').
  apply list_elem_of_In in Hxc.
  apply members_label in Hx as [_ Hx]. apply members_label in Hxc as [_ Hxc].
  congruence.
Qed.

Lemma elem_of_cluster_lists pl top c :
  0 ≤ top →
  c ∈ filter (λ c, (1 < length c)%nat) (members 0 pl <$> range top)
        ++ [members 0 pl top] ↔
  ∃ lab, 0 ≤ lab ≤ top ∧ c = members 0 pl lab ∧ ((1 < length c)%nat ∨ lab = top).
Proof.
  intros Htop. rewrite elem_of_app, list_elem_of_filter, list_elem_of_fmap,
    list_elem_of_singleton.
  split.
  - intros [[Hbig (lab & -> & Hlab)]| ->].
    + exists lab. unfold range in Hlab. apply elem_of_seqZ in Hlab.
      split; [lia|]. split; [done|]. by left.
    + exists top. split; [lia|]. split; [done|]. by right.
  - intros (lab & Hlab & -> & [Hbig| ->]); [|by right].
    destruct (decide (lab = top)) as [->|Hne]; [by right|]. left. split; [done|].
    exists lab. split; [done|]. unfold range. apply elem_of_seqZ. lia.
Qed.

Lemma cluster_lists_NoDup pl top :
  0 ≤ top →
  NoDup (concat (filter (λ c, (1 < length c)%nat) (members 0 pl <$> range top)
                   ++ [members 0 pl top])).
Proof.
  intros Htop. rewrite concat_app. simpl. rewrite app_nil_r.
  apply NoDup_app. split; [|split; [|apply members_NoDup]].
  - apply members_concat_NoDup. apply NoDup_seqZ.
  - intros x Hx Hx'. apply list_elem_of_In, in_concat in Hx as (c & Hc & Hxc).
    apply list_elem_of_In, list_elem_of_filter in Hc as [_ Hc].
    apply list_elem_of_fmap in Hc as (lab' & -> & Hlab').
    apply list_elem_of_In in Hxc.
    apply members_label in Hx' as [_ Hx']. apply members_label in Hxc as [_ Hxc].
    unfold range in Hlab'. apply elem_of_seqZ in Hlab'.
    assert (lab' = top) by congruence. lia.
Qed.

Lemma two_elements {A} (l : list A) x y : x ∈ l → y ∈ l → x ≠ y → (1 < length l)%nat.
Proof.
  destruct l as [|a [|b l]]; simpl; [by intros ?%elem_of_nil| |lia].
  intros ->%list_elem_of_singleton ->%list_elem_of_singleton. done.
Qed.

(** X5. For a size-by-size grid (size >= 1) and bin indices inside [-size*size, size*size), cluster_membership returns, in increasing order of label, the particle lists of the labels below the largest label that hold at least two particles, followed by the particle list of the largest label whatever its length (the loop over range(np.max(labels)) never removes it); the second result is the count of the most common label. *)
Theorem cluster_membership_lists (fuel : nat) (binned : ndarray Z)
    (particle_bin : list Z) (size : Z) :
  1 ≤ size → has_shape [size; size] binned → (Z.to_nat (size * size) < fuel)%nat →
  Forall (λ b, - (size * size) ≤ b < size * size) particle_bin →
  ∃ bonds labels particle_labels top LC_label LC_size,
    get_bonds_nd binned 2 "one" = Ok (BondsOne bonds) ∧
    hoshen_kopelman_nd fuel bonds [size; size] 2 "pp" false = Ok labels ∧
    Forall2 (λ b lab, getitem labels b = Some lab) particle_bin particle_labels ∧
    np_max labels = Ok top ∧
    most_common1 (counter labels) = Ok (LC_label, LC_size) ∧
    cluster_membership.cluster_membership fuel binned particle_bin size =
    Ok (filter (λ c, (1 < length c)%nat) (members 0 particle_labels <$> range top)
          ++ [members 0 particle_labels top], LC_size).
Proof.
  intros Hsize Hsh Hfuel Hbin.
  destruct (cluster_membership_spec fuel binned particle_bin size Hsize Hsh Hfuel Hbin)
    as (bonds & labels & pl & top & LC_label & LC_size &
        Hbonds & _ & Hhk & _ & Hpl & Htop & _ & _ & HLC & _ & Hrun).
  by exists bonds, labels, pl, top, LC_label, LC_size.
Qed.

(** X6. The lists returned by cluster_membership are never an empty list of lists; no particle occurs twice in them; each list is strictly increasing; and each list that holds a particle holds exactly the particles i whose label labels[particle_bin[i]] is that particle's label. *)
Theorem cluster_membership_partitions (fuel : nat) (binned : ndarray Z)
    (particle_bin : list Z) (size : Z) :
  1 ≤ size → has_shape [size; size] binned → (Z.to_nat (size * size) < fuel)%nat →
  Forall (λ b, - (size * size) ≤ b < size * size) particle_bin →
  ∃ bonds labels clusters LC_size,
    get_bonds_nd binned 2 "one" = Ok (BondsOne bonds) ∧
    hoshen_kopelman_nd fuel bonds [size; size] 2 "pp" false = Ok labels ∧
    cluster_membership.cluster_membership fuel binned particle_bin size
    = Ok (clusters, LC_size) ∧
    clusters ≠ [] ∧
    NoDup (concat clusters) ∧
    Forall (StronglySorted Z.lt) clusters ∧
    ∀ c i, c ∈ clusters → i ∈ c →
      ∃ lab, particle_label labels particle_bin i = Some lab ∧
        ∀ j, j ∈ c ↔ particle_label labels particle_bin j = Some lab.
Proof.
  intros Hsize Hsh Hfuel Hbin.
  destruct (cluster_membership_spec fuel binned particle_bin size Hsize Hsh Hfuel Hbin)
    as (bonds & labels & pl & top & LC_label & LC_size &
        Hbonds & _ & Hhk & _ & Hpl & Htop & Htop0 & _ & HLC & _ & Hrun).
  eexists bonds, labels, _, LC_size.
  split; [done|]. split; [done|]. split; [done|]. split; [|split; [|split]].
  - by intros [_ ?]%app_eq_nil.
  - by apply cluster_lists_NoDup.
  - apply Forall_forall. intros c (lab & _ & -> & _)%elem_of_cluster_lists; [|done].
    apply members_sorted.
  - intros c i (lab & _ & -> & _)%elem_of_cluster_lists Hi; [|done].
    exists lab. split.
    + apply (particle_label_spec _ _ pl); [done|]. by apply members_label.
    + intros j. rewrite members_label. symmetry. by apply particle_label_spec.
Qed.

Lemma cluster_membership_connected fuel (binned : ndarray Z) (particle_bin : list Z)
    (size : Z) :
  1 ≤ size → has_shape [size; size] binned → (Z.to_nat (size * size) < fuel)%nat →
  Forall (λ b, - (size * size) ≤ b < size * size) particle_bin →
  ∃ bonds clusters LC_size,
    get_bonds_nd binned 2 "one" = Ok (BondsOne bonds) ∧
    cluster_membership.cluster_membership fuel binned particle_bin size
    = Ok (clusters, LC_size) ∧
    ∀ (i j : nat) c c', i ≠ j →
      particle_bin !! i = Some (site_index [size; size] c) →
      particle_bin !! j = Some (site_index [size; size] c') →
      lattice [size; size] c → lattice [size; size] c' →
      (∃ cl, cl ∈ clusters ∧ Z.of_nat i ∈ cl ∧ Z.of_nat j ∈ cl) ↔
      connected bonds [size; size] "pp" c c'.
Proof.
  intros Hsize Hsh Hfuel Hbin.
  destruct (cluster_membership_spec fuel binned particle_bin size Hsize Hsh Hfuel Hbin)
    as (bonds & labels & pl & top & LC_label & LC_size &
        Hbonds & _ & Hhk & Hlen & Hpl & Htop & Htop0 & Hpls & HLC & Heq & Hrun).
  eexists bonds, _, LC_size. split; [done|]. split; [done|].
  intros i j c c' Hij Hi Hj Hc Hc'. rewrite <- Heq by done.
  destruct (Forall2_lookup_l _ _ _ _ _ Hpl Hi) as (li & Hli & Hgi).
  destruct (Forall2_lookup_l _ _ _ _ _ Hpl Hj) as (lj & Hlj & Hgj).
  rewrite Hgi, Hgj. split.
  - intros (cl & (lab & _ & -> & _)%elem_of_cluster_lists & Hi' & Hj'); [|done].
    apply members_label in Hi' as [_ Hi']. apply members_label in Hj' as [_ Hj'].
    rewrite Nat2Z.id in Hi', Hj'. congruence.
  - intros [= <-]. exists (members 0 pl li).
    assert (Z.of_nat i ∈ members 0 pl li) as Hi'.
    { apply members_label. rewrite Nat2Z.id. split; [lia|done]. }
    assert (Z.of_nat j ∈ members 0 pl li) as Hj'.
    { apply members_label. rewrite Nat2Z.id. split; [lia|done]. }
    split; [|done]. apply elem_of_cluster_lists; [done|]. exists li.
    split; [|split; [done|]].
    + eapply Forall_lookup in Hpls; [|exact Hli]. done.
    + left. eapply two_elements; [exact Hi'|exact Hj'|lia].
Qed.

(** X7. In cluster_membership, two distinct particles whose bin indices are the flat indices of lattice sites c and c' are returned in one list if and only if c and c' are connected by active bonds of the grid (periodic in both directions). *)
Theorem cluster_membership_groups_connected_bins (fuel : nat) (binned : ndarray Z)
    (particle_bin : list Z) (size : Z) :
  1 ≤ size → has_shape [size; size] binned → (Z.to_nat (size * size) < fuel)%nat →
  Forall (λ b, - (size * size) ≤ b < size * size) particle_bin →
  ∃ bonds clusters LC_size,
    get_bonds_nd binned 2 "one" = Ok (BondsOne bonds) ∧
    cluster_membership.cluster_membership fuel binned particle_bin size
    = Ok (clusters, LC_size) ∧
    ∀ (i j : nat) c c', i ≠ j →
      particle_bin !! i = Some (site_index [size; size] c) →
      particle_bin !! j = Some (site_index [size; size] c') →
      lattice [size; size] c → lattice [size; size] c' →
      (∃ cl, cl ∈ clusters ∧ Z.of_nat i ∈ cl ∧ Z.of_nat j ∈ cl) ↔
      connected bonds [size; size] "pp" c c'.
Proof. apply cluster_membership_connected. Qed.

(** X8. For positions with 0 <= int(x), int(y) < size, bin_positions followed by cluster_membership (both of cluster_membership.py) marks each particle's grid entry at [int(x), int(y)] and returns two distinct particles in one list if and only if the sites with swapped coordinates, [int(y), int(x)] of one and of the other, are connected by active bonds of that grid. *)
Theorem particles_grouped_by_swapped_bins (fuel : nat) (positions : list (Q * Q))
    (size : Z) :
  1 ≤ size → (Z.to_nat (size * size) < fuel)%nat →
  Forall (λ pos, 0 ≤ py_int pos.1 < size ∧ 0 ≤ py_int pos.2 < size) positions →
  ∃ binned particle_bin bonds clusters LC_size,
    cluster_membership.bin_positions positions size = Ok (binned, particle_bin) ∧
    get_bonds_nd binned 2 "one" = Ok (BondsOne bonds) ∧
    cluster_membership.cluster_membership fuel binned particle_bin size
    = Ok (clusters, LC_size) ∧
    ∀ (i j : nat) pos pos', i ≠ j →
      positions !! i = Some pos → positions !! j = Some pos' →
      nd_get binned [py_int pos.1; py_int pos.2] = Some 1 ∧
      nd_get binned [py_int pos'.1; py_int pos'.2] = Some 1 ∧
      ((∃ cl, cl ∈ clusters ∧ Z.of_nat i ∈ cl ∧ Z.of_nat j ∈ cl) ↔
       connected bonds [size; size] "pp"
         [py_int pos.2; py_int pos.1] [py_int pos'.2; py_int pos'.1]).
Proof.
  intros Hsize Hfuel Hpos.
  assert (Forall (in_grid size) positions) as Hgrid.
  { eapply Forall_impl; [done|]. unfold in_grid. simpl. lia. }
  destruct (bin_positions_spec positions size) as (binned & Hbin & Hsh & Hget);
    [lia|done|].
  set (particle_bin := (λ pos, size * py_int pos.2 + py_int pos.1) <$> positions).
  assert (Forall (λ b, - (size * size) ≤ b < size * size) particle_bin) as Hvalid.
  { apply Forall_fmap. eapply Forall_impl; [exact Hpos|]. simpl. intros pos [? ?].
    nia. }
  destruct (cluster_membership_connected fuel binned particle_bin size
              Hsize Hsh Hfuel Hvalid) as (bonds & clusters & LC_size & Hb & Hcm & Hconn).
  exists binned, particle_bin, bonds, clusters, LC_size.
  split; [|split; [done|split; [done|]]].
  { rewrite cm_bin_positions_eq, Hbin. done. }
  intros i j pos pos' Hij Hi Hj.
  pose proof (proj1 (Forall_lookup _ _) Hpos i pos Hi) as [Hx Hy].
  pose proof (proj1 (Forall_lookup _ _) Hpos j pos' Hj) as [Hx' Hy'].
  assert (∀ k p, positions !! k = Some p → 0 ≤ py_int p.1 < size →
            0 ≤ py_int p.2 < size →
            nd_get binned [py_int p.1; py_int p.2] = Some 1) as Hmark.
  { intros k p Hk ? ?. rewrite Hget by (by apply lattice_2d).
    rewrite bool_decide_eq_true_2; [done|].
    apply Exists_exists. exists p. split; [by eapply list_elem_of_lookup_2|].
    unfold bin_of. by rewrite !Z.mod_small by lia. }
  split; [by eapply Hmark|]. split; [by eapply Hmark|].
  apply Hconn; [done| | |by apply lattice_2d..].
  - unfold particle_bin. rewrite list_lookup_fmap, Hi. simpl. f_equal. nia.
  - unfold particle_bin. rewrite list_lookup_fmap, Hj. simpl. f_equal. nia.
Qed.

(** ** The recorded list *)

Lemma foldl_snoc {A} (out c : list A) : foldl (λ out i, out ++ [i]) out c = out ++ c.
Proof.
  revert out. induction c as [|i c IH]; intros out; simpl; [by rewrite app_nil_r|].
  rewrite IH. by rewrite <- app_assoc.
Qed.

Lemma record_body_concat (init : list (list Z)) (out : list Z) :
  foldl (λ out cluster, foldl (λ out i, out ++ [i]) out cluster ++ [-1]) out init
  = out ++ concat ((λ c, c ++ [-1]) <$> init).
Proof.
  revert out. induction init as [|c0 init IH]; intros out; simpl;
    [by rewrite app_nil_r|].
  rewrite IH, foldl_snoc. by rewrite <- !app_assoc.
Qed.

Lemma record_clusters_snoc (init : list (list Z)) (c : list Z) :
  cluster_membership.record_clusters (init ++ [c]) =
  Ok (concat ((λ c, c ++ [-1]) <$> init) ++ c).
Proof.
  unfold cluster_membership.record_clusters.
  rewrite length_app, Nat.add_sub. simpl.
  rewrite take_app_length.
  unfold getitem, py_index. rewrite length_app. simpl.
  destruct (Z.leb_spec 0 (-1)); [lia|]. simpl.
  destruct (Z.leb_spec (- Z.of_nat (length init + 1)) (-1)); [|lia]. simpl.
  replace (Z.to_nat (Z.of_nat (length init + 1) + -1)) with (length init) by lia.
  rewrite list_lookup_middle by done. simpl. rewrite foldl_snoc. do 2 f_equal.
  apply (record_body_concat init []).
Qed.

Lemma app_separator_inj (c c' r r' : list Z) :
  -1 ∉ c → -1 ∉ c' → c ++ -1 :: r = c' ++ -1 :: r' → c = c' ∧ r = r'.
Proof.
  revert c'. induction c as [|x c IH]; intros [|x' c'] Hc Hc' Heq; simpl in *.
  - by injection Heq.
  - injection Heq as <- _. exfalso. apply Hc'. by left.
  - injection Heq as -> _. exfalso. apply Hc. by left.
  - injection Heq as -> Heq. destruct (IH c') as [-> ->]; [| |done|done].
    + intros ?. apply Hc. by right.
    + intros ?. apply Hc'. by right.
Qed.

Lemma nonneg_no_separator (c : list Z) : Forall (λ i, 0 ≤ i) c → -1 ∉ c.
Proof. intros Hc Hin. eapply Forall_forall in Hc; [|done]. simpl in Hc. lia. Qed.

Lemma record_clusters_inj_snoc (init init' : list (list Z)) (c c' : list Z) :
  Forall (Forall (λ i, 0 ≤ i)) (init ++ [c]) →
  Forall (Forall (λ i, 0 ≤ i)) (init' ++ [c']) →
  concat ((λ c, c ++ [-1]) <$> init) ++ c = concat ((λ c, c ++ [-1]) <$> init') ++ c' →
  init = init' ∧ c = c'.
Proof.
  revert init'. induction init as [|c0 init IH]; intros [|c0' init'] Hall Hall' Heq;
    simpl in *.
  - done.
  - exfalso. rewrite Forall_singleton in Hall.
    apply (nonneg_no_separator c Hall). rewrite Heq, <- !app_assoc.
    apply elem_of_app. right. by left.
  - exfalso. rewrite Forall_singleton in Hall'.
    apply (nonneg_no_separator c' Hall'). rewrite <- Heq, <- !app_assoc.
    apply elem_of_app. right. by left.
  - apply Forall_cons in Hall as [H0 Hall]. apply Forall_cons in Hall' as [H0' Hall'].
    rewrite <- !app_assoc in Heq. simpl in Heq.
    apply app_separator_inj in Heq as [-> Heq]; [|by apply nonneg_no_separator..].
    destruct (IH init' Hall Hall' Heq) as [-> ->]. done.
Qed.

(** X9. The list written for one snapshot (the particles of each cluster, the clusters separated by -1) determines the clusters: two lists of clusters of non-negative particle ids that give the same recorded list are equal. *)
Theorem record_clusters_unambiguous (clusters clusters' : list (list Z))
    (out : list Z) :
  Forall (Forall (λ i, 0 ≤ i)) clusters → Forall (Forall (λ i, 0 ≤ i)) clusters' →
  cluster_membership.record_clusters clusters = Ok out →
  cluster_membership.record_clusters clusters' = Ok out →
  clusters = clusters'.
Proof.
  intros Hall Hall'.
  destruct clusters as [|c0 cs] using rev_ind; [done|].
  destruct clusters' as [|c0' cs'] using rev_ind; [done|].
  rewrite !record_clusters_snoc. intros [= <-] [= Heq].
  destruct (record_clusters_inj_snoc cs cs' c0 c0' Hall Hall') as [-> ->]; done.
Qed.

Lemma record_clusters_unambiguous_witness :
  [[0; 2]; [1; 3]] = [[0; 2]; [1; 3]].
Proof.
  apply (record_clusters_unambiguous [[0; 2]; [1; 3]] [[0; 2]; [1; 3]] [0; 2; -1; 1; 3]);
    [repeat constructor; lia..|reflexivity|reflexivity].
Defined.

Lemma cluster_membership_lists_witness :
  ∃ bonds labels particle_labels top LC_label LC_size,
    get_bonds_nd (Arr [Arr [Scalar 1; Scalar 1]; Arr [Scalar 0; Scalar 0]]) 2 "one"
    = Ok (BondsOne bonds) ∧
    hoshen_kopelman_nd 5 bonds [2; 2] 2 "pp" false = Ok labels ∧
    Forall2 (λ b lab, getitem labels b = Some lab) [0; 1; 1] particle_labels ∧
    np_max labels = Ok top ∧
    most_common1 (counter labels) = Ok (LC_label, LC_size) ∧
    cluster_membership.cluster_membership 5
      (Arr [Arr [Scalar 1; Scalar 1]; Arr [Scalar 0; Scalar 0]]) [0; 1; 1] 2 =
    Ok (filter (λ c, (1 < length c)%nat) (members 0 particle_labels <$> range top)
          ++ [members 0 particle_labels top], LC_size).
Proof.
  apply (cluster_membership_lists 5
           (Arr [Arr [Scalar 1; Scalar 1]; Arr [Scalar 0; Scalar 0]]) [0; 1; 1] 2).
  - lia.
  - simpl. repeat constructor.
  - simpl. lia.
  - repeat (constructor; [lia|]). constructor.
Defined.

Lemma cluster_membership_partitions_witness :
  ∃ bonds labels clusters LC_size,
    get_bonds_nd (Arr [Arr [Scalar 1; Scalar 1]; Arr [Scalar 0; Scalar 0]]) 2 "one"
    = Ok (BondsOne bonds) ∧
    hoshen_kopelman_nd 5 bonds [2; 2] 2 "pp" false = Ok labels ∧
    cluster_membership.cluster_membership 5
      (Arr [Arr [Scalar 1; Scalar 1]; Arr [Scalar 0; Scalar 0]]) [0; 1; 1] 2
    = Ok (clusters, LC_size) ∧
    clusters ≠ [] ∧
    NoDup (concat clusters) ∧
    Forall (StronglySorted Z.lt) clusters ∧
    ∀ c i, c ∈ clusters → i ∈ c →
      ∃ lab, particle_label labels [0; 1; 1] i = Some lab ∧
        ∀ j, j ∈ c ↔ particle_label labels [0; 1; 1] j = Some lab.
Proof.
  apply (cluster_membership_partitions 5
           (Arr [Arr [Scalar 1; Scalar 1]; Arr [Scalar 0; Scalar 0]]) [0; 1; 1] 2).
  - lia.
  - simpl. repeat constructor.
  - simpl. lia.
  - repeat (constructor; [lia|]). constructor.
Defined.

Lemma cluster_membership_groups_connected_bins_witness :
  ∃ bonds clusters LC_size,
    get_bonds_nd (Arr [Arr [Scalar 1; Scalar 1]; Arr [Scalar 0; Scalar 0]]) 2 "one"
    = Ok (BondsOne bonds) ∧
    cluster_membership.cluster_membership 5
      (Arr [Arr [Scalar 1; Scalar 1]; Arr [Scalar 0; Scalar 0]]) [0; 1; 1] 2
    = Ok (clusters, LC_size) ∧
    ∀ (i j : nat) c c', i ≠ j →
      [0; 1; 1] !! i = Some (site_index [2; 2] c) →
      [0; 1; 1] !! j = Some (site_index [2; 2] c') →
      lattice [2; 2] c → lattice [2; 2] c' →
      (∃ cl, cl ∈ clusters ∧ Z.of_nat i ∈ cl ∧ Z.of_nat j ∈ cl) ↔
      connected bonds [2; 2] "pp" c c'.
Proof.
  apply (cluster_membership_groups_connected_bins 5
           (Arr [Arr [Scalar 1; Scalar 1]; Arr [Scalar 0; Scalar 0]]) [0; 1; 1] 2).
  - lia.
  - simpl. repeat constructor.
  - simpl. lia.
  - repeat (constructor; [lia|]). constructor.
Defined.

Lemma particles_grouped_by_swapped_bins_witness :
  ∃ binned particle_bin bonds clusters LC_size,
    cluster_membership.bin_positions [(1 # 2, 1 # 2); (1 # 2, 3 # 2)]%Q 2
    = Ok (binned, particle_bin) ∧
    get_bonds_nd binned 2 "one" = Ok (BondsOne bonds) ∧
    cluster_membership.cluster_membership 5 binned particle_bin 2
    = Ok (clusters, LC_size) ∧
    ∀ (i j : nat) pos pos', i ≠ j →
      [(1 # 2, 1 # 2); (1 # 2, 3 # 2)]%Q !! i = Some pos →
      [(1 # 2, 1 # 2); (1 # 2, 3 # 2)]%Q !! j = Some pos' →
      nd_get binned [py_int pos.1; py_int pos.2] = Some 1 ∧
      nd_get binned [py_int pos'.1; py_int pos'.2] = Some 1 ∧
      ((∃ cl, cl ∈ clusters ∧ Z.of_nat i ∈ cl ∧ Z.of_nat j ∈ cl) ↔
       connected bonds [2; 2] "pp"
         [py_int pos.2; py_int pos.1] [py_int pos'.2; py_int pos'.1]).
Proof.
  apply (particles_grouped_by_swapped_bins 5 [(1 # 2, 1 # 2); (1 # 2, 3 # 2)]%Q 2).
  - lia.
  - simpl. lia.
  - repeat (constructor; [vm_compute; repeat split; congruence|]). constructor.
Defined.

(** ** Particles outside the grid, and recording the result *)

Lemma mapM_getitem_None (labels : list Z) (particle_bin : list Z) :
  Exists (λ b, ¬ (- Z.of_nat (length labels) ≤ b < Z.of_nat (length labels)))
    particle_bin →
  mapM (getitem labels) particle_bin = None.
Proof.
  intros Hex. destruct (mapM (getitem labels) particle_bin) as [pl|] eqn:Hpl; [|done].
  exfalso. apply mapM_Some in Hpl.
  apply Exists_exists in Hex as (b & Hb & Hout).
  apply list_elem_of_lookup in Hb as [k Hk].
  destruct (Forall2_lookup_l _ _ _ _ _ Hpl Hk) as (lab & _ & Hget).
  by rewrite getitem_out in Hget.
Qed.

(** X10. For a size-by-size grid (size >= 1), cluster_membership raises IndexError if and only if some entry of particle_bin lies outside [-size*size, size*size). *)
Theorem cluster_membership_raises_outside_grid (fuel : nat) (binned : ndarray Z)
    (particle_bin : list Z) (size : Z) :
  1 ≤ size → has_shape [size; size] binned → (Z.to_nat (size * size) < fuel)%nat →
  cluster_membership.cluster_membership fuel binned particle_bin size = Err IndexError ↔
  Exists (λ b, ¬ (- (size * size) ≤ b < size * size)) particle_bin.
Proof.
  intros Hsize Hsh Hfuel. split.
  - intros Herr.
    destruct (decide (Forall (λ b, - (size * size) ≤ b < size * size) particle_bin))
      as [Hall|Hnot].
    + destruct (cluster_membership_spec fuel binned particle_bin size
                  Hsize Hsh Hfuel Hall)
        as (? & ? & ? & ? & ? & ? & _ & _ & _ & _ & _ & _ & _ & _ & _ & _ & Hrun).
      congruence.
    + by apply not_Forall_Exists in Hnot; [|apply _].
  - intros Hex.
    destruct (cluster_membership_spec fuel binned [] size Hsize Hsh Hfuel)
      as (bonds & labels & pl & top & LC_label & LC_size &
          Hbonds & _ & Hhk & Hlen & _ & _ & _ & _ & HLC & _ & _); [constructor|].
    unfold cluster_membership.cluster_membership.
    rewrite Hbonds. simpl. rewrite Hhk. simpl. rewrite HLC. simpl.
    rewrite mapM_getitem_None; [done|]. by rewrite Hlen.
Qed.

Lemma cluster_membership_raises_outside_grid_witness :
  cluster_membership.cluster_membership 5
    (Arr [Arr [Scalar 1; Scalar 1]; Arr [Scalar 0; Scalar 0]]) [0; 4] 2
  = Err IndexError ↔
  Exists (λ b, ¬ (- (2 * 2) ≤ b < 2 * 2)) [0; 4].
Proof.
  apply (cluster_membership_raises_outside_grid 5
           (Arr [Arr [Scalar 1; Scalar 1]; Arr [Scalar 0; Scalar 0]]) [0; 4] 2).
  - lia.
  - simpl. repeat constructor.
  - simpl. lia.
Defined.

Lemma count_separators (init : list (list Z)) (c : list Z) :
  Forall (Forall (λ i, 0 ≤ i)) (init ++ [c]) →
  length (filter (λ i, i = -1) (concat ((λ c, c ++ [-1]) <$> init) ++ c)) = length init.
Proof.
  assert (∀ c : list Z, Forall (λ i, 0 ≤ i) c → filter (λ i, i = -1) c = []) as Hnone.
  { intros c0 Hc0. induction Hc0 as [|x c0 Hx _ IH]; [done|].
    rewrite filter_cons_False by lia. done. }
  induction init as [|c0 init IH]; intros Hall.
  - simpl in *. rewrite Forall_singleton in Hall. by rewrite Hnone.
  - rewrite <- app_comm_cons in Hall. apply Forall_cons in Hall as [H0 Hall].
    rewrite fmap_cons. cbn [concat]. rewrite <- !app_assoc.
    rewrite filter_app, (Hnone c0) by done. cbn [app].
    rewrite filter_cons_True by done. cbn [length]. f_equal. by apply IH.
Qed.

Lemma members_nonneg pl lab : Forall (λ i, 0 ≤ i) (members 0 pl lab).
Proof. apply Forall_forall. by intros x [? _]%members_label. Qed.

(** X11. The recording loop of cluster_membership.py never raises on the lists cluster_membership returns (clusters[-1] exists); the recorded list without its -1 entries is the concatenation of the lists, and it holds one -1 less than there are lists. *)
Theorem recording_after_cluster_membership (fuel : nat) (binned : ndarray Z)
    (particle_bin : list Z) (size : Z) :
  1 ≤ size → has_shape [size; size] binned → (Z.to_nat (size * size) < fuel)%nat →
  Forall (λ b, - (size * size) ≤ b < size * size) particle_bin →
  ∃ clusters LC_size out,
    cluster_membership.cluster_membership fuel binned particle_bin size
    = Ok (clusters, LC_size) ∧
    cluster_membership.record_clusters clusters = Ok out ∧
    filter (λ i, i ≠ -1) out = concat clusters ∧
    S (length (filter (λ i, i = -1) out)) = length clusters.
Proof.
  intros Hsize Hsh Hfuel Hbin.
  destruct (cluster_membership_spec fuel binned particle_bin size Hsize Hsh Hfuel Hbin)
    as (bonds & labels & pl & top & LC_label & LC_size &
        _ & _ & _ & _ & _ & _ & Htop0 & _ & _ & _ & Hrun).
  set (init := filter (λ c, (1 < length c)%nat) (members 0 pl <$> range top)) in *.
  assert (Forall (Forall (λ i, 0 ≤ i)) (init ++ [members 0 pl top])) as Hall.
  { apply Forall_forall. intros c (lab & _ & -> & _)%elem_of_cluster_lists; [|done].
    apply members_nonneg. }
  eexists _, LC_size, _. split; [done|]. rewrite record_clusters_snoc.
  split; [done|]. split.
  - clear Hrun. revert Hall. generalize (members 0 pl top). generalize init.
    clear. intros init c Hall.
    assert (∀ c : list Z, Forall (λ i, 0 ≤ i) c → filter (λ i, i ≠ -1) c = c) as Hid.
    { intros c0 Hc0. induction Hc0 as [|x c0 Hx _ IH]; [done|].
      rewrite filter_cons_True by lia. by rewrite IH. }
    induction init as [|c0 init IH].
    + simpl in *. rewrite Forall_singleton in Hall. rewrite Hid by done.
      by rewrite app_nil_r.
    + rewrite <- app_comm_cons in Hall. apply Forall_cons in Hall as [H0 Hall].
      rewrite fmap_cons. cbn [concat]. rewrite <- !app_assoc.
      rewrite filter_app, (Hid c0) by done. cbn [app].
      rewrite filter_cons_False by (intros Hne; by apply Hne).
      cbn [concat]. f_equal. by apply IH.
  - rewrite count_separators by done. rewrite length_app. simpl. lia.
Qed.

Lemma recording_after_cluster_membership_witness :
  ∃ clusters LC_size out,
    cluster_membership.cluster_membership 5
      (Arr [Arr [Scalar 1; Scalar 1]; Arr [Scalar 0; Scalar 0]]) [0; 1; 1] 2
    = Ok (clusters, LC_size) ∧
    cluster_membership.record_clusters clusters = Ok out ∧
    filter (λ i, i ≠ -1) out = concat clusters ∧
    S (length (filter (λ i, i = -1) out)) = length clusters.
Proof.
  apply (recording_after_cluster_membership 5
           (Arr [Arr [Scalar 1; Scalar 1]; Arr [Scalar 0; Scalar 0]]) [0; 1; 1] 2).
  - lia.
  - simpl. repeat constructor.
  - simpl. lia.
  - repeat (constructor; [lia|]). constructor.
Defined.

(** ** [find] on arbitrary arrays *)

Lemma find_S fuel x :
  find (S fuel) x =
  lx ← load x; if negb (lx =? x) then x' ← load x; find fuel x' else Ret x.
Proof. done. Qed.

Lemma find_sound labels fuel x r labels' :
  run (find fuel x) labels = Ok (r, labels') →
  labels' = labels ∧ ∃ k, (k < fuel)%nat ∧ root_at labels k x r.
Proof.
  revert x. induction fuel as [|fuel IH]; intros x; [done|].
  rewrite find_S. simpl. destruct (getitem labels x) as [y|] eqn:Hy; [|done].
  destruct (Z.eqb_spec y x) as [->|Hne]; simpl.
  - intros [= <- <-]. split; [done|]. exists 0%nat. split; [lia|]. by constructor.
  - rewrite Hy. intros Hrun. destruct (IH y Hrun) as (-> & k & Hk & Hroot).
    split; [done|]. exists (S k). split; [lia|]. by econstructor.
Qed.

(** X12. Whenever find returns, on any label array and any start index (negative ones included), the array is unchanged and the result r is reached from the start by following labels and satisfies labels[r] == r. *)
Theorem find_result_is_root (labels : list Z) (fuel : nat) (x r : Z)
    (labels' : list Z) :
  run (find fuel x) labels = Ok (r, labels') →
  labels' = labels ∧ root_of labels x r ∧ getitem labels r = Some r.
Proof.
  intros (-> & k & _ & Hroot)%find_sound. split; [done|]. split; [by exists k|].
  by eapply root_at_root.
Qed.

Lemma find_result_is_root_witness :
  [1; 2; 2; 0] = [1; 2; 2; 0] ∧ root_of [1; 2; 2; 0] (-1) 2 ∧
  getitem [1; 2; 2; 0] 2 = Some 2.
Proof. apply (find_result_is_root [1; 2; 2; 0] 5 (-1) 2). reflexivity. Defined.

(** X13. If every entry of labels is an index of the array and no index r with labels[r] == r is reached from x (the chain runs into a cycle), the while loop of find does not end: in the model every amount of fuel is exhausted. *)
Theorem find_without_root_exhausts_fuel (labels : list Z) (x : Z) (fuel : nat) :
  in_range labels → site labels x → (∀ r, ¬ root_of labels x r) →
  run (find fuel x) labels = Err OutOfFuel.
Proof.
  intros Hl. revert x. induction fuel as [|fuel IH]; intros x Hx Hno; [done|].
  rewrite find_S. simpl. destruct (site_get labels x Hx) as [y Hy]. rewrite Hy.
  destruct (Z.eqb_spec y x) as [->|Hne]; simpl.
  - exfalso. apply (Hno x). by apply root_of_here.
  - rewrite Hy. apply IH.
    + by eapply in_range_get.
    + intros r Hr. apply (Hno r). by eapply root_of_step.
Qed.

Lemma find_without_root_exhausts_fuel_witness :
  run (find 100 0) [1; 2; 0] = Err OutOfFuel.
Proof.
  apply find_without_root_exhausts_fuel.
  - repeat constructor; simpl; lia.
  - split; simpl; lia.
  - intros r [k Hk]. revert Hk.
    assert (∀ n x, x = 0 ∨ x = 1 ∨ x = 2 → ¬ root_at [1; 2; 0] n x r) as Hno.
    { induction n as [|n IH]; intros x Hx Hroot; inversion Hroot; subst;
        match goal with
        | Hg : getitem _ _ = Some _ |- _ =>
            destruct Hx as [->|[->| ->]]; vm_compute in Hg; try congruence;
            injection Hg as <-
        end;
        (eapply IH; [|eassumption]; auto). }
    apply Hno. by left.
Defined.

(** ** [reduce=True] *)

Lemma insert_sorted_sorted x l :
  StronglySorted Z.lt l → StronglySorted Z.lt (insert_sorted x l).
Proof.
  induction 1 as [|y l Hl IH Hy]; simpl; [repeat constructor|].
  destruct (Z.ltb_spec x y).
  - constructor; [by constructor|]. constructor; [done|].
    eapply Forall_impl; [done|]. simpl. lia.
  - destruct (Z.eqb_spec x y) as [->|Hne]; [by constructor|].
    constructor; [done|]. apply Forall_forall.
    intros z [->|Hz]%elem_of_insert_sorted; [lia|]. by eapply Forall_forall in Hy.
Qed.

Lemma np_unique_sorted l : StronglySorted Z.lt (np_unique l).
Proof.
  unfold np_unique. induction l as [|x l IH]; simpl; [constructor|].
  by apply insert_sorted_sorted.
Qed.

Lemma sorted_NoDup (l : list Z) : StronglySorted Z.lt l → NoDup l.
Proof.
  induction 1 as [|y l Hl IH Hy]; constructor; [|done].
  intros Hin. eapply Forall_forall in Hy; [|done]. lia.
Qed.

Lemma index_of_bound x l : x ∈ l → index_of x l < Z.of_nat (length l).
Proof.
  induction l as [|y l IH]; simpl; [by intros ?%elem_of_nil|].
  intros Hx. destruct (Z.eqb_spec x y) as [->|Hne]; [lia|].
  apply elem_of_cons in Hx as [?|Hx]; [done|]. specialize (IH Hx). lia.
Qed.

Lemma index_of_lt x y l :
  StronglySorted Z.lt l → x ∈ l → y ∈ l → x < y → index_of x l < index_of y l.
Proof.
  induction 1 as [|z l Hl IH Hz]; simpl; [by intros ?%elem_of_nil|].
  intros Hx Hy Hlt. pose proof (index_of_nonneg y l).
  destruct (Z.eqb_spec x z) as [->|Hxz], (Z.eqb_spec y z) as [->|Hyz]; try lia.
  - apply elem_of_cons in Hx as [?|Hx]; [done|].
    eapply Forall_forall in Hz; [|done]. lia.
  - apply elem_of_cons in Hx as [?|Hx]; [done|].
    apply elem_of_cons in Hy as [?|Hy]; [done|].
    specialize (IH Hx Hy Hlt). lia.
Qed.

Lemma index_of_lookup (l : list Z) (k : nat) x :
  NoDup l → l !! k = Some x → index_of x l = Z.of_nat k.
Proof.
  intros Hnd. revert k. induction Hnd as [|y l Hy Hnd IH]; intros k; [done|].
  destruct k as [|k]; simpl.
  - intros [= ->]. by rewrite Z.eqb_refl.
  - intros Hk. destruct (Z.eqb_spec x y) as [->|Hne].
    + exfalso. apply Hy. by eapply list_elem_of_lookup_2.
    + rewrite (IH k Hk). lia.
Qed.

Lemma np_unique_length l : length (np_unique l) = length (remove_dups l).
Proof.
  apply Permutation_length, NoDup_Permutation.
  - apply sorted_NoDup, np_unique_sorted.
  - apply NoDup_remove_dups.
  - intros x. by rewrite elem_of_np_unique, elem_of_remove_dups.
Qed.

Lemma unique_inverse_spec (l : list Z) :
  length (unique_inverse l) = length l ∧
  (∀ v, v ∈ unique_inverse l ↔ 0 ≤ v < Z.of_nat (length (remove_dups l))) ∧
  ∀ (i j : nat) x y x' y',
    l !! i = Some x → l !! j = Some y →
    unique_inverse l !! i = Some x' → unique_inverse l !! j = Some y' →
    (x' = y' ↔ x = y) ∧ (x' < y' ↔ x < y).
Proof.
  unfold unique_inverse. split; [by rewrite length_fmap|]. split.
  - intros v. rewrite <- np_unique_length, list_elem_of_fmap. split.
    + intros (x & -> & Hx). split; [apply index_of_nonneg|].
      by apply index_of_bound, elem_of_np_unique.
    + intros Hv.
      destruct (lookup_lt_is_Some_2 (np_unique l) (Z.to_nat v)) as [x Hx]; [lia|].
      exists x. split.
      * rewrite (index_of_lookup _ (Z.to_nat v)); [lia| |done].
        apply sorted_NoDup, np_unique_sorted.
      * apply elem_of_np_unique. by eapply list_elem_of_lookup_2.
  - intros i j x y x' y' Hi Hj. rewrite !list_lookup_fmap, Hi, Hj. simpl.
    intros [= <-] [= <-].
    assert (x ∈ np_unique l) as Hx.
    { apply elem_of_np_unique. by eapply list_elem_of_lookup_2. }
    assert (y ∈ np_unique l) as Hy.
    { apply elem_of_np_unique. by eapply list_elem_of_lookup_2. }
    pose proof (np_unique_sorted l) as Hs.
    split; split.
    + by apply index_of_inj.
    + by intros ->.
    + intros Hlt. destruct (Z.lt_trichotomy x y) as [?|[->|Hgt]]; [done|lia|].
      pose proof (index_of_lt y x _ Hs Hy Hx Hgt). lia.
    + by apply index_of_lt.
Qed.

(** X14. With reduce=True hoshen_kopelman_nd returns an array of the same length as with reduce=False whose values are exactly 0, ..., k-1, k being the number of distinct labels, and which keeps both equality and order of the labels: entries i and j are equal (or ordered) in one array exactly when they are in the other. *)
Theorem reduce_renumbers_labels {A} `{Truthy A} (fuel : nat)
    (bonds : list (ndarray A)) (sizes : list Z) (d : nat) (bc : string)
    (labels : list Z) :
  hoshen_kopelman_nd fuel bonds sizes d bc false = Ok labels →
  ∃ reduced,
    hoshen_kopelman_nd fuel bonds sizes d bc true = Ok reduced ∧
    length reduced = length labels ∧
    (∀ v, v ∈ reduced ↔ 0 ≤ v < Z.of_nat (length (remove_dups labels))) ∧
    ∀ (i j : nat) x y x' y',
      labels !! i = Some x → labels !! j = Some y →
      reduced !! i = Some x' → reduced !! j = Some y' →
      (x' = y' ↔ x = y) ∧ (x' < y' ↔ x < y).
Proof.
  unfold hoshen_kopelman_nd. cbv zeta.
  destruct (run _ _) as [[[] l]|]; [|done]. intros [= ->].
  exists (unique_inverse labels). split; [done|]. apply unique_inverse_spec.
Qed.

Lemma reduce_renumbers_labels_witness :
  ∃ reduced,
    hoshen_kopelman_nd 5 (chain4 0) [4] 1 "p" true = Ok reduced ∧
    length reduced = length [0; 0; 2; 2] ∧
    (∀ v, v ∈ reduced ↔ 0 ≤ v < Z.of_nat (length (remove_dups [0; 0; 2; 2]))) ∧
    ∀ (i j : nat) x y x' y',
      [0; 0; 2; 2] !! i = Some x → [0; 0; 2; 2] !! j = Some y →
      reduced !! i = Some x' → reduced !! j = Some y' →
      (x' = y' ↔ x = y) ∧ (x' < y' ↔ x < y).
Proof. apply (reduce_renumbers_labels 5 (chain4 0) [4] 1 "p"). reflexivity. Defined.

(** ** Site percolation: [get_bonds_nd] with ['one'], then [hoshen_kopelman_nd] *)

Lemma one_bonds (state : ndarray Z) (shape : list Z) (d : nat) (bc : string) :
  has_shape shape state → length shape = d → String.length bc = d →
  ∃ bonds, get_bonds_nd state d "one" = Ok (BondsOne bonds) ∧
    well_formed bonds shape d bc ∧
    ∀ n c, lattice shape c →
      active bonds n c ↔
      (n < d)%nat ∧ ∃ x y, nd_get state c = Some x ∧
        nd_get state (pred_coords shape c n) = Some y ∧ mul64 x y ≠ 0.
Proof.
  intros Hsh Hd Hbc. destruct d as [|d'].
  - exists []. split; [done|]. split; [by split_and!|].
    intros n c _. split; [by intros (b & v & ? & _)|]. intros [? _]. lia.
  - set (d := S d') in *.
    assert (d ≤ length shape)%nat as Hle by lia.
    destruct (get_bonds_spec state shape d Hsh Hle num_mul 0)
      as (bonds & b0 & Hbonds & Hlen & Hshape & _); [lia|].
    exists bonds. split; [|split; [by split_and!|]].
    + unfold get_bonds_nd. destruct (mapM _ (seq 0 d)) as [rolls|]; [|done].
      simpl in *. by rewrite Hbonds.
    + intros n c Hc. split.
      * intros (b & v & Hb & Hv & Ht).
        assert (n < d)%nat as Hn by (rewrite <- Hlen; by eapply lookup_lt_Some).
        split; [done|].
        destruct (get_bonds_spec state shape d Hsh Hle num_mul n Hn)
          as (bonds' & b' & Hbonds' & _ & _ & Hb' & Hget).
        assert (bonds' = bonds) as -> by congruence.
        assert (b' = b) as -> by congruence.
        destruct (Hget c Hc) as (x & y & Hx & Hy & Hyx).
        exists x, y. split; [done|]. split; [done|].
        assert (v = mul64 y x) as -> by (simpl in Hyx; congruence).
        unfold truthy, truthy_Z in Ht. unfold mul64 in *. rewrite (Z.mul_comm x y).
        by destruct (Z.eqb_spec (wrap64 (y * x)) 0).
      * intros (Hn & x & y & Hx & Hy & Hxy).
        destruct (get_bonds_spec state shape d Hsh Hle num_mul n Hn)
          as (bonds' & b' & Hbonds' & _ & _ & Hb' & Hget).
        assert (bonds' = bonds) as -> by congruence.
        destruct (Hget c Hc) as (x' & y' & Hx' & Hy' & Hyx).
        exists b', (mul64 y' x'). split; [done|]. split; [done|].
        assert (x' = x) as -> by congruence. assert (y' = y) as -> by congruence.
        unfold truthy, truthy_Z. unfold mul64 in *. rewrite (Z.mul_comm x y) in Hxy.
        by destruct (Z.eqb_spec (wrap64 (y * x)) 0).
Qed.

Lemma bond_link_pred {A} `{Truthy A} (bonds : list (ndarray A)) (shape : list Z)
    (bc : string) c c' :
  bond_link bonds shape bc c c' →
  ∃ n, lattice shape c ∧ active bonds n c ∧ c' = pred_coords shape c n.
Proof.
  intros [n coords cn Hc Hn Hne Hact|n coords sz Hc Hn Hbc Hsz Hact].
  - exists n. split; [done|]. split; [done|].
    destruct (lattice_lookup _ _ _ _ Hc Hn) as (s & Hs & Hcn).
    unfold pred_coords. rewrite Hn, Hs. by rewrite Z.mod_small by lia.
  - exists n. split; [done|]. split; [done|].
    destruct (lattice_lookup _ _ _ _ Hc Hn) as (s & Hs & Hcn).
    assert (s = sz) as -> by congruence.
    unfold pred_coords. rewrite Hn, Hs. f_equal.
    apply (Z.mod_unique _ _ (-1)); lia.
Qed.

Lemma pred_link {A} `{Truthy A} (bonds : list (ndarray A)) (shape : list Z)
    (bc : string) c n cn :
  lattice shape c → c !! n = Some cn →
  cn ≠ 0 ∨ String.get n bc = Some "p"%char →
  active bonds n c → bond_link bonds shape bc c (pred_coords shape c n).
Proof.
  intros Hc Hn Hor Hact.
  destruct (lattice_lookup _ _ _ _ Hc Hn) as (s & Hs & Hcn).
  unfold pred_coords. rewrite Hn, Hs.
  destruct (decide (cn = 0)) as [->|Hne].
  - destruct Hor as [?|Hp]; [done|].
    replace ((0 - 1) `mod` s) with (s - 1)
      by (apply (Z.mod_unique _ _ (-1)); lia).
    by eapply link_wrap.
  - rewrite Z.mod_small by lia. by eapply link_inner.
Qed.

Lemma all_bonds_wf (state : ndarray Z) (shape : list Z) (d : nat) (bc : string) :
  has_shape shape state → length shape = d → String.length bc = d →
  ∃ bonds, get_bonds_nd state d "all" = Ok (BondsAll bonds) ∧
    well_formed bonds shape d bc.
Proof.
  intros Hsh Hd Hbc. destruct d as [|d'].
  - exists []. split; [done|]. by split_and!.
  - set (d := S d') in *.
    assert (d ≤ length shape)%nat as Hle by lia.
    destruct (get_bonds_spec state shape d Hsh Hle num_eqb 0)
      as (bonds & b0 & Hbonds & Hlen & Hshape & _); [lia|].
    exists bonds. split; [|by split_and!].
    unfold get_bonds_nd. destruct (mapM _ (seq 0 d)) as [rolls|]; [|done].
    simpl in *. by rewrite Hbonds.
Qed.

(** X15. For a state array of d axes with at least one entry per axis and a boundary string of length d, the bond arrays that get_bonds_nd returns, for ['one'] as for ['all'], are accepted by hoshen_kopelman_nd: it raises nothing and returns one label per site. *)
Theorem get_bonds_feed_hoshen_kopelman (fuel : nat) (state : ndarray Z)
    (shape : list Z) (d : nat) (bc : string) (reduce : bool) :
  has_shape shape state → inhabited shape → length shape = d →
  String.length bc = d → (Z.to_nat (prod shape) < fuel)%nat →
  (∃ bonds labels,
     get_bonds_nd state d "one" = Ok (BondsOne bonds) ∧
     hoshen_kopelman_nd fuel bonds shape d bc reduce = Ok labels ∧
     length labels = Z.to_nat (prod shape)) ∧
  (∃ bonds labels,
     get_bonds_nd state d "all" = Ok (BondsAll bonds) ∧
     hoshen_kopelman_nd fuel bonds shape d bc reduce = Ok labels ∧
     length labels = Z.to_nat (prod shape)).
Proof.
  intros Hsh Hpos Hd Hbc Hfuel. split.
  - destruct (one_bonds state shape d bc Hsh Hd Hbc) as (bonds & Hb & Hwf & _).
    destruct (hk_correct fuel bonds shape d bc reduce Hwf Hpos Hfuel)
      as (labels & Hhk & Hlen & _).
    by exists bonds, labels.
  - destruct (all_bonds_wf state shape d bc Hsh Hd Hbc) as (bonds & Hb & Hwf).
    destruct (hk_correct fuel bonds shape d bc reduce Hwf Hpos Hfuel)
      as (labels & Hhk & Hlen & _).
    by exists bonds, labels.
Qed.

(** X16. With the bonds of get_bonds_nd for bond_type=['one'], a site whose state is 0 shares its label with no other site, whatever the boundary conditions. *)
Theorem empty_site_is_singleton_cluster (fuel : nat) (state : ndarray Z)
    (shape : list Z) (d : nat) (bc : string) (reduce : bool) (c c' : list Z) :
  has_shape shape state → length shape = d → String.length bc = d →
  (Z.to_nat (prod shape) < fuel)%nat →
  lattice shape c → lattice shape c' → nd_get state c = Some 0 → c ≠ c' →
  ∃ bonds labels,
    get_bonds_nd state d "one" = Ok (BondsOne bonds) ∧
    hoshen_kopelman_nd fuel bonds shape d bc reduce = Ok labels ∧
    getitem labels (site_index shape c) ≠ getitem labels (site_index shape c').
Proof.
  intros Hsh Hd Hbc Hfuel Hc Hc' Hempty Hne.
  destruct (one_bonds state shape d bc Hsh Hd Hbc) as (bonds & Hb & Hwf & Hact).
  destruct (hk_correct fuel bonds shape d bc reduce Hwf (lattice_inhabited _ _ Hc) Hfuel)
    as (labels & Hhk & _ & Heq).
  exists bonds, labels. split; [done|]. split; [done|].
  rewrite Heq by done. intros Hconn. apply Hne.
  apply rtc_inv in Hconn as [?|(c1 & [Hl|Hl] & _)]; [done|exfalso..].
  - apply bond_link_pred in Hl as (n & _ & Ha & _).
    apply Hact in Ha as (_ & x & y & Hx & _ & [Hx0 _]%mul64_nonzero); [|done].
    congruence.
  - apply bond_link_pred in Hl as (n & Hc1 & Ha & ->).
    apply Hact in Ha as (_ & x & y & _ & Hy & [_ Hy0]%mul64_nonzero); [|done].
    congruence.
Qed.

(** X17. With the bonds of get_bonds_nd for bond_type=['one'] on an integer (int64) state array, a site with nonzero state x and its predecessor along an axis with nonzero state y get the same label whenever the product x*y fits a signed 64-bit integer (so that it does not wrap, possibly to 0), provided the site's coordinate on that axis is not 0 or the axis is periodic (the predecessor then being the other end of the axis). *)
Theorem occupied_neighbours_share_label (fuel : nat) (state : ndarray Z)
    (shape : list Z) (d : nat) (bc : string) (reduce : bool) (c : list Z)
    (n : nat) (cn x y : Z) :
  has_shape shape state → length shape = d → String.length bc = d →
  (Z.to_nat (prod shape) < fuel)%nat →
  lattice shape c → c !! n = Some cn →
  cn ≠ 0 ∨ String.get n bc = Some "p"%char →
  nd_get state c = Some x → x ≠ 0 →
  nd_get state (pred_coords shape c n) = Some y → y ≠ 0 →
  - 2 ^ 63 ≤ x * y < 2 ^ 63 →
  ∃ bonds labels,
    get_bonds_nd state d "one" = Ok (BondsOne bonds) ∧
    hoshen_kopelman_nd fuel bonds shape d bc reduce = Ok labels ∧
    getitem labels (site_index shape c)
    = getitem labels (site_index shape (pred_coords shape c n)).
Proof.
  intros Hsh Hd Hbc Hfuel Hc Hn Hor Hx Hx0 Hy Hy0 Hfit.
  destruct (one_bonds state shape d bc Hsh Hd Hbc) as (bonds & Hb & Hwf & Hact).
  destruct (hk_correct fuel bonds shape d bc reduce Hwf (lattice_inhabited _ _ Hc) Hfuel)
    as (labels & Hhk & _ & Heq).
  exists bonds, labels. split; [done|]. split; [done|].
  apply Heq; [done|by apply nd_get_pred_lattice|].
  apply rtc_once. left. eapply pred_link; [done..|].
  apply Hact; [done|]. split.
  - rewrite <- Hd, <- (lattice_length _ _ Hc). by eapply lookup_lt_Some.
  - exists x, y. split_and!; [done..|]. rewrite mul64_exact by done. nia.
Qed.

(** X18. With reduce=False every label returned by hoshen_kopelman_nd is the flat index of a site of the labelled site's own cluster, and that site carries its own index as label. *)
Theorem labels_are_sites_of_their_cluster {A} `{Truthy A} (fuel : nat)
    (bonds : list (ndarray A)) (sizes : list Z) (d : nat) (bc : string) :
  well_formed bonds sizes d bc → inhabited sizes →
  (Z.to_nat (prod sizes) < fuel)%nat →
  ∃ labels,
    hoshen_kopelman_nd fuel bonds sizes d bc false = Ok labels ∧
    ∀ c, lattice sizes c →
      ∃ r, lattice sizes r ∧
        getitem labels (site_index sizes c) = Some (site_index sizes r) ∧
        getitem labels (site_index sizes r) = Some (site_index sizes r) ∧
        connected bonds sizes bc c r.
Proof.
  intros Hwf Hpos Hfuel.
  destruct (hk_canonical fuel bonds sizes d bc Hwf Hpos Hfuel)
    as (labels & Hhk & Hlen & Hroots & Heq).
  exists labels. split; [done|]. intros c Hc.
  destruct (Hroots (site_index sizes c)) as (r & Hr & Hget & Hself).
  { by apply site_index_bound. }
  destruct (lattice_of_site sizes r) as (cr & Hcr & <-); [|done|].
  { eapply Forall_impl; [exact Hpos|]. simpl. lia. }
  exists cr. split; [done|]. split; [done|]. split; [done|].
  apply Heq; [done..|]. congruence.
Qed.

(** ** Periodic gap statistics: one event per entry *)

Lemma sumZ_app l1 l2 : sumZ (l1 ++ l2) = sumZ l1 + sumZ l2.
Proof. unfold sumZ. induction l1 as [|x l1 IH]; simpl; lia. Qed.

Lemma line_events bad line :
  repeats bad line + wraps "p" bad line = Z.of_nat (length (kept bad line)).
Proof. unfold repeats, wraps. simpl. lia. Qed.

Lemma pass_events_periodic labels size bad :
  0 ≤ size →
  pass_events labels size "p" bad
  = Z.of_nat (length (kept bad (take (Z.to_nat (size * size)) labels))).
Proof.
  intros Hs. unfold pass_events. rewrite range_seq.
  assert (∀ k : nat,
            sumZ ((λ r, repeats bad (row labels size r) + wraps "p" bad (row labels size r))
                    <$> (Z.of_nat <$> seq 0 k))
            = Z.of_nat (length (kept bad (take (k * Z.to_nat size) labels)))) as Hk.
  { induction k as [|k IH]; [done|].
    rewrite seq_S, !fmap_app, sumZ_app, IH. simpl.
    rewrite line_events. unfold sumZ. simpl. rewrite Z.add_0_r.
    replace (Z.to_nat size + k * Z.to_nat size)%nat
      with (k * Z.to_nat size + Z.to_nat size)%nat by lia.
    rewrite <- take_take_drop, kept_app, length_app. unfold row.
    replace (Z.to_nat (Z.of_nat k * size)) with (k * Z.to_nat size)%nat by nia.
    lia. }
  rewrite Hk. do 4 f_equal. nia.
Qed.

Lemma kept_perm bad l1 l2 : l1 ≡ₚ l2 → length (kept bad l1) = length (kept bad l2).
Proof. intros Hp. unfold kept. by rewrite Hp. Qed.

Lemma Z2Qc_add a b : Z2Qc (a + b) = (Z2Qc a + Z2Qc b)%Qc.
Proof.
  unfold Z2Qc. apply Qc_is_canon. simpl. rewrite !Qred_correct.
  by rewrite inject_Z_plus.
Qed.

Lemma Z2Qc_mul a b : Z2Qc (a * b) = (Z2Qc a * Z2Qc b)%Qc.
Proof.
  unfold Z2Qc. apply Qc_is_canon. simpl. rewrite !Qred_correct.
  by rewrite inject_Z_mult.
Qed.

Lemma Z2Qc_nonzero a : a ≠ 0 → Z2Qc a ≠ 0%Qc.
Proof.
  intros Ha Heq. apply Ha. unfold Z2Qc in Heq.
  apply (f_equal this) in Heq. simpl in Heq.
  assert (Qred (inject_Z a) == 0)%Q as Hq by (by rewrite Heq).
  rewrite Qred_correct in Hq. unfold Qeq in Hq. simpl in Hq. lia.
Qed.

(** X19. With bc=['p'] the histogram that get_gapstat_2d accumulates, before its division by the norm, sums to the number of entries different from bad, once per scanned direction: every such entry gives exactly one gap event, a repeat or a wrap. The norm is size, or 2*size with both_directions, and the array returned is the histogram divided by it. *)
Theorem periodic_gapstat_one_event_per_entry (labels : list Z) (size : Z)
    (both_directions : bool) (bad : option Z) :
  0 < size → Z.of_nat (length labels) = size * size →
  ∃ f norm,
    gap_histogram labels size "p" both_directions bad = Ok (f, norm) ∧
    norm = (if both_directions then size * 2 else size) ∧
    get_gapstat_2d labels size "p" both_directions bad
    = Ok ((λ c, Z2Qc c / Z2Qc norm)%Qc <$> f) ∧
    sumZ f = (if both_directions then 2 else 1) * Z.of_nat (length (kept bad labels)).
Proof.
  intros Hsize Hlen.
  destruct (gap_histogram_spec labels size "p" both_directions bad Hsize Hlen)
    as (f & Hf & Hlenf & Hsum).
  eexists f, _. split; [done|]. split; [done|]. split.
  { unfold get_gapstat_2d. rewrite Hf. done. }
  rewrite Hsum, pass_events_periodic by lia.
  rewrite (take_ge labels) by lia. destruct both_directions; [|lia].
  rewrite pass_events_periodic by lia.
  pose proof (transposed_perm labels size ltac:(lia) Hlen) as Hp.
  rewrite (take_ge (transposed labels size)) by (rewrite Hp; lia).
  rewrite (kept_perm _ _ _ Hp). lia.
Qed.

(** ** Gap statistics do not depend on the values of the labels *)


Section relabel.
Context (phi : Z → Z) `{!Inj (=) (=) phi}.

Lemma dict_get_relabel (dc : dict) k :
  dict_get (relabel_keys phi dc) (phi k) = dict_get dc k.
Proof.
  induction dc as [|[k' v] dc IH]; [done|]. simpl.
  destruct (Z.eqb_spec k' k) as [->|Hne].
  - by rewrite Z.eqb_refl.
  - destruct (Z.eqb_spec (phi k') (phi k)) as [Heq|_]; [|done].
    by apply (inj phi) in Heq.
Qed.

Lemma dict_set_relabel (dc : dict) k v :
  dict_set (relabel_keys phi dc) (phi k) v = relabel_keys phi (dict_set dc k v).
Proof.
  induction dc as [|[k' w] dc IH]; [done|]. simpl.
  destruct (Z.eqb_spec k' k) as [->|Hne].
  - by rewrite Z.eqb_refl.
  - destruct (Z.eqb_spec (phi k') (phi k)) as [Heq|_].
    + by apply (inj phi) in Heq.
    + simpl. f_equal. apply IH.
Qed.

Lemma not_bad_relabel bad lab : not_bad (phi <$> bad) (phi lab) = not_bad bad lab.
Proof.
  destruct bad as [b|]; [|done]. simpl.
  destruct (Z.eqb_spec lab b) as [->|Hne]; [by rewrite Z.eqb_refl|].
  destruct (Z.eqb_spec (phi lab) (phi b)) as [Heq|_]; [|done].
  by apply (inj phi) in Heq.
Qed.

Lemma scan_entry_relabel bad f fs ls i lab :
  scan_entry (phi <$> bad) (f, relabel_keys phi fs, relabel_keys phi ls) i (phi lab) =
  st ← scan_entry bad (f, fs, ls) i lab;
  Ok (st.1.1, relabel_keys phi st.1.2, relabel_keys phi st.2).
Proof.
  unfold scan_entry. rewrite not_bad_relabel.
  destruct (not_bad bad lab); [|done].
  rewrite dict_get_relabel. destruct (dict_get ls lab) as [last|].
  - destruct (incr f (i - last)) as [f'|]; [|done]. simpl.
    by rewrite dict_set_relabel.
  - simpl. by rewrite !dict_set_relabel.
Qed.

Lemma scan_entries_relabel bad f fs ls i line :
  scan_entries (phi <$> bad) (f, relabel_keys phi fs, relabel_keys phi ls) i (phi <$> line) =
  st ← scan_entries bad (f, fs, ls) i line;
  Ok (st.1.1, relabel_keys phi st.1.2, relabel_keys phi st.2).
Proof.
  revert f fs ls i. induction line as [|lab line IH]; intros f fs ls i; [done|].
  rewrite fmap_cons. cbn [scan_entries]. rewrite scan_entry_relabel.
  destruct (scan_entry bad (f, fs, ls) i lab) as [[[f' fs'] ls']|]; [|done].
  simpl. apply IH.
Qed.

Lemma wrap_events_relabel size fs keys f :
  wrap_events size (relabel_keys phi fs) (relabel_keys phi keys) f =
  wrap_events size fs keys f.
Proof.
  revert f. induction keys as [|[lab last] keys IH]; intros f; [done|].
  simpl. rewrite dict_get_relabel.
  destruct (dict_get fs lab) as [first|]; [|done]. simpl.
  destruct (size =? 0); [done|].
  destruct (incr f _) as [f'|]; [|done]. simpl. apply IH.
Qed.

Lemma scan_row_relabel labels size bc bad f r :
  scan_row (phi <$> labels) size bc (phi <$> bad) f r = scan_row labels size bc bad f r.
Proof.
  unfold scan_row. rewrite <- fmap_drop, <- fmap_take.
  rewrite (scan_entries_relabel bad f [] [] 0).
  destruct (scan_entries bad (f, [], []) 0 _) as [[[f' fs'] ls']|]; [|done].
  simpl. destruct (String.eqb bc "p"); [|done]. apply wrap_events_relabel.
Qed.

Lemma scan_pass_relabel labels size bc bad f :
  scan_pass (phi <$> labels) size bc (phi <$> bad) f = scan_pass labels size bc bad f.
Proof.
  unfold scan_pass. generalize (range size). intros rows. revert f.
  induction rows as [|r rows IH]; intros f; [done|]. simpl.
  rewrite scan_row_relabel. destruct (scan_row labels size bc bad f r); [|done].
  simpl. apply IH.
Qed.

Lemma chunks_fmap rows k (l : list Z) :
  chunks rows k (phi <$> l) = fmap (M:=list) phi <$> chunks rows k l.
Proof.
  revert l. induction rows as [|rows IH]; intros l; [done|]. simpl.
  by rewrite <- fmap_take, <- fmap_drop, IH.
Qed.

Lemma transpose_fmap n (m : list (list Z)) :
  transpose n (fmap (M:=list) phi <$> m) = fmap (M:=list) phi <$> transpose n m.
Proof.
  induction m as [|row m IH].
  - simpl. by rewrite fmap_replicate.
  - rewrite fmap_cons. cbn [transpose]. rewrite IH.
    generalize (transpose n m). clear IH. intros t. revert t.
    induction row as [|x row IHr]; intros [|c t]; try done.
    rewrite !fmap_cons. cbn [zip_with]. rewrite IHr. done.
Qed.

Lemma concat_fmap (m : list (list Z)) : concat (fmap (M:=list) phi <$> m) = phi <$> concat m.
Proof.
  induction m as [|c m IH]; [done|].
  rewrite fmap_cons. cbn [concat]. by rewrite IH, fmap_app.
Qed.

Lemma gap_histogram_relabel labels size bc both bad :
  gap_histogram (phi <$> labels) size bc both (phi <$> bad)
  = gap_histogram labels size bc both bad.
Proof.
  unfold gap_histogram. destruct (zeros size) as [f0|]; [|done]. simpl.
  rewrite scan_pass_relabel. destruct (scan_pass labels size bc bad f0) as [f1|]; [|done].
  simpl. destruct both; [|done].
  unfold reshape2. rewrite length_fmap.
  destruct (_ && _); [|done]. simpl.
  rewrite chunks_fmap, transpose_fmap, concat_fmap. by rewrite scan_pass_relabel.
Qed.
End relabel.

(** X20. get_gapstat_2d depends only on which entries are equal, not on the label values: renaming the labels (and bad) by an injective function leaves the result, or the error, unchanged. *)
Theorem gapstat_ignores_label_values (phi : Z → Z) (labels : list Z) (size : Z)
    (bc : string) (both_directions : bool) (bad : option Z) :
  Inj (=) (=) phi →
  get_gapstat_2d (phi <$> labels) size bc both_directions (phi <$> bad)
  = get_gapstat_2d labels size bc both_directions bad.
Proof.
  intros Hinj. unfold get_gapstat_2d. by rewrite gap_histogram_relabel.
Qed.

Lemma gapstat_ignores_label_values_witness :
  get_gapstat_2d ((λ x, x + 7) <$> [0; 0; 2; 3]) 2 "p" true ((λ x, x + 7) <$> Some 3)
  = get_gapstat_2d [0; 0; 2; 3] 2 "p" true (Some 3).
Proof.
  apply (gapstat_ignores_label_values (λ x, x + 7)). intros x y. lia.
Defined.

(** ** The size of the largest cluster *)


(** X21. Whenever analysis returns, its third result LC_size is the largest number of sites that share one label of hoshen_kopelman_nd, and some label occurs exactly that often. *)
Theorem analysis_largest_cluster_size (fuel : nat) (binned : ndarray Z) (size : Z)
    (LC : string) (corner : Qc) (gap_stat : list Qc) (LC_size : Z) :
  analysis fuel binned size LC = Ok (corner, gap_stat, LC_size) →
  ∃ bonds labels,
    get_bonds_nd binned 2 "one" = Ok (BondsOne bonds) ∧
    hoshen_kopelman_nd fuel bonds [size; size] 2 "pp" false = Ok labels ∧
    (∃ lab, lab ∈ labels ∧ occurrences lab labels = LC_size) ∧
    ∀ lab, occurrences lab labels ≤ LC_size.
Proof.
  unfold analysis, analysis_labels.
  destruct (get_bonds_nd binned 2 "one") as [[bonds|bonds]|] eqn:Hb; simpl; try done.
  destruct (hoshen_kopelman_nd fuel bonds [size; size] 2 "pp" false) as [labels|]
    eqn:Hhk; simpl; [|done].
  destruct (most_common1 (counter labels)) as [[LC_label s]|] eqn:HLC; simpl; [|done].
  intros Hrest. assert (s = LC_size) as ->.
  { destruct (if String.eqb LC "exclude" then _ else _) as [labels'|]; [|done].
    simpl in Hrest. destruct (get_gapstat_2d _ _ _ _ _); [|done]. simpl in Hrest.
    destruct (corner_contribution _ _); [|done]. simpl in Hrest. congruence. }
  apply most_common_spec in HLC as (Hin & Hocc & Hmax).
  exists bonds, labels. split; [done|]. split; [done|]. split; [by exists LC_label|done].
Qed.

Lemma analysis_largest_cluster_size_witness :
  ∃ bonds labels,
    get_bonds_nd (Arr [Arr [Scalar 1; Scalar 0]; Arr [Scalar 0; Scalar 1]]) 2 "one"
    = Ok (BondsOne bonds) ∧
    hoshen_kopelman_nd 5 bonds [2; 2] 2 "pp" false = Ok labels ∧
    (∃ lab, lab ∈ labels ∧ occurrences lab labels = 1) ∧
    ∀ lab, occurrences lab labels ≤ 1.
Proof.
  eapply (analysis_largest_cluster_size 5
            (Arr [Arr [Scalar 1; Scalar 0]; Arr [Scalar 0; Scalar 1]]) 2 "include").
  vm_compute. reflexivity.
Defined.

(** X22. Whenever cluster_membership returns, LC_size is the largest number of lattice sites (bins, not particles) that share one label, whatever particle_bin is. *)
Theorem cluster_membership_largest_cluster_size (fuel : nat) (binned : ndarray Z)
    (particle_bin : list Z) (size : Z) (clusters : list (list Z)) (LC_size : Z) :
  cluster_membership.cluster_membership fuel binned particle_bin size
  = Ok (clusters, LC_size) →
  ∃ bonds labels,
    get_bonds_nd binned 2 "one" = Ok (BondsOne bonds) ∧
    hoshen_kopelman_nd fuel bonds [size; size] 2 "pp" false = Ok labels ∧
    (∃ lab, lab ∈ labels ∧ occurrences lab labels = LC_size) ∧
    ∀ lab, occurrences lab labels ≤ LC_size.
Proof.
  unfold cluster_membership.cluster_membership.
  destruct (get_bonds_nd binned 2 "one") as [[bonds|bonds]|] eqn:Hb; simpl; try done.
  destruct (hoshen_kopelman_nd fuel bonds [size; size] 2 "pp" false) as [labels|]
    eqn:Hhk; simpl; [|done].
  destruct (most_common1 (counter labels)) as [[LC_label s]|] eqn:HLC; simpl; [|done].
  intros Hrest. assert (s = LC_size) as ->.
  { destruct (mapM _ _); [|done]. simpl in Hrest.
    destruct (np_max labels); [|done]. simpl in Hrest.
    destruct (cluster_membership.collect _ _ _); [|done]. simpl in Hrest.
    destruct (cluster_membership.singles _ _ _); [|done]. simpl in Hrest.
    destruct (cluster_membership.pop_all _ _); [|done]. simpl in Hrest. congruence. }
  apply most_common_spec in HLC as (Hin & Hocc & Hmax).
  exists bonds, labels. split; [done|]. split; [done|]. split; [by exists LC_label|done].
Qed.

Lemma cluster_membership_largest_cluster_size_witness :
  ∃ bonds labels,
    get_bonds_nd (Arr [Arr [Scalar 1; Scalar 1]; Arr [Scalar 0; Scalar 0]]) 2 "one"
    = Ok (BondsOne bonds) ∧
    hoshen_kopelman_nd 5 bonds [2; 2] 2 "pp" false = Ok labels ∧
    (∃ lab, lab ∈ labels ∧ occurrences lab labels = 2) ∧
    ∀ lab, occurrences lab labels ≤ 2.
Proof.
  eapply (cluster_membership_largest_cluster_size 5
            (Arr [Arr [Scalar 1; Scalar 1]; Arr [Scalar 0; Scalar 0]]) [0] 2).
  vm_compute. reflexivity.
Defined.

(** ** Boundary characters *)


Lemma for_each_ext {A} (xs : list A) (f g : A → prog unit) :
  (∀ x, x ∈ xs → f x = g x) → for_each xs f = for_each xs g.
Proof.
  induction xs as [|x xs IH]; intros Hfg; [done|]. simpl.
  rewrite (Hfg x) by (by left). rewrite IH; [done|]. intros y Hy. apply Hfg. by right.
Qed.

Lemma boundary_pass_ext {A} `{Truthy A} fuel (bonds : list (ndarray A)) sizes d bc bc' :
  periodic_axes bc d = periodic_axes bc' d →
  boundary_pass fuel bonds sizes d bc = boundary_pass fuel bonds sizes d bc'.
Proof.
  intros Heq. unfold boundary_pass. apply for_each_ext. intros n Hn.
  apply list_elem_of_lookup in Hn as [k Hk].
  apply (f_equal (λ l, l !! k)) in Heq. unfold periodic_axes in Heq.
  rewrite !list_lookup_fmap, Hk in Heq. simpl in Heq.
  destruct (String.get n bc) as [ch|], (String.get n bc') as [ch'|]; simpl in *;
    try done.
  injection Heq as ->. done.
Qed.

(** X23. hoshen_kopelman_nd reads of the boundary string only whether each of the first d characters is ['p']: two strings that agree on that give the same result, so every other character (also ['P']) means an open boundary. *)
Theorem only_p_is_periodic {A} `{Truthy A} (fuel : nat) (bonds : list (ndarray A))
    (sizes : list Z) (d : nat) (bc bc' : string) (reduce : bool) :
  periodic_axes bc d = periodic_axes bc' d →
  hoshen_kopelman_nd fuel bonds sizes d bc reduce
  = hoshen_kopelman_nd fuel bonds sizes d bc' reduce.
Proof.
  intros Heq. unfold hoshen_kopelman_nd, hk_body.
  by rewrite (boundary_pass_ext fuel bonds sizes d bc bc' Heq).
Qed.

Lemma only_p_is_periodic_witness :
  hoshen_kopelman_nd 5 bonds_2x2_last_only [2; 2] 2 "po" false
  = hoshen_kopelman_nd 5 bonds_2x2_last_only [2; 2] 2 "pP" false.
Proof. apply only_p_is_periodic. reflexivity. Defined.

(** ** [analysis] with an odd size *)

Lemma np_dotQ_mismatch (a b : list Qc) :
  length a ≠ length b → np_dotQ a b = Err ValueError.
Proof.
  revert b. induction a as [|x a IH]; intros [|y b] Hlen; simpl in *; try done.
  rewrite IH by lia. done.
Qed.

Lemma corner_contribution_odd (g : list Qc) (size : Z) :
  3 ≤ size → Z.odd size = true → Z.of_nat (length g) = size →
  corner_contribution g size = Err ValueError.
Proof.
  intros Hs Hodd Hlen.
  assert (size = 2 * (size / 2) + 1) as Hhalf.
  { rewrite (Z.div_mod size 2) at 1 by lia. rewrite <- Z.bit0_mod, Z.bit0_odd, Hodd. done. }
  unfold corner_contribution. cbv zeta. unfold np_add.
  set (h := Z.to_nat (size / 2)).
  assert (length (take h g) = h) as Ha by (rewrite length_take; lia).
  assert (length (reverse (drop h g)) = S h) as Hb
    by (rewrite length_reverse, length_drop; lia).
  rewrite Ha, Hb. rewrite (proj2 (Nat.eqb_neq h (S h))) by lia.
  destruct (take h g) as [|x [|x' a]] eqn:Eta; simpl in Ha.
  - lia.
  - destruct (reverse (drop h g)) as [|y [|y' [|y'' b]]]; simpl in Hb; try lia.
    simpl. rewrite np_dotQ_mismatch; [done|].
    rewrite length_fmap, arange_length. simpl. lia.
  - destruct (reverse (drop h g)) as [|y [|y' b]]; simpl in Hb; try lia. done.
Qed.

(** X24. For every odd size >= 3 and every size-by-size grid, analysis raises ValueError: the two halves of the gap statistics added in the corner contribution have different lengths. *)
Theorem analysis_raises_for_odd_size (fuel : nat) (binned : ndarray Z) (size : Z)
    (LC : string) :
  3 ≤ size → Z.odd size = true → has_shape [size; size] binned →
  (Z.to_nat (size * size) < fuel)%nat →
  analysis fuel binned size LC = Err ValueError.
Proof.
  intros Hsize Hodd Hsh Hfuel.
  destruct (analysis_labels_spec fuel binned size) as
    (bonds & labels & LC_label & LC_size & labels' & _ & _ & _ & _ & Han & Hlen & Hlen' & _);
    [lia|done|done|].
  unfold analysis. rewrite Han. simpl.
  set (ls := if String.eqb LC "exclude" then labels' else labels).
  assert (Z.of_nat (length ls) = size * size) as Hls.
  { unfold ls. destruct (String.eqb LC "exclude"); lia. }
  destruct (gap_histogram_spec ls size "p" true None) as (f & Hf & Hlenf & _);
    [lia|done|].
  unfold get_gapstat_2d. rewrite Hf. simpl.
  rewrite corner_contribution_odd; [done..|]. by rewrite length_fmap.
Qed.

Lemma analysis_raises_for_odd_size_witness :
  analysis 10 (Arr [Arr [Scalar 1; Scalar 0; Scalar 0];
                    Arr [Scalar 0; Scalar 1; Scalar 1];
                    Arr [Scalar 0; Scalar 0; Scalar 0]]) 3 "include" = Err ValueError.
Proof.
  apply analysis_raises_for_odd_size; [lia|reflexivity| |simpl; lia].
  simpl. repeat constructor.
Defined.

(** ** Gap 0 *)

Lemma incr_lookup_0 (f f' : list Z) (gap : Z) :
  0 < gap → incr f gap = Ok f' → f' !! 0%nat = f !! 0%nat.
Proof.
  intros Hgap. unfold incr, getitem, setitem.
  destruct (py_index (length f) gap) as [k|] eqn:Hk; [|done]. simpl.
  apply py_index_nonneg in Hk as ->; [|lia].
  destruct (f !! Z.to_nat gap); [|done]. simpl. intros [= <-].
  apply list_lookup_insert_ne. lia.
Qed.

Lemma dict_get_set_lt (dc : dict) lab (i : Z) k v :
  (∀ k v, dict_get dc k = Some v → v < i) →
  dict_get (dict_set dc lab i) k = Some v → v < i + 1.
Proof.
  intros Hdc. rewrite dict_get_set. destruct (decide (k = lab)).
  - intros [= <-]. lia.
  - intros Hk. specialize (Hdc _ _ Hk). lia.
Qed.

Lemma scan_entries_lookup_0 bad f fs ls i line f' fs' ls' :
  (∀ k v, dict_get ls k = Some v → v < i) →
  scan_entries bad (f, fs, ls) i line = Ok (f', fs', ls') →
  f' !! 0%nat = f !! 0%nat.
Proof.
  revert f fs ls i. induction line as [|lab line IH]; intros f fs ls i Hls.
  - by intros [= <- _ _].
  - cbn [scan_entries]. unfold scan_entry.
    destruct (not_bad bad lab).
    + destruct (dict_get ls lab) as [last|] eqn:Hlast.
      * destruct (incr f (i - last)) as [f1|] eqn:Hincr; [|done]. simpl.
        intros Hrest. rewrite <- (incr_lookup_0 f f1 (i - last)); [|  |done].
        -- eapply IH; [|done]. intros k v. by apply dict_get_set_lt.
        -- specialize (Hls _ _ Hlast). lia.
      * simpl. apply IH. intros k v. by apply dict_get_set_lt.
    + simpl. apply IH. intros k v Hk. specialize (Hls _ _ Hk). lia.
Qed.

Lemma scan_pass_open_lookup_0 labels size bc bad f f' :
  String.eqb bc "p" = false →
  scan_pass labels size bc bad f = Ok f' → f' !! 0%nat = f !! 0%nat.
Proof.
  intros Hbc. unfold scan_pass. generalize (range size). intros rows. revert f.
  induction rows as [|r rows IH]; intros f; [by intros [= <-]|]. simpl.
  destruct (scan_row labels size bc bad f r) as [f1|] eqn:Hrow; [|done]. simpl.
  intros Hrest. rewrite (IH _ Hrest). unfold scan_row in Hrow. rewrite Hbc in Hrow.
  destruct (scan_entries _ _ _ _) as [[[f2 fs2] ls2]|] eqn:Hscan; [|done].
  simpl in Hrow. injection Hrow as ->.
  eapply scan_entries_lookup_0; [|done]. done.
Qed.

(** X25. With a boundary condition other than ['p'], the statistics returned by get_gapstat_2d has g(0) = 0: a gap within a line is at least 1. *)
Theorem open_gapstat_has_no_zero_gap (labels : list Z) (size : Z) (bc : string)
    (both_directions : bool) (bad : option Z) (gap_stat : list Qc) :
  String.eqb bc "p" = false →
  get_gapstat_2d labels size bc both_directions bad = Ok gap_stat →
  g_at gap_stat 0 = 0%Qc.
Proof.
  intros Hbc. unfold get_gapstat_2d.
  destruct (gap_histogram labels size bc both_directions bad) as [[f norm]|] eqn:Hf;
    [|done].
  simpl. intros [= <-]. unfold g_at.
  enough (f !! 0%nat = None ∨ f !! 0%nat = Some 0) as Hf0.
  { unfold getitem, py_index. rewrite length_fmap. simpl.
    destruct (f !! 0%nat) as [c|] eqn:Hc.
    - destruct Hf0 as [?|[= ->]]; [done|].
      destruct f as [|c' f]; [done|]. simpl in *. injection Hc as ->.
      apply Z2Qc_div_0.
    - by destruct f. }
  unfold gap_histogram in Hf. unfold zeros in Hf.
  destruct (size <? 0); [done|]. simpl in Hf.
  assert (replicate (Z.to_nat size) 0 !! 0%nat = None ∨
          replicate (Z.to_nat size) 0 !! 0%nat = Some 0) as H0.
  { destruct (Z.to_nat size); [by left|by right]. }
  destruct (scan_pass labels size bc bad _) as [f1|] eqn:H1; [|done]. simpl in Hf.
  apply (scan_pass_open_lookup_0 _ _ _ _ _ _ Hbc) in H1.
  destruct both_directions.
  - destruct (reshape2 labels size); [|done]. simpl in Hf.
    destruct (scan_pass _ size bc bad f1) as [f2|] eqn:H2; [|done]. simpl in Hf.
    apply (scan_pass_open_lookup_0 _ _ _ _ _ _ Hbc) in H2.
    injection Hf as <- _. by rewrite H2, H1.
  - injection Hf as <- _. by rewrite H1.
Qed.

Lemma open_gapstat_has_no_zero_gap_witness :
  g_at ((λ c, Z2Qc c / Z2Qc 2)%Qc <$> [0; 1]) 0 = 0%Qc.
Proof.
  apply (open_gapstat_has_no_zero_gap [5; 5; 1; 2] 2 "o" false None); reflexivity.
Defined.

(** ** Lines without repeats *)

(** X26. If all size*size labels are distinct (no two sites in one cluster), get_gapstat_2d with bc=['p'] returns g(0) = size and g(s) = 0 for 0 < s < size, for one direction as for both: each entry only closes the periodic gap to itself. *)
Theorem gapstat_of_distinct_labels (labels : list Z) (size : Z)
    (both_directions : bool) :
  1 ≤ size → NoDup labels → Z.of_nat (length labels) = size * size →
  ∃ gap_stat,
    get_gapstat_2d labels size "p" both_directions None = Ok gap_stat ∧
    g_at gap_stat 0 = Z2Qc size ∧
    ∀ s, 0 < s < size → g_at gap_stat s = 0%Qc.
Proof.
  intros Hsize Hnd Hlen.
  set (k := if both_directions then 2 else 1).
  assert (gap_histogram labels size "p" both_directions None
          = Ok (<[0%nat := k * (size * size)]> (replicate (Z.to_nat size) 0), size * k))
    as Hf.
  { unfold gap_histogram. rewrite zeros_spec by lia. simpl.
    rewrite (scan_pass_fresh _ size _ 0); [|lia|rewrite length_replicate; lia| |done..].
    2:{ apply lookup_replicate. split; [done|lia]. }
    simpl. unfold k. destruct both_directions.
    - rewrite reshape2_spec by lia. simpl. fold (transposed labels size).
      pose proof (transposed_perm labels size) as Hperm.
      rewrite (scan_pass_fresh _ size _ (0 + size * size)).
      + rewrite list_insert_insert_eq.
        replace (0 + size * size + size * size) with (2 * (size * size)) by ring. done.
      + lia.
      + rewrite length_insert, length_replicate. lia.
      + apply list_lookup_insert_eq. rewrite length_replicate. lia.
      + rewrite Hperm by lia. done.
      + rewrite Hperm by lia. done.
    - do 3 f_equal; lia. }
  eexists. unfold get_gapstat_2d. rewrite Hf. simpl. split; [done|].
  assert (Z2Qc size ≠ 0%Qc) as Ha by (apply Z2Qc_nonzero; lia).
  assert (Z2Qc k ≠ 0%Qc) as Hb by (apply Z2Qc_nonzero; unfold k; destruct both_directions; lia).
  split.
  - unfold g_at. rewrite getitem_fmap, getitem_site
      by (rewrite length_insert, length_replicate; lia).
    rewrite list_lookup_insert_eq by (rewrite length_replicate; lia). simpl.
    rewrite !Z2Qc_mul. field. done.
  - intros s Hs. unfold g_at. rewrite getitem_fmap, getitem_site
      by (rewrite length_insert, length_replicate; lia).
    rewrite list_lookup_insert_ne by lia.
    rewrite lookup_replicate_2 by lia. simpl. apply Z2Qc_div_0.
Qed.

(** ** Both directions: the statistics of the transposed array *)

Lemma incr_length (f f' : list Z) i : incr f i = Ok f' → length f' = length f.
Proof.
  unfold incr. destruct (getitem f i); [|done]. simpl.
  destruct (setitem f i _) eqn:Hs; [|done]. simpl. intros [= <-].
  by eapply setitem_length.
Qed.

Lemma incr_add (f g : list Z) i :
  length g = length f →
  incr (zip_with Z.add f g) i = f' ← incr f i; Ok (zip_with Z.add f' g).
Proof.
  intros Hlen. unfold incr, getitem, setitem.
  rewrite length_zip_with_l_eq by done.
  destruct (py_index (length f) i) as [k|] eqn:Hk; [|done]. simpl.
  apply py_index_lt in Hk.
  destruct (lookup_lt_is_Some_2 f k) as [c Hc]; [done|].
  destruct (lookup_lt_is_Some_2 g k) as [e He]; [lia|].
  rewrite lookup_zip_with, Hc, He. simpl. f_equal.
  rewrite <- (list_insert_id g k e) at 2 by done.
  rewrite <- insert_zip_with. f_equal. lia.
Qed.

Lemma scan_entries_length bad f fs ls i line f' fs' ls' :
  scan_entries bad (f, fs, ls) i line = Ok (f', fs', ls') → length f' = length f.
Proof.
  revert f fs ls i. induction line as [|lab line IH]; intros f fs ls i.
  - by intros [= <- _ _].
  - cbn [scan_entries]. unfold scan_entry. destruct (not_bad bad lab).
    + destruct (dict_get ls lab) as [last|].
      * destruct (incr f (i - last)) as [f1|] eqn:Hincr; [|done]. simpl.
        intros Hrest%IH. rewrite Hrest. by eapply incr_length.
      * simpl. apply IH.
    + simpl. apply IH.
Qed.

Lemma scan_entries_add bad (f g : list Z) fs ls i line :
  length g = length f →
  scan_entries bad (zip_with Z.add f g, fs, ls) i line =
  st ← scan_entries bad (f, fs, ls) i line; Ok (zip_with Z.add st.1.1 g, st.1.2, st.2).
Proof.
  revert f fs ls i. induction line as [|lab line IH]; intros f fs ls i Hlen; [done|].
  cbn [scan_entries]. unfold scan_entry. destruct (not_bad bad lab).
  - destruct (dict_get ls lab) as [last|].
    + rewrite incr_add by done.
      destruct (incr f (i - last)) as [f1|] eqn:Hincr; [|done]. simpl.
      apply IH. apply incr_length in Hincr. lia.
    + simpl. by apply IH.
  - simpl. by apply IH.
Qed.

Lemma wrap_events_length size fs keys (f f' : list Z) :
  wrap_events size fs keys f = Ok f' → length f' = length f.
Proof.
  revert f. induction keys as [|[lab last] keys IH]; intros f; [by intros [= <-]|].
  simpl. destruct (dict_get fs lab) as [first|]; [|done]. simpl.
  destruct (size =? 0); [done|].
  destruct (incr f _) as [f1|] eqn:Hincr; [|done]. simpl.
  intros Hrest%IH. rewrite Hrest. by eapply incr_length.
Qed.

Lemma wrap_events_add size fs keys (f g : list Z) :
  length g = length f →
  wrap_events size fs keys (zip_with Z.add f g) =
  f' ← wrap_events size fs keys f; Ok (zip_with Z.add f' g).
Proof.
  revert f. induction keys as [|[lab last] keys IH]; intros f Hlen; [done|].
  simpl. destruct (dict_get fs lab) as [first|]; [|done]. simpl.
  destruct (size =? 0); [done|]. rewrite incr_add by done.
  destruct (incr f _) as [f1|] eqn:Hincr; [|done]. simpl.
  apply IH. apply incr_length in Hincr. lia.
Qed.

Lemma scan_row_length labels size bc bad (f f' : list Z) r :
  scan_row labels size bc bad f r = Ok f' → length f' = length f.
Proof.
  unfold scan_row.
  destruct (scan_entries _ _ _ _) as [[[f1 fs1] ls1]|] eqn:Hscan; [|done]. simpl.
  apply scan_entries_length in Hscan.
  destruct (String.eqb bc "p").
  - intros Hw%wrap_events_length. lia.
  - intros [= <-]. done.
Qed.

Lemma scan_row_add labels size bc bad (f g : list Z) r :
  length g = length f →
  scan_row labels size bc bad (zip_with Z.add f g) r =
  f' ← scan_row labels size bc bad f r; Ok (zip_with Z.add f' g).
Proof.
  intros Hlen. unfold scan_row. rewrite scan_entries_add by done.
  destruct (scan_entries _ _ _ _) as [[[f1 fs1] ls1]|] eqn:Hscan; [|done]. simpl.
  apply scan_entries_length in Hscan.
  destruct (String.eqb bc "p"); [|done]. apply wrap_events_add. lia.
Qed.

Lemma scan_pass_add labels size bc bad (f g : list Z) :
  length g = length f →
  scan_pass labels size bc bad (zip_with Z.add f g) =
  f' ← scan_pass labels size bc bad f; Ok (zip_with Z.add f' g).
Proof.
  unfold scan_pass. generalize (range size). intros rows. revert f.
  induction rows as [|r rows IH]; intros f Hlen; [done|]. simpl.
  rewrite scan_row_add by done.
  destruct (scan_row labels size bc bad f r) as [f1|] eqn:Hrow; [|done]. simpl.
  apply IH. apply scan_row_length in Hrow. lia.
Qed.

Lemma transpose_rows {A} n (m : list (list A)) :
  Forall (λ c, length c = n) m →
  length (transpose n m) = n ∧ Forall (λ c, length c = length m) (transpose n m).
Proof.
  induction 1 as [|row m Hrow Hm [IHlen IH]]; simpl.
  - split; [by rewrite length_replicate|]. by apply Forall_replicate.
  - split; [rewrite length_zip_with; lia|].
    clear Hm. revert row Hrow IHlen IH. generalize (transpose n m). intros t.
    revert n. induction t as [|c t IHt]; intros n [|x row] Hrow Hlen Hall; simpl;
      try done.
    apply Forall_cons in Hall as [Hc Hall]. constructor; [simpl; lia|].
    simpl in *. apply (IHt (length t)); [lia|done|done].
Qed.

Lemma transpose_zip_cons {A} k (row : list A) (t : list (list A)) :
  length row = length t → Forall (λ c, length c = k) t →
  transpose (S k) (zip_with cons row t) = row :: transpose k t.
Proof.
  revert t. induction row as [|x row IH]; intros [|c t] Hlen Hall; try done.
  apply Forall_cons in Hall as [Hc Hall]. simpl.
  rewrite IH; [done|simpl in Hlen; lia|done].
Qed.

Lemma transpose_involutive {A} n (m : list (list A)) :
  Forall (λ c, length c = n) m →
  transpose (length m) (transpose n m) = m.
Proof.
  induction 1 as [|row m Hrow Hm IH]; simpl.
  - by destruct n.
  - destruct (transpose_rows n m Hm) as [Hlen Hall].
    rewrite transpose_zip_cons by (done || lia). by rewrite IH.
Qed.

Lemma chunks_concat {A} rows k (m : list (list A)) :
  length m = rows → Forall (λ c, length c = k) m → chunks rows k (concat m) = m.
Proof.
  intros <- Hall. induction Hall as [|c m Hc Hm IH]; [done|]. simpl.
  rewrite take_app_length' by done. rewrite drop_app_length' by done. by rewrite IH.
Qed.

Lemma chunks_rows {A} rows k (l : list A) : length (chunks rows k l) = rows.
Proof. revert l. induction rows as [|rows IH]; intros l; simpl; [done|]. by rewrite IH. Qed.

Lemma transposed_involutive labels size :
  0 ≤ size → Z.of_nat (length labels) = size * size →
  transposed (transposed labels size) size = labels.
Proof.
  intros Hs Hlen. unfold transposed. set (n := Z.to_nat size).
  assert (Forall (λ c, length c = n) (chunks n n labels)) as Hch.
  { apply chunks_length. nia. }
  assert (length (chunks n n labels) = n) as Hrows by apply chunks_rows.
  destruct (transpose_rows n _ Hch) as [Hlen' Hall']. rewrite Hrows in Hall'.
  rewrite chunks_concat by done.
  rewrite <- Hrows at 1. rewrite transpose_involutive by done.
  rewrite concat_chunks. apply take_ge. nia.
Qed.

Lemma zip_with_add_comm (f g : list Z) : zip_with Z.add f g = zip_with Z.add g f.
Proof.
  revert g. induction f as [|x f IH]; intros [|y g]; simpl; try done.
  rewrite IH. f_equal. lia.
Qed.

Lemma zip_with_add_zeros (f : list Z) :
  zip_with Z.add (replicate (length f) 0) f = f.
Proof. induction f as [|x f IH]; simpl; [done|]. by rewrite IH. Qed.

(** X27. With both_directions=True get_gapstat_2d returns the same statistics for a size-by-size label array and for its transpose. *)
Theorem gapstat_both_directions_symmetric (labels : list Z) (size : Z) (bc : string)
    (bad : option Z) :
  0 < size → Z.of_nat (length labels) = size * size →
  get_gapstat_2d (transposed labels size) size bc true bad
  = get_gapstat_2d labels size bc true bad.
Proof.
  intros Hsize Hlen.
  pose proof (transposed_perm labels size ltac:(lia) Hlen) as Hperm.
  assert (Z.of_nat (length (transposed labels size)) = size * size) as Hlen'
    by (by rewrite Hperm).
  set (z := replicate (Z.to_nat size) 0).
  destruct (scan_pass_spec labels size bc bad z) as (f1 & Hf1 & Hl1 & _);
    [done|unfold z; rewrite length_replicate; lia|].
  destruct (scan_pass_spec (transposed labels size) size bc bad z)
    as (f2 & Hf2 & Hl2 & _); [done|unfold z; rewrite length_replicate; lia|].
  assert (length z = Z.to_nat size) as Hz by apply length_replicate.
  assert (∀ l g h, scan_pass l size bc bad z = Ok g → length h = Z.to_nat size →
            scan_pass l size bc bad h = Ok (zip_with Z.add g h)) as Hadd.
  { intros l g h Hg Hh. rewrite <- (zip_with_add_zeros h) at 1. rewrite Hh. fold z.
    rewrite scan_pass_add by lia. by rewrite Hg. }
  unfold get_gapstat_2d, gap_histogram. rewrite zeros_spec by lia. simpl. fold z.
  rewrite Hf1, Hf2. simpl. rewrite !reshape2_spec by lia. simpl.
  fold (transposed labels size). fold (transposed (transposed labels size) size).
  rewrite transposed_involutive by lia.
  rewrite (Hadd _ f1 f2) by (done || lia).
  rewrite (Hadd _ f2 f1) by (done || lia). simpl.
  by rewrite zip_with_add_comm.
Qed.

Lemma gapstat_both_directions_symmetric_witness :
  get_gapstat_2d (transposed [0; 0; 2; 0] 2) 2 "p" true None
  = get_gapstat_2d [0; 0; 2; 0] 2 "p" true None.
Proof. apply gapstat_both_directions_symmetric; [lia|reflexivity]. Defined.

(** ** Equal states: [get_bonds_nd] with ['all'] *)

Lemma all_bonds_active (state : ndarray Z) (shape : list Z) (d : nat) (bc : string) :
  has_shape shape state → length shape = d → String.length bc = d →
  ∃ bonds, get_bonds_nd state d "all" = Ok (BondsAll bonds) ∧
    well_formed bonds shape d bc ∧
    ∀ n c, lattice shape c → (n < d)%nat →
      (∃ x, nd_get state c = Some x ∧
            nd_get state (pred_coords shape c n) = Some x) →
      active bonds n c.
Proof.
  intros Hsh Hd Hbc.
  destruct (all_bonds_wf state shape d bc Hsh Hd Hbc) as (bonds & Hb & Hwf).
  exists bonds. split; [done|]. split; [done|].
  intros n c Hc Hn (x & Hx & Hy).
  assert (d ≤ length shape)%nat as Hle by lia.
  destruct (get_bonds_spec state shape d Hsh Hle num_eqb n Hn)
    as (bonds' & b' & Hbonds' & _ & _ & Hb' & Hget).
  assert (bonds' = bonds) as ->.
  { unfold get_bonds_nd in Hb. destruct (mapM _ (seq 0 d)) as [rolls|]; [|done].
    simpl in *. rewrite Hbonds' in Hb. simpl in Hb. congruence. }
  destruct (Hget c Hc) as (x' & y' & Hx' & Hy' & Hv).
  exists b', (y' =? x'). split; [done|]. split; [done|].
  assert (x' = x) as -> by congruence. assert (y' = x) as -> by congruence.
  unfold truthy, truthy_bool. apply Z.eqb_refl.
Qed.

(** X28. With the bonds of get_bonds_nd for bond_type=['all'], a site and its predecessor along an axis that hold the same state get the same label, provided the site's coordinate on that axis is not 0 or the axis is periodic. *)
Theorem equal_neighbours_share_label (fuel : nat) (state : ndarray Z)
    (shape : list Z) (d : nat) (bc : string) (reduce : bool) (c : list Z)
    (n : nat) (cn x : Z) :
  has_shape shape state → length shape = d → String.length bc = d →
  (Z.to_nat (prod shape) < fuel)%nat →
  lattice shape c → c !! n = Some cn →
  cn ≠ 0 ∨ String.get n bc = Some "p"%char →
  nd_get state c = Some x → nd_get state (pred_coords shape c n) = Some x →
  ∃ bonds labels,
    get_bonds_nd state d "all" = Ok (BondsAll bonds) ∧
    hoshen_kopelman_nd fuel bonds shape d bc reduce = Ok labels ∧
    getitem labels (site_index shape c)
    = getitem labels (site_index shape (pred_coords shape c n)).
Proof.
  intros Hsh Hd Hbc Hfuel Hc Hn Hor Hx Hy.
  destruct (all_bonds_active state shape d bc Hsh Hd Hbc) as (bonds & Hb & Hwf & Hact).
  destruct (hk_correct fuel bonds shape d bc reduce Hwf (lattice_inhabited _ _ Hc) Hfuel)
    as (labels & Hhk & _ & Heq).
  exists bonds, labels. split; [done|]. split; [done|].
  apply Heq; [done|by apply nd_get_pred_lattice|].
  apply rtc_once. left. eapply pred_link; [done..|].
  apply Hact; [done| |by exists x].
  rewrite <- Hd, <- (lattice_length _ _ Hc). by eapply lookup_lt_Some.
Qed.

Lemma get_bonds_feed_hoshen_kopelman_witness :
  (∃ bonds labels,
     get_bonds_nd (Arr [Arr [Scalar 1; Scalar 1]; Arr [Scalar 0; Scalar 0]]) 2 "one"
     = Ok (BondsOne bonds) ∧
     hoshen_kopelman_nd 5 bonds [2; 2] 2 "po" true = Ok labels ∧
     length labels = Z.to_nat (prod [2; 2])) ∧
  (∃ bonds labels,
     get_bonds_nd (Arr [Arr [Scalar 1; Scalar 1]; Arr [Scalar 0; Scalar 0]]) 2 "all"
     = Ok (BondsAll bonds) ∧
     hoshen_kopelman_nd 5 bonds [2; 2] 2 "po" true = Ok labels ∧
     length labels = Z.to_nat (prod [2; 2])).
Proof.
  apply (get_bonds_feed_hoshen_kopelman 5
           (Arr [Arr [Scalar 1; Scalar 1]; Arr [Scalar 0; Scalar 0]]) [2; 2] 2 "po" true).
  - simpl. repeat constructor.
  - repeat (constructor; [lia|]). constructor.
  - reflexivity.
  - reflexivity.
  - simpl. lia.
Defined.

Lemma empty_site_is_singleton_cluster_witness :
  ∃ bonds labels,
    get_bonds_nd (Arr [Arr [Scalar 1; Scalar 1]; Arr [Scalar 0; Scalar 0]]) 2 "one"
    = Ok (BondsOne bonds) ∧
    hoshen_kopelman_nd 5 bonds [2; 2] 2 "pp" false = Ok labels ∧
    getitem labels (site_index [2; 2] [1; 0]) ≠ getitem labels (site_index [2; 2] [1; 1]).
Proof.
  apply (empty_site_is_singleton_cluster 5
           (Arr [Arr [Scalar 1; Scalar 1]; Arr [Scalar 0; Scalar 0]]) [2; 2] 2 "pp" false).
  - simpl. repeat constructor.
  - reflexivity.
  - reflexivity.
  - simpl. lia.
  - repeat (constructor; [lia|]). constructor.
  - repeat (constructor; [lia|]). constructor.
  - reflexivity.
  - congruence.
Defined.

Lemma occupied_neighbours_share_label_witness :
  ∃ bonds labels,
    get_bonds_nd (Arr [Arr [Scalar 2; Scalar 3]; Arr [Scalar 0; Scalar 0]]) 2 "one"
    = Ok (BondsOne bonds) ∧
    hoshen_kopelman_nd 5 bonds [2; 2] 2 "oo" false = Ok labels ∧
    getitem labels (site_index [2; 2] [0; 1])
    = getitem labels (site_index [2; 2] (pred_coords [2; 2] [0; 1] 1)).
Proof.
  apply (occupied_neighbours_share_label 5
           (Arr [Arr [Scalar 2; Scalar 3]; Arr [Scalar 0; Scalar 0]]) [2; 2] 2 "oo" false
           [0; 1] 1 1 3 2).
  - simpl. repeat constructor.
  - reflexivity.
  - reflexivity.
  - simpl. lia.
  - repeat (constructor; [lia|]). constructor.
  - reflexivity.
  - left. lia.
  - reflexivity.
  - lia.
  - reflexivity.
  - lia.
  - lia.
Defined.

Lemma labels_are_sites_of_their_cluster_witness :
  ∃ labels,
    hoshen_kopelman_nd 5 bonds_2x2_last_only [2; 2] 2 "po" false = Ok labels ∧
    ∀ c, lattice [2; 2] c →
      ∃ r, lattice [2; 2] r ∧
        getitem labels (site_index [2; 2] c) = Some (site_index [2; 2] r) ∧
        getitem labels (site_index [2; 2] r) = Some (site_index [2; 2] r) ∧
        connected bonds_2x2_last_only [2; 2] "po" c r.
Proof.
  apply (labels_are_sites_of_their_cluster 5 bonds_2x2_last_only [2; 2] 2 "po").
  - split; [reflexivity|]. split; [reflexivity|]. split; [|reflexivity].
    repeat (constructor; simpl; try done).
  - repeat (constructor; [lia|]). constructor.
  - simpl. lia.
Defined.

Lemma periodic_gapstat_one_event_per_entry_witness :
  ∃ f norm,
    gap_histogram [0; 0; 2; 0; 5; 2; 0; 0; 5] 3 "p" true (Some 2) = Ok (f, norm) ∧
    norm = (if true then 3 * 2 else 3) ∧
    get_gapstat_2d [0; 0; 2; 0; 5; 2; 0; 0; 5] 3 "p" true (Some 2)
    = Ok ((λ c, Z2Qc c / Z2Qc norm)%Qc <$> f) ∧
    sumZ f = (if true then 2 else 1)
             * Z.of_nat (length (kept (Some 2) [0; 0; 2; 0; 5; 2; 0; 0; 5])).
Proof.
  apply (periodic_gapstat_one_event_per_entry [0; 0; 2; 0; 5; 2; 0; 0; 5] 3 true (Some 2));
    [lia|reflexivity].
Defined.

Lemma gapstat_of_distinct_labels_witness :
  ∃ gap_stat,
    get_gapstat_2d [4; 7; 1; 9] 2 "p" true None = Ok gap_stat ∧
    g_at gap_stat 0 = Z2Qc 2 ∧
    ∀ s, 0 < s < 2 → g_at gap_stat s = 0%Qc.
Proof.
  apply (gapstat_of_distinct_labels [4; 7; 1; 9] 2 true); [lia| |reflexivity].
  repeat (apply NoDup_cons; split; [rewrite ?elem_of_cons, elem_of_nil; lia|]).
  apply NoDup_nil_2.
Defined.

Lemma equal_neighbours_share_label_witness :
  ∃ bonds labels,
    get_bonds_nd (Arr [Arr [Scalar 3; Scalar 3]; Arr [Scalar 0; Scalar 5]]) 2 "all"
    = Ok (BondsAll bonds) ∧
    hoshen_kopelman_nd 5 bonds [2; 2] 2 "oo" false = Ok labels ∧
    getitem labels (site_index [2; 2] [0; 1])
    = getitem labels (site_index [2; 2] (pred_coords [2; 2] [0; 1] 1)).
Proof.
  apply (equal_neighbours_share_label 5
           (Arr [Arr [Scalar 3; Scalar 3]; Arr [Scalar 0; Scalar 5]]) [2; 2] 2 "oo" false
           [0; 1] 1 1 3).
  - simpl. repeat constructor.
  - reflexivity.
  - reflexivity.
  - simpl. lia.
  - repeat (constructor; [lia|]). constructor.
  - reflexivity.
  - left. lia.
  - reflexivity.
  - reflexivity.
Defined.
